(** * emoji-cheat-sheet: the categorisation script [scripts/fetch.js]

    A shallow embedding of the script that reconciles GitHub's emoji
    shortcodes with the Unicode emoji reference list, and the properties
    of its specification checked against it.

    JavaScript strings are sequences of UTF-16 code units, objects are
    property lists in own-property enumeration order, exceptions are an
    error result. *)

From Stdlib Require Import String Ascii.
From Stdlib Require Import List NArith ZArith Bool Lia Permutation Sorted.
Import ListNotations.

Open Scope N_scope.

(** ** JavaScript strings *)

Definition jsstring := list N.

(** An ASCII literal as a JavaScript string. *)
Definition js (s : string) : jsstring :=
  map N_of_ascii (list_ascii_of_string s).

Fixpoint str_eqb (a b : jsstring) : bool :=
  match a, b with
  | [], [] => true
  | x :: a', y :: b' => (x =? y) && str_eqb a' b'
  | _, _ => false
  end.

(** [s.startsWith(p)] *)
Fixpoint startsWith (p s : jsstring) : bool :=
  match p, s with
  | [], _ => true
  | x :: p', y :: s' => (x =? y) && startsWith p' s'
  | _ :: _, [] => false
  end.

(** [s.includes(sub)] *)
Fixpoint includes (sub s : jsstring) : bool :=
  startsWith sub s ||
  match s with
  | [] => false
  | _ :: s' => includes sub s'
  end.

(** [s.split(sep)] for a non-empty separator: [skip] counts the code units
    of a separator occurrence still to be dropped, [cur] is the piece being
    read, reversed. *)
Fixpoint split_from (sep : jsstring) (skip : nat) (cur s : jsstring)
  : list jsstring :=
  match s with
  | [] => [rev cur]
  | c :: s' =>
      match skip with
      | S k => split_from sep k cur s'
      | O =>
          if startsWith sep s
          then rev cur :: split_from sep (length sep - 1) [] s'
          else split_from sep 0 (c :: cur) s'
      end
  end.

Definition split (sep s : jsstring) : list jsstring :=
  match sep with
  | [] => map (fun c => [c]) s
  | _ :: _ => split_from sep 0 [] s
  end.

(** [a.join(sep)] *)
Fixpoint join (sep : jsstring) (a : list jsstring) : jsstring :=
  match a with
  | [] => []
  | [x] => x
  | x :: a' => x ++ sep ++ join sep a'
  end.

(** [\s] of a regular expression, and the white space [parseInt] skips:
    WhiteSpace and LineTerminator code units. *)
Definition is_space (c : N) : bool :=
  ((9 <=? c) && (c <=? 13)) || (c =? 32) || (c =? 160) || (c =? 5760)
  || ((8192 <=? c) && (c <=? 8202)) || (c =? 8232) || (c =? 8233)
  || (c =? 8239) || (c =? 8287) || (c =? 12288) || (c =? 65279).

Definition is_lower (c : N) : bool := (97 <=? c) && (c <=? 122).
Definition is_upper (c : N) : bool := (65 <=? c) && (c <=? 90).

(** [[a-zA-Z]] *)
Definition is_alpha (c : N) : bool := is_lower c || is_upper c.

(** [toUpperCase] on a one-letter string matched by [[a-zA-Z]]. *)
Definition toUpperCase (c : N) : N := if is_lower c then c - 32 else c.

(** The value of a hexadecimal digit. *)
Definition hex_digit (c : N) : option N :=
  if (48 <=? c) && (c <=? 57) then Some (c - 48)
  else if (97 <=? c) && (c <=? 102) then Some (c - 87)
  else if (65 <=? c) && (c <=? 70) then Some (c - 55)
  else None.

(** ** Errors *)

Inductive error : Type :=
| RangeError          (* String.fromCodePoint on an invalid code point *)
| TypeError           (* property access on undefined, call of a non-function *)
| UnexpectedType (type : jsstring)
| Uncategorized.      (* "Uncategorized emoji(s) found." *)

Inductive result (A : Type) : Type :=
| Ok (a : A)
| Err (e : error).

Arguments Ok {A} a.
Arguments Err {A} e.

Definition bind {A B} (r : result A) (k : A -> result B) : result B :=
  match r with
  | Ok a => k a
  | Err e => Err e
  end.

Notation "x <- r ;; k" := (bind r (fun x => k))
  (at level 61, r at next level, right associativity).

Definition is_ok {A} (r : result A) : bool :=
  match r with Ok _ => true | Err _ => false end.

(** [a.map(f)] where [f] may throw: the first exception ends the map. *)
Fixpoint mapM {A B} (f : A -> result B) (l : list A) : result (list B) :=
  match l with
  | [] => Ok []
  | x :: l' => y <- f x ;; ys <- mapM f l' ;; Ok (y :: ys)
  end.

(** ** Number parsing and code points *)

Fixpoint dropWhile {A} (p : A -> bool) (l : list A) : list A :=
  match l with
  | [] => []
  | x :: l' => if p x then dropWhile p l' else l
  end.

(** The longest prefix of hexadecimal digits, read as a number: [None] when
    there is no digit. [acc] is [None] until a digit was read. *)
Fixpoint hex_prefix (acc : option N) (s : jsstring) : option N :=
  match s with
  | [] => acc
  | c :: s' =>
      match hex_digit c with
      | Some d =>
          hex_prefix (Some (16 * match acc with Some a => a | None => 0 end + d)) s'
      | None => acc
      end
  end.

(** [parseInt(s, 16)]: leading white space is skipped, then an optional
    sign and an optional [0x] or [0X], then the longest run of hexadecimal
    digits is read and what follows is ignored. [None] is NaN. The number
    is kept exact: rounding to a double is monotone and the only use is the
    range test of [fromCodePoint]; [-0] is [0], which [fromCodePoint]
    treats alike. *)
Definition parseInt16 (s : jsstring) : option Z :=
  let s1 := dropWhile is_space s in
  let '(neg, s2) :=
    match s1 with
    | c :: r =>
        if c =? 45 then (true, r)          (* - *)
        else if c =? 43 then (false, r)    (* + *)
        else (false, s1)
    | [] => (false, s1)
    end in
  let s3 :=
    if startsWith (js "0x") s2 || startsWith (js "0X") s2
    then skipn 2 s2 else s2 in
  match hex_prefix None s3 with
  | None => None
  | Some n => Some (if neg then (- Z.of_N n)%Z else Z.of_N n)
  end.

(** The UTF-16 code units of a code point. *)
Definition utf16 (cp : N) : jsstring :=
  if cp <=? 65535 then [cp]
  else [55296 + (cp - 65536) / 1024; 56320 + (cp - 65536) mod 1024].

(** [String.fromCodePoint(n)] for one argument. *)
Definition fromCodePoint (n : option Z) : result jsstring :=
  match n with
  | None => Err RangeError
  | Some z =>
      if ((0 <=? z) && (z <=? 1114111))%Z then Ok (utf16 (Z.to_N z))
      else Err RangeError
  end.

(** ** [toTitleCase] *)

(** [.replace(/-/g, " ")] *)
Definition replace_hyphens (s : jsstring) : jsstring :=
  map (fun c => if c =? 45 then 32 else c) s.

(** [.replace(/\s+/g, " ")]: [in_run] tells that the code unit before was
    white space, already replaced. *)
Fixpoint replace_spaces (in_run : bool) (s : jsstring) : jsstring :=
  match s with
  | [] => []
  | c :: s' =>
      if is_space c
      then (if in_run then replace_spaces true s' else 32 :: replace_spaces true s')
      else c :: replace_spaces false s'
  end.

(** [.replace(/[a-zA-Z]+/g, word => word[0].toUpperCase() + word.slice(1))]:
    [in_word] tells that the code unit before was a letter of the word
    being copied. *)
Fixpoint replace_words (in_word : bool) (s : jsstring) : jsstring :=
  match s with
  | [] => []
  | c :: s' =>
      if is_alpha c
      then (if in_word then c else toUpperCase c) :: replace_words true s'
      else c :: replace_words false s'
  end.

Definition toTitleCase (str : jsstring) : jsstring :=
  replace_words false (replace_spaces false (replace_hyphens str)).

(** [getLast(array)]: [None] is [undefined]. *)
Definition getLast {A} (array : list A) : option A :=
  nth_error array (length array - 1).

(** ** [getGithubEmojiIdMap] *)

(** [EmojiLiteral | [string]]: a string, or a one-element array for one of
    GitHub's own emoji. *)
Inductive literal : Type :=
| Literal (s : jsstring)
| PlatformRef (uri : jsstring).

(** [getLast(url.split("/")).split(".png")[0]]; property access on
    [undefined] throws. *)
Definition file_stem (url : jsstring) : result jsstring :=
  match getLast (split (js "/") url) with
  | None => Err TypeError
  | Some file =>
      match nth_error (split (js ".png") file) 0 with
      | None => Err TypeError
      | Some stem => Ok stem
      end
  end.

(** The body of the arrow function mapped over the entries, for one url. *)
Definition decode (url : jsstring) : result literal :=
  if includes (js "/unicode/") url
  then
    stem <- file_stem url ;;
    chars <- mapM (fun codePointText => fromCodePoint (parseInt16 codePointText))
                  (split (js "-") stem) ;;
    Ok (Literal (join [] chars))
  else
    stem <- file_stem url ;;
    Ok (PlatformRef stem).

(** ** JavaScript objects

    An ordinary object is the list of its own properties in the order
    [Object.keys] and [Object.entries] enumerate them: the keys that are
    array indices first, in ascending numeric order, then the other keys in
    the order they were created. *)

Definition decimal_digit (c : N) : option N :=
  if (48 <=? c) && (c <=? 57) then Some (c - 48) else None.

Fixpoint decimal (acc : N) (s : jsstring) : option N :=
  match s with
  | [] => Some acc
  | c :: s' =>
      match decimal_digit c with
      | Some d => decimal (10 * acc + d) s'
      | None => None
      end
  end.

(** The array index a key denotes: a canonical numeric string ("0", or
    digits with no leading zero) below 2^32 - 1. *)
Definition array_index (k : jsstring) : option N :=
  match k with
  | [] => None
  | c :: k' =>
      if (c =? 48) && negb (length k' =? 0)%nat then None
      else
        match decimal 0 k with
        | Some n => if n <? 4294967295 then Some n else None
        | None => None
        end
  end.

(** The properties every object created by [{}] inherits from
    [Object.prototype]. *)
Definition object_prototype_keys : list jsstring :=
  map js
    [ "constructor"; "__defineGetter__"; "__defineSetter__"; "hasOwnProperty";
      "__lookupGetter__"; "__lookupSetter__"; "isPrototypeOf";
      "propertyIsEnumerable"; "toString"; "valueOf"; "__proto__";
      "toLocaleString" ]%string.

Definition inherited (k : jsstring) : bool :=
  existsb (str_eqb k) object_prototype_keys.

(** What [o[k]] finds. *)
Inductive lookup (V : Type) : Type :=
| Own (v : V)
| Inherited
| Undefined.

Arguments Own {V} v.
Arguments Inherited {V}.
Arguments Undefined {V}.

Abbreviation obj V := (list (jsstring * V)) (only parsing).

Section Objects.
Context {V : Type}.

(** The own property [k]. *)
Fixpoint obj_get (k : jsstring) (o : obj V) : option V :=
  match o with
  | [] => None
  | (k', v) :: o' => if str_eqb k' k then Some v else obj_get k o'
  end.

Definition obj_has (k : jsstring) (o : obj V) : bool :=
  match obj_get k o with Some _ => true | None => false end.

(** [o[k]], through the prototype. *)
Definition obj_lookup (k : jsstring) (o : obj V) : lookup V :=
  match obj_get k o with
  | Some v => Own v
  | None => if inherited k then Inherited else Undefined
  end.

Fixpoint obj_replace (k : jsstring) (v : V) (o : obj V) : obj V :=
  match o with
  | [] => []
  | (k', v') :: o' =>
      if str_eqb k' k then (k', v) :: o' else (k', v') :: obj_replace k v o'
  end.

(** A new property whose key is the array index [n]. *)
Fixpoint obj_insert_index (n : N) (k : jsstring) (v : V) (o : obj V) : obj V :=
  match o with
  | [] => [(k, v)]
  | (k', v') :: o' =>
      match array_index k' with
      | Some m =>
          if m <? n then (k', v') :: obj_insert_index n k v o'
          else (k, v) :: o
      | None => (k, v) :: o
      end
  end.

(** [o[k] = v] on an own property or a key nothing is inherited for. *)
Definition obj_set (k : jsstring) (v : V) (o : obj V) : obj V :=
  if obj_has k o then obj_replace k v o
  else
    match array_index k with
    | Some n => obj_insert_index n k v o
    | None => o ++ [(k, v)]
    end.

(** [delete o[k]] *)
Definition obj_delete (k : jsstring) (o : obj V) : obj V :=
  filter (fun e => negb (str_eqb (fst e) k)) o.

(** [Object.keys(o)] *)
Definition obj_keys (o : obj V) : list jsstring := map fst o.

(** [Object.fromEntries(entries)] *)
Definition fromEntries (entries : list (jsstring * V)) : obj V :=
  fold_left (fun o e => obj_set (fst e) (snd e) o) entries [].
End Objects.


(** [for (const x of xs) st = body(st, x)] where the body may throw. *)
Fixpoint for_of {S A} (body : S -> A -> result S) (xs : list A) (st : S)
  : result S :=
  match xs with
  | [] => Ok st
  | x :: xs' => st' <- body st x ;; for_of body xs' st'
  end.

(** [getGithubEmojiIdMap], from the parsed response of the emoji API, an
    object from identifiers to urls. *)
Definition getGithubEmojiIdMap (json : obj jsstring) : result (obj literal) :=
  entries <- mapM (fun e => l <- decode (snd e) ;; Ok (fst e, l)) json ;;
  Ok (fromEntries entries).

(** ** [getUnicodeEmojiCategoryIteratorFromText] *)

(** What the iterator yields: [{ type, value }]. *)
Inductive record : Type :=
| Category (value : jsstring)
| Subcategory (value : jsstring)
| Emoji (value : jsstring)
| Other (type value : jsstring).

(** The body of the generator's loop for one line: nothing or one record,
    or an exception. *)
Definition parse_line (line : jsstring) : result (option record) :=
  if startsWith (js "@@") line then Ok (Some (Category (skipn 2 line)))
  else if startsWith (js "@") line then Ok (Some (Subcategory (skipn 1 line)))
  else
    match line with
    | [] => Ok None
    | _ :: _ =>
        match nth_error (split [9] line) 0 with   (* split on the tab *)
        | None => Err TypeError
        | Some field =>
            chars <- mapM (fun t => fromCodePoint (parseInt16 t))
                          (split (js " ") field) ;;
            Ok (Some (Emoji (join [] chars)))
        end
    end.

(** The records the generator yields, and the exception that ends it if
    one does. *)
Fixpoint parse_lines (lines : list jsstring) : list record * option error :=
  match lines with
  | [] => ([], None)
  | line :: lines' =>
      match parse_line line with
      | Err e => ([], Some e)
      | Ok None => parse_lines lines'
      | Ok (Some r) => let '(rs, e) := parse_lines lines' in (r :: rs, e)
      end
  end.

Definition getUnicodeEmojiCategoryIteratorFromText (text : jsstring)
  : list record * option error :=
  parse_lines (split [10] text).   (* split on the line feed *)

(** ** [getCategorizeGithubEmojiIds] *)

(** [Array<string[]>] *)
Abbreviation groups := (list (list jsstring)) (only parsing).

(** [{ [category: string]: { [subcategory: string]: Array<string[]> } }] *)
Abbreviation taxonomy := (obj (obj groups)) (only parsing).

(** The local variables of the function. *)
Record locals : Type := {
  githubEmojiIdMap : obj literal;
  emojiLiteralToGithubEmojiIdsMap : obj (list jsstring);
  githubSpecificEmojiUriToGithubEmojiIdsMap : obj (list jsstring);
  categorizedEmojiIds : taxonomy;
  categoryStack : list jsstring
}.

(** [if (!m[k]) { m[k] = []; } m[k].push(id);] What is inherited from
    [Object.prototype] is truthy and has no [push]. *)
Definition push_id (k id : jsstring) (m : obj (list jsstring))
  : result (obj (list jsstring)) :=
  let m' :=
    match obj_lookup k m with
    | Undefined => obj_set k [] m
    | _ => m
    end in
  match obj_get k m' with
  | Some ids => Ok (obj_set k (ids ++ [id]) m')
  | None => Err TypeError
  end.

(** The body of the loop over [Object.entries(githubEmojiIdMap)]. *)
Definition partition_step (st : locals) (entry : jsstring * literal)
  : result locals :=
  let '(emojiId, emojiLiteral) := entry in
  match emojiLiteral with
  | PlatformRef uri =>
      m <- push_id uri emojiId (githubSpecificEmojiUriToGithubEmojiIdsMap st) ;;
      Ok {| githubEmojiIdMap := obj_delete emojiId (githubEmojiIdMap st);
            emojiLiteralToGithubEmojiIdsMap := emojiLiteralToGithubEmojiIdsMap st;
            githubSpecificEmojiUriToGithubEmojiIdsMap := m;
            categorizedEmojiIds := categorizedEmojiIds st;
            categoryStack := categoryStack st |}
  | Literal l =>
      m <- push_id l emojiId (emojiLiteralToGithubEmojiIdsMap st) ;;
      Ok {| githubEmojiIdMap := githubEmojiIdMap st;
            emojiLiteralToGithubEmojiIdsMap := m;
            githubSpecificEmojiUriToGithubEmojiIdsMap :=
              githubSpecificEmojiUriToGithubEmojiIdsMap st;
            categorizedEmojiIds := categorizedEmojiIds st;
            categoryStack := categoryStack st |}
  end.

(** The class [[\ufe00-\ufe0f\u200d]]. *)
Definition is_selector (c : N) : bool :=
  ((65024 <=? c) && (c <=? 65039)) || (c =? 8205).

(** [value.replace(/[\ufe00-\ufe0f\u200d]/g, '')]: the variation selectors
    and the zero-width joiner go. *)
Definition normalize (value : jsstring) : jsstring :=
  filter (fun c => negb (is_selector c)) value.

(** The property key an array element read by index or by destructuring
    becomes: [undefined] is the key "undefined". *)
Definition property_key (x : option jsstring) : jsstring :=
  match x with
  | Some s => s
  | None => js "undefined"
  end.

Definition set_walk (st : locals) (ids : obj literal) (cats : taxonomy)
  (stack : list jsstring) : locals :=
  {| githubEmojiIdMap := ids;
     emojiLiteralToGithubEmojiIdsMap := emojiLiteralToGithubEmojiIdsMap st;
     githubSpecificEmojiUriToGithubEmojiIdsMap :=
       githubSpecificEmojiUriToGithubEmojiIdsMap st;
     categorizedEmojiIds := cats;
     categoryStack := stack |}.

(** The body of the loop over the records, one [case] each. The keys
    [categorizedEmojiIds] and its values are read at are titles or
    "undefined", for which nothing is inherited from [Object.prototype]
    (lemmas [toTitleCase_not_inherited], [undefined_not_inherited]): only
    own properties are looked at. *)
Definition walk_step (st : locals) (r : record) : result locals :=
  match r with
  | Category value =>
      let title := toTitleCase value in
      Ok (set_walk st (githubEmojiIdMap st)
            (obj_set title [] (categorizedEmojiIds st)) [title])
  | Subcategory value =>
      let popped :=
        if (1 <? length (categoryStack st))%nat
        then removelast (categoryStack st) else categoryStack st in
      let title := toTitleCase value in
      let stack := popped ++ [title] in
      let category := property_key (nth_error stack 0) in
      match obj_get category (categorizedEmojiIds st) with
      | None => Err TypeError
      | Some subs =>
          Ok (set_walk st (githubEmojiIdMap st)
                (obj_set category (obj_set title [] subs) (categorizedEmojiIds st))
                stack)
      end
  | Emoji value =>
      let key := normalize value in
      match obj_lookup key (emojiLiteralToGithubEmojiIdsMap st) with
      | Undefined => Ok st
      | Inherited => Err TypeError
      | Own githubEmojiIds =>
          let category := property_key (nth_error (categoryStack st) 0) in
          let subcategory := property_key (nth_error (categoryStack st) 1) in
          match obj_get category (categorizedEmojiIds st) with
          | None => Err TypeError
          | Some subs =>
              match obj_get subcategory subs with
              | None => Err TypeError
              | Some list =>
                  Ok (set_walk st
                        (fold_left (fun m githubEmojiId => obj_delete githubEmojiId m)
                                   githubEmojiIds (githubEmojiIdMap st))
                        (obj_set category
                           (obj_set subcategory (list ++ [githubEmojiIds]) subs)
                           (categorizedEmojiIds st))
                        (categoryStack st))
              end
          end
      end
  | Other type _ => Err (UnexpectedType type)
  end.

(** The inner loop of the pruning: the subcategories with no group go. *)
Definition prune_subcategory (subs : obj groups) (subcategory : jsstring)
  : result (obj groups) :=
  match obj_get subcategory subs with
  | None => Err TypeError
  | Some [] => Ok (obj_delete subcategory subs)
  | Some (_ :: _) => Ok subs
  end.

(** The body of the outer loop of the pruning. *)
Definition prune_step (cats : taxonomy) (category : jsstring)
  : result taxonomy :=
  match obj_get category cats with
  | None => Err TypeError
  | Some subCategorizedEmojiIds =>
      subs <- for_of prune_subcategory (obj_keys subCategorizedEmojiIds)
                subCategorizedEmojiIds ;;
      let cats' := obj_set category subs cats in
      match obj_keys subs with
      | [] => Ok (obj_delete category cats')
      | _ :: _ => Ok cats'
      end
  end.

Definition prune (cats : taxonomy) : result taxonomy :=
  for_of prune_step (obj_keys cats) cats.

Definition custom_title : jsstring := js "GitHub Custom Emoji".

(** The last statement before the return. *)
Definition add_custom (uris : obj (list jsstring)) (cats : taxonomy)
  : taxonomy :=
  match obj_keys uris with
  | [] => cats
  | _ :: _ => obj_set custom_title [([], map snd uris)] cats
  end.

(** The first part of the function: the identifier map and its two
    partitions. *)
Definition partition (json : obj jsstring) : result locals :=
  idMap <- getGithubEmojiIdMap json ;;
  for_of partition_step idMap
    {| githubEmojiIdMap := idMap;
       emojiLiteralToGithubEmojiIdsMap := [];
       githubSpecificEmojiUriToGithubEmojiIdsMap := [];
       categorizedEmojiIds := [];
       categoryStack := [] |}.

(** Up to the end of the loop over the records. *)
Definition walk (json : obj jsstring) (records : list record) : result locals :=
  st <- partition json ;;
  for_of walk_step records st.

(** What follows the loop. *)
Definition finish (st : locals) : result taxonomy :=
  match obj_keys (githubEmojiIdMap st) with
  | _ :: _ => Err Uncategorized
  | [] =>
      cats <- prune (categorizedEmojiIds st) ;;
      Ok (add_custom (githubSpecificEmojiUriToGithubEmojiIdsMap st) cats)
  end.

(** The function from the two responses on: [json] is the parsed response
    of the emoji API, [records] are the records the iterator yields and
    [thrown] the exception that ends it, if one does. *)
Definition categorize_from (json : obj jsstring) (records : list record)
  (thrown : option error) : result taxonomy :=
  st <- walk json records ;;
  match thrown with
  | Some e => Err e
  | None => finish st
  end.

(** The categorisation of the identifiers of [json] over a stream of
    records. *)
Definition categorize (json : obj jsstring) (records : list record)
  : result taxonomy :=
  categorize_from json records None.

Definition getCategorizeGithubEmojiIds (json : obj jsstring) (text : jsstring)
  : result taxonomy :=
  let '(records, thrown) := getUnicodeEmojiCategoryIteratorFromText text in
  categorize_from json records thrown.

(** ** Definitions the statements are made of *)

(** *** Title-casing, said with maximal runs *)

(** [s] cut into its maximal runs of code units on which [p] agrees. *)
Fixpoint runs (p : N -> bool) (s : jsstring) : list jsstring :=
  match s with
  | [] => []
  | c :: s' =>
      match runs p s' with
      | (d :: r) :: rs =>
          if Bool.eqb (p c) (p d) then (c :: d :: r) :: rs
          else [c] :: (d :: r) :: rs
      | rs => [c] :: rs
      end
  end.

(** A run of white space becomes one space. *)
Definition collapse_run (r : jsstring) : jsstring :=
  match r with
  | c :: _ => if is_space c then [32] else r
  | [] => []
  end.

(** The first letter of an alphabetic run becomes upper case. *)
Definition capitalize_run (r : jsstring) : jsstring :=
  match r with
  | c :: r' => if is_alpha c then toUpperCase c :: r' else r
  | [] => []
  end.

(** Every maximal run of white space becomes one space. *)
Definition collapse_by_runs (s : jsstring) : jsstring :=
  concat (map collapse_run (runs is_space s)).

(** The first letter of every maximal alphabetic run becomes upper case. *)
Definition capitalize_by_runs (s : jsstring) : jsstring :=
  concat (map capitalize_run (runs is_alpha s)).

Definition title_case_by_runs (s : jsstring) : jsstring :=
  capitalize_by_runs
    (collapse_by_runs (map (fun c => if c =? 45 then 32 else c) s)).

(** The first letter of [s], if it has one, is not a lower-case one: what
    holds of every title and of no key of [Object.prototype]. *)
Fixpoint capitalized (s : jsstring) : bool :=
  match s with
  | [] => true
  | c :: s' => if is_alpha c then negb (is_lower c) else capitalized s'
  end.

(** *** Decoding, said on the file name *)

(** What follows the last [c] of [s]; [s] when there is none. *)
Fixpoint after_last (c : N) (s : jsstring) : jsstring :=
  match s with
  | [] => []
  | x :: s' =>
      if existsb (N.eqb c) s' then after_last c s'
      else if x =? c then s' else s
  end.

(** What precedes the first occurrence of [sub] in [s]; [s] when there is
    none. *)
Fixpoint before_first (sub s : jsstring) : jsstring :=
  match s with
  | [] => []
  | x :: s' => if startsWith sub s then [] else x :: before_first sub s'
  end.

(** The fields of [s] between the occurrences of [c]. *)
Fixpoint fields (c : N) (s : jsstring) : list jsstring :=
  match s with
  | [] => [[]]
  | x :: s' =>
      if x =? c then [] :: fields c s'
      else
        match fields c s' with
        | f :: fs => (x :: f) :: fs
        | [] => [[x]]
        end
  end.

(** The number a text of hexadecimal digits only writes. *)
Fixpoint hex_digits (acc : N) (s : jsstring) : option N :=
  match s with
  | [] => Some acc
  | c :: s' =>
      match hex_digit c with
      | Some d => hex_digits (16 * acc + d) s'
      | None => None
      end
  end.

(** The code point of a hexadecimal code-point text. *)
Definition code_point (text : jsstring) : option N :=
  match text with
  | [] => None
  | _ :: _ =>
      match hex_digits 0 text with
      | Some n => if n <=? 1114111 then Some n else None
      | None => None
      end
  end.

Fixpoint all_some {A} (l : list (option A)) : option (list A) :=
  match l with
  | [] => Some []
  | Some x :: l' =>
      match all_some l' with Some xs => Some (x :: xs) | None => None end
  | None :: _ => None
  end.

(** The file name of a locator without its extension. *)
Definition stem_of (locator : jsstring) : jsstring :=
  before_first (js ".png") (after_last 47 locator).

(** The decoding as the specification words it; [None] where a text of the
    file name is not a hexadecimal code point. *)
Definition decode_by_name (locator : jsstring) : option literal :=
  if includes (js "/unicode/") locator
  then
    match all_some (map code_point (fields 45 (stem_of locator))) with
    | Some cps => Some (Literal (flat_map utf16 cps))
    | None => None
    end
  else Some (PlatformRef (stem_of locator)).

(** *** The identifier source *)

(** The keys of an object come in own-property order and once each: of a
    key that is an array index the later ones are greater indices or no
    indices, of another key the later ones are no indices. *)
Fixpoint js_ordered (ks : list jsstring) : bool :=
  match ks with
  | [] => true
  | k :: ks' =>
      negb (existsb (str_eqb k) ks')
      && forallb (fun k' =>
                    match array_index k, array_index k' with
                    | Some n, Some m => n <? m
                    | None, Some _ => false
                    | _, None => true
                    end) ks'
      && js_ordered ks'
  end.

Definition obj_wf {V} (o : obj V) : bool := js_ordered (obj_keys o).

(** The literal an identifier's locator decodes to, if it decodes to one. *)
Definition literal_of (url : jsstring) : option jsstring :=
  match decode url with
  | Ok (Literal l) => Some l
  | _ => None
  end.

(** The grouping key of a platform-specific identifier's locator. *)
Definition uri_of (url : jsstring) : option jsstring :=
  match decode url with
  | Ok (PlatformRef u) => Some u
  | _ => None
  end.

Definition opt_is (x : option jsstring) (k : jsstring) : bool :=
  match x with
  | Some s => str_eqb s k
  | None => false
  end.

(** The identifiers of [o] whose value [sel] sends to [k], in the order
    of enumeration. *)
Definition ids_with {V} (sel : V -> option jsstring) (k : jsstring)
  (o : obj V) : list jsstring :=
  map fst (filter (fun e => opt_is (sel (snd e)) k) o).

(** The keys [sel] gives along [o]. *)
Definition keys_by {V} (sel : V -> option jsstring) (o : obj V)
  : list jsstring :=
  flat_map (fun e => match sel (snd e) with Some k => [k] | None => [] end) o.

(** The identifiers of [o] to which [sel] gives a key. *)
Definition keyed {V} (sel : V -> option jsstring) (o : obj V)
  : list jsstring :=
  map fst (filter (fun e => match sel (snd e) with Some _ => true | None => false end) o).

Definition lit_key (l : literal) : option jsstring :=
  match l with Literal s => Some s | PlatformRef _ => None end.

Definition uri_key (l : literal) : option jsstring :=
  match l with PlatformRef u => Some u | Literal _ => None end.

(** [l] without the repetitions, each element where it comes first. *)
Definition first_seen (l : list jsstring) : list jsstring :=
  fold_left (fun acc k => if existsb (str_eqb k) acc then acc else acc ++ [k])
            l [].

Definition is_index (k : jsstring) : bool :=
  match array_index k with Some _ => true | None => false end.

Definition index_value (k : jsstring) : N :=
  match array_index k with Some n => n | None => 0 end.

Definition nonempty_list {A} (l : list A) : option (list A) :=
  match l with
  | [] => None
  | _ :: _ => Some l
  end.

(** [m] groups the identifiers of [o] by [sel]: under each key the
    identifiers [sel] sends there, in the order of enumeration, and no
    other key. *)
Definition groups_by {V} (sel : V -> option jsstring) (o : obj V)
  (m : obj (list jsstring)) : Prop :=
  forall k, obj_get k m = nonempty_list (ids_with sel k o).

(** [ks] are the keys [seen], each once, in own-property order: the array
    indices first, ascending, then the others as they were first seen. *)
Definition own_property_order (seen ks : list jsstring) : Prop :=
  exists idx,
    ks = idx ++ filter (fun k => negb (is_index k)) (first_seen seen)
    /\ Permutation idx (filter is_index (first_seen seen))
    /\ StronglySorted (fun a b => index_value a <= index_value b) idx.

(** The local variables when the loop over the entries of [idMap] has seen
    the entries [done]. *)
Definition partitioned (idMap done : obj literal) (st : locals) : Prop :=
  groups_by lit_key done (emojiLiteralToGithubEmojiIdsMap st)
  /\ groups_by uri_key done (githubSpecificEmojiUriToGithubEmojiIdsMap st)
  /\ own_property_order (keys_by uri_key done)
       (obj_keys (githubSpecificEmojiUriToGithubEmojiIdsMap st))
  /\ categorizedEmojiIds st = []
  /\ categoryStack st = []
  /\ (forall id, In id (obj_keys (githubEmojiIdMap st))
                 <-> In id (obj_keys idMap) /\ ~ In id (keyed uri_key done)).

(** *** Taxonomies *)

(** All the groups of a taxonomy. *)
Definition groups_of (t : taxonomy) : groups :=
  flat_map (fun c => flat_map (fun s => snd s) (snd c)) t.

(** All the identifiers of a taxonomy, as often as they occur. *)
Definition identifiers (t : taxonomy) : list jsstring :=
  concat (groups_of t).

(** Every key of a taxonomy and of its categories is a title. *)
Definition titled (t : taxonomy) : Prop :=
  forall c subs, In (c, subs) t ->
    capitalized c = true
    /\ forall s gs, In (s, gs) subs -> capitalized s = true.

(** No key comes twice, in a taxonomy or in one of its categories. *)
Definition tax_ok (t : taxonomy) : Prop :=
  NoDup (obj_keys t)
  /\ forall c subs, In (c, subs) t -> NoDup (obj_keys subs).

(** Every group of the taxonomy is a group of the partition [m]. *)
Definition from_partition (m : obj (list jsstring)) (t : taxonomy) : Prop :=
  forall c subs s gs g,
    In (c, subs) t -> In (s, gs) subs -> In g gs ->
    exists k, obj_get k m = Some g.

(** The identifiers of one category, as often as they occur. *)
Definition ids_of_category (c : jsstring * obj groups) : list jsstring :=
  flat_map (fun s => concat (snd s)) (snd c).

Definition has_groups {K A} (e : K * list A) : bool :=
  match snd e with
  | [] => false
  | _ :: _ => true
  end.

(** A taxonomy without its empty subcategories and then without its empty
    categories. *)
Definition pruned (t : taxonomy) : taxonomy :=
  filter has_groups (map (fun c => (fst c, filter has_groups (snd c))) t).

(** *** Record streams *)

(** The titles of the category records. *)
Definition category_titles (records : list record) : list jsstring :=
  flat_map (fun r => match r with Category v => [toTitleCase v] | _ => [] end)
           records.

(** The normalized keys of the emoji records. *)
Definition emoji_keys (records : list record) : list jsstring :=
  flat_map (fun r => match r with Emoji v => [normalize v] | _ => [] end)
           records.


(** The stack the loop holds after [records], from [stack]. *)
Fixpoint stack_after (stack : list jsstring) (records : list record)
  : list jsstring :=
  match records with
  | [] => stack
  | Category v :: rs => stack_after [toTitleCase v] rs
  | Subcategory v :: rs =>
      stack_after
        ((if (1 <? length stack)%nat then removelast stack else stack)
           ++ [toTitleCase v]) rs
  | _ :: rs => stack_after stack rs
  end.

Definition is_category (r : record) : bool :=
  match r with Category _ => true | _ => false end.

Definition is_subcategory (r : record) : bool :=
  match r with Subcategory _ => true | _ => false end.

(** No title comes twice where it would empty a bucket, no key comes twice
    where it would append a group again: [cs] are the category titles seen
    or reserved, [ss] the subcategory titles seen in the current category,
    [ks] the matching keys seen. *)
Fixpoint separated (matches : jsstring -> bool) (cs ss ks : list jsstring)
  (records : list record) : bool :=
  match records with
  | [] => true
  | Category v :: rs =>
      negb (existsb (str_eqb (toTitleCase v)) cs)
      && separated matches (toTitleCase v :: cs) [] ks rs
  | Subcategory v :: rs =>
      negb (existsb (str_eqb (toTitleCase v)) ss)
      && separated matches cs (toTitleCase v :: ss) ks rs
  | Emoji v :: rs =>
      if matches (normalize v)
      then negb (existsb (str_eqb (normalize v)) ks)
           && separated matches cs ss (normalize v :: ks) rs
      else separated matches cs ss ks rs
  | Other _ _ :: rs => separated matches cs ss ks rs
  end.

(** Some identifier of [json] decodes to the literal [k]. *)
Definition has_literal (json : obj jsstring) (k : jsstring) : bool :=
  existsb (fun e => opt_is (literal_of (snd e)) k) json.

(** Every literal an identifier of [json] decodes to is the normalized key
    of some emoji record. *)
Definition all_matched (json : obj jsstring) (records : list record) : bool :=
  forallb (fun e => match literal_of (snd e) with
                    | Some l => existsb (str_eqb l) (emoji_keys records)
                    | None => true
                    end) json.

(** Some identifier of [json] is platform-specific. *)
Definition has_custom (json : obj jsstring) : bool :=
  existsb (fun e => match uri_of (snd e) with Some _ => true | None => false end)
          json.

(** The streams on which no bucket is emptied or overwritten and no group
    appended twice for [json]. *)
Definition well_separated (json : obj jsstring) (records : list record)
  : bool :=
  separated (has_literal json)
            (if has_custom json then [custom_title] else []) [] [] records.

(** The local variables along a well-separated stream: [reserved] are the
    titles no category may bear, [cs], [ss] and [ks] what [separated] has
    seen. No identifier is filed twice, the identifiers filed are those of
    the keys seen, and those no longer in the identifier map are filed. *)
Definition walk_separated (json : obj jsstring)
  (reserved cs ss ks : list jsstring) (st : locals) : Prop :=
  incl reserved cs
  /\ (forall c, In c (obj_keys (categorizedEmojiIds st)) ->
                In c cs /\ ~ In c reserved)
  /\ match categoryStack st with
     | [] => categorizedEmojiIds st = []
     | c :: _ =>
         exists subs, obj_get c (categorizedEmojiIds st) = Some subs
                      /\ incl (obj_keys subs) ss
     end
  /\ NoDup (identifiers (categorizedEmojiIds st))
  /\ (forall id, In id (identifiers (categorizedEmojiIds st))
                 <-> exists k, In k ks /\ In id (ids_with literal_of k json))
  /\ (forall id, In id (keyed literal_of json) ->
                 ~ In id (obj_keys (githubEmojiIdMap st)) ->
                 exists k, In k ks /\ In id (ids_with literal_of k json))
  /\ groups_by literal_of json (emojiLiteralToGithubEmojiIdsMap st).

(** ** A small response and a small stream, for the instances *)

Definition example_json : obj jsstring :=
  [ (js "100", js "https://github.githubassets.com/images/icons/emoji/unicode/1f4af.png?v8");
    (js "+1", js "https://github.githubassets.com/images/icons/emoji/unicode/1f44d.png?v8");
    (js "heart", js "https://github.githubassets.com/images/icons/emoji/unicode/2764.png?v8");
    (js "octocat", js "https://github.githubassets.com/images/icons/emoji/octocat.png?v8");
    (js "smile", js "https://github.githubassets.com/images/icons/emoji/unicode/1f604.png?v8");
    (js "thumbsup", js "https://github.githubassets.com/images/icons/emoji/unicode/1f44d.png?v8") ].

Definition example_records : list record :=
  [ Category (js "Smileys & Emotion");
    Subcategory (js "face-smiling");
    Emoji (utf16 128516);
    Subcategory (js "face-affection");
    Subcategory (js "heart");
    Emoji (utf16 10084 ++ utf16 65039);
    Category (js "People & Body");
    Subcategory (js "hand-fingers-closed");
    Emoji (utf16 128077);
    Category (js "Symbols");
    Subcategory (js "other-symbol");
    Emoji (utf16 128175) ].

Definition example_taxonomy : obj (obj (list (list jsstring))) :=
  [ (js "Smileys & Emotion",
     [ (js "Face Smiling", [[js "smile"]]); (js "Heart", [[js "heart"]]) ]);
    (js "People & Body",
     [ (js "Hand Fingers Closed", [[js "+1"; js "thumbsup"]]) ]);
    (js "Symbols", [ (js "Other Symbol", [[js "100"]]) ]);
    (js "GitHub Custom Emoji", [ ([], [[js "octocat"]]) ]) ].

(** An identifier whose file name has a variation selector, and the
    reference entry for the same emoji. *)
Definition selector_json : obj jsstring :=
  [ (js "heart", js "https://github.githubassets.com/images/icons/emoji/unicode/2764-fe0f.png?v8") ].

Definition selector_literal : jsstring := utf16 10084 ++ utf16 65039.

Definition selector_records : list record :=
  [ Category (js "Smileys & Emotion"); Subcategory (js "heart");
    Emoji selector_literal ].

(** A stream with the qualified and the unqualified form of one emoji. *)
Definition repeated_json : obj jsstring :=
  [ (js "heart", js "https://github.githubassets.com/images/icons/emoji/unicode/2764.png?v8") ].

Definition repeated_records : list record :=
  [ Category (js "Smileys & Emotion"); Subcategory (js "heart");
    Emoji (utf16 10084 ++ utf16 65039); Emoji (utf16 10084) ].

(** A stream that names a subcategory twice. *)
Definition renamed_records : list record :=
  [ Category (js "Smileys & Emotion"); Subcategory (js "heart");
    Emoji (utf16 10084); Subcategory (js "heart") ].

(** Platform-specific identifiers, one with a numeral for a file name. *)
Definition numeral_json : obj jsstring :=
  [ (js "octocat", js "https://github.githubassets.com/images/icons/emoji/octocat.png?v8");
    (js "one", js "https://github.githubassets.com/images/icons/emoji/1.png?v8") ].

(** The local variables when the loop has read the category and the
    subcategory of [repeated_records]. *)
Definition repeated_state : locals :=
  {| githubEmojiIdMap := [(js "heart", Literal (utf16 10084))];
     emojiLiteralToGithubEmojiIdsMap := [(utf16 10084, [js "heart"])];
     githubSpecificEmojiUriToGithubEmojiIdsMap := [];
     categorizedEmojiIds := [(js "Smileys & Emotion", [(js "Heart", [])])];
     categoryStack := [js "Smileys & Emotion"; js "Heart"] |}.

(** An identifier with a literal, "a", that no record of the streams below
    has the key of; and the same beside a locator that does not decode. *)
Definition unmatched_json : obj jsstring :=
  [ (js "a", js "https://github.githubassets.com/images/icons/emoji/unicode/61.png?v8") ].

Definition undecodable_json : obj jsstring :=
  [ (js "a", js "https://github.githubassets.com/images/icons/emoji/unicode/61.png?v8");
    (js "b", js "https://github.githubassets.com/images/icons/emoji/unicode/zz.png?v8") ].

(** A stream that leaves the subcategory before it names the emoji again. *)
Definition left_records : list record :=
  [ Category (js "Smileys & Emotion"); Subcategory (js "heart");
    Emoji (utf16 10084); Category (js "Symbols");
    Emoji (utf16 10084 ++ utf16 65039) ].

(** ** Definitions for the further properties *)

(** The white space of [s] is single spaces U+0020, no two in a row;
    [after_space] tells that a space stands before [s]. *)
Fixpoint space_normal (after_space : bool) (s : jsstring) : bool :=
  match s with
  | [] => true
  | c :: s' =>
      if is_space c
      then (c =? 32) && negb after_space && space_normal true s'
      else space_normal false s'
  end.

(** A line of the reference text, as it is written: a category, a
    subcategory, an emoji with the hexadecimal texts of its code points and
    what follows the tab, or nothing. *)
Inductive source_line : Type :=
| CategoryLine (title : jsstring)
| SubcategoryLine (title : jsstring)
| EmojiLine (texts : list jsstring) (rest : jsstring)
| BlankLine.

Definition render_line (l : source_line) : jsstring :=
  match l with
  | CategoryLine title => js "@@" ++ title
  | SubcategoryLine title => js "@" ++ title
  | EmojiLine texts rest => join [32] texts ++ 9 :: rest
  | BlankLine => []
  end.

(** The record a line stands for. *)
Definition line_record (l : source_line) : option record :=
  match l with
  | CategoryLine title => Some (Category title)
  | SubcategoryLine title => Some (Subcategory title)
  | EmojiLine texts _ =>
      match all_some (map code_point texts) with
      | Some cps => Some (Emoji (flat_map utf16 cps))
      | None => None
      end
  | BlankLine => None
  end.

(** The lines that are written as the format has them: no line feed in a
    line, a subcategory title that does not begin with "@", an emoji with
    at least one text, all of them hexadecimal code points. *)
Definition line_ok (l : source_line) : bool :=
  match l with
  | CategoryLine title => negb (existsb (N.eqb 10) title)
  | SubcategoryLine title =>
      negb (existsb (N.eqb 10) title) && negb (startsWith (js "@") title)
  | EmojiLine texts rest =>
      negb (existsb (N.eqb 10) rest)
      && match texts with [] => false | _ :: _ => true end
      && forallb (fun t => match code_point t with Some _ => true | None => false end)
                 texts
  | BlankLine => true
  end.

(** The stream of a text followed by the stream of another: what the
    second yields comes after what the first yields, unless the first
    ends in an exception. *)
Definition stream_app (a b : list record * option error)
  : list record * option error :=
  match snd a with
  | Some e => a
  | None => (fst a ++ fst b, snd b)
  end.

(** The titles of the subcategory records. *)
Definition subcategory_titles (records : list record) : list jsstring :=
  flat_map (fun r => match r with Subcategory v => [toTitleCase v] | _ => [] end)
           records.

(** The key a literal is filed under, in partition (a) or (b). *)
Definition literal_key (l : literal) : jsstring :=
  match l with
  | Literal s => s
  | PlatformRef uri => uri
  end.

(** The records of the three types the loop over the stream has a case
    for. *)
Definition known_record (r : record) : Prop :=
  match r with Other _ _ => False | _ => True end.

(** The three exceptions the function is written to throw or lets
    through: of [String.fromCodePoint], of a property read on [undefined]
    or a call of what is no function, and its own. *)
Definition known_error (e : error) : Prop :=
  e = RangeError \/ e = TypeError \/ e = Uncategorized.

(** What the loop over the records keeps of the stack and the taxonomy:
    nothing is there yet, or the current category is there and has no
    subcategory, or the bucket of the current category and subcategory is
    there. *)
Definition stack_ok (st : locals) : Prop :=
  match categoryStack st with
  | [] => categorizedEmojiIds st = []
  | [c] => obj_get c (categorizedEmojiIds st) = Some []
  | [c; s] =>
      exists subs gs,
        obj_get c (categorizedEmojiIds st) = Some subs
        /\ obj_get s subs = Some gs
  | _ => False
  end.

(** A taxonomy with a subcategory and a category to prune. *)
Definition unpruned_taxonomy : taxonomy :=
  [ (js "Smileys & Emotion",
     [ (js "Face Smiling", []); (js "Face Affection", [[js "kissing_heart"]]) ]);
    (js "Component", [ (js "Skin Tone", []) ]) ].

(** The records the loop goes through without an exception, with [stack]
    for [categoryStack]: a category always, a subcategory when some
    category is current, an emoji whose key [matches] when a category and
    a subcategory are current, an emoji whose key does not when the key is
    no name of a property of [Object.prototype]. *)
Definition record_ok (matches : jsstring -> bool) (stack : list jsstring)
  (r : record) : bool :=
  match r with
  | Category _ => true
  | Subcategory _ => match stack with [] => false | _ :: _ => true end
  | Emoji v =>
      if matches (normalize v) then (length stack =? 2)%nat
      else negb (inherited (normalize v))
  | Other _ _ => false
  end.

Fixpoint stream_ok (matches : jsstring -> bool) (stack : list jsstring)
  (records : list record) : bool :=
  match records with
  | [] => true
  | r :: rs =>
      record_ok matches stack r && stream_ok matches (stack_after stack [r]) rs
  end.

(** * Properties *)

(** ** Strings *)

Lemma str_eqb_eq (a b : jsstring) : str_eqb a b = true <-> a = b.
Proof.
  revert b; induction a as [|x a IH]; intros [|y b]; simpl;
    try (split; [discriminate | discriminate]); try tauto.
  rewrite andb_true_iff, N.eqb_eq, IH.
  split; [intros [-> ->]; reflexivity | intros [= -> ->]; auto].
Qed.

Lemma str_eqb_refl (a : jsstring) : str_eqb a a = true.
Proof. apply str_eqb_eq; reflexivity. Qed.

Lemma str_eqb_neq (a b : jsstring) : str_eqb a b = false <-> a <> b.
Proof.
  rewrite <- str_eqb_eq. destruct (str_eqb a b); split; congruence.
Qed.

Lemma str_eqb_sym (a b : jsstring) : str_eqb a b = str_eqb b a.
Proof.
  destruct (str_eqb a b) eqn:E.
  - apply str_eqb_eq in E; subst; symmetry; apply str_eqb_refl.
  - symmetry; apply str_eqb_neq; apply str_eqb_neq in E; congruence.
Qed.

Lemma existsb_str_eqb (k : jsstring) (l : list jsstring) :
  existsb (str_eqb k) l = true <-> In k l.
Proof.
  rewrite existsb_exists; split.
  - intros [x [Hx E]]; apply str_eqb_eq in E; subst; exact Hx.
  - intros H; exists k; split; [exact H | apply str_eqb_refl].
Qed.

Lemma not_existsb_str_eqb (k : jsstring) (l : list jsstring) :
  existsb (str_eqb k) l = false <-> ~ In k l.
Proof.
  rewrite <- existsb_str_eqb. destruct (existsb _ l); split; congruence.
Qed.

Lemma startsWith_app (p r : jsstring) : startsWith p (p ++ r) = true.
Proof.
  induction p as [|x p IH]; simpl; [reflexivity|].
  rewrite N.eqb_refl; exact IH.
Qed.

Lemma startsWith_inv (p s : jsstring) :
  startsWith p s = true -> exists r, s = p ++ r.
Proof.
  revert s; induction p as [|x p IH]; intros s H; simpl in *.
  - exists s; reflexivity.
  - destruct s as [|y s]; [discriminate|].
    apply andb_true_iff in H as [E H]; apply N.eqb_eq in E; subst.
    destruct (IH _ H) as [r ->]; exists r; reflexivity.
Qed.

Lemma includes_app_l (sub p s : jsstring) :
  includes sub s = true -> includes sub (p ++ s) = true.
Proof.
  intros H; induction p as [|x p IH]; simpl; [exact H|].
  rewrite IH; apply orb_true_r.
Qed.

Lemma includes_prefix (sub r : jsstring) : includes sub (sub ++ r) = true.
Proof.
  destruct sub as [|x sub]; simpl.
  - destruct r; reflexivity.
  - rewrite N.eqb_refl, startsWith_app; reflexivity.
Qed.

(** ** Title-casing *)

Lemma runs_cons (p : N -> bool) (d : N) (s : jsstring) :
  exists r rs, runs p (d :: s) = (d :: r) :: rs.
Proof.
  simpl. destruct (runs p s) as [|[|e r] rs]; eauto.
  destruct (Bool.eqb (p d) (p e)); eauto.
Qed.

Lemma runs_head_agrees (p : N -> bool) (c d : N) (s r : jsstring)
  (rs : list jsstring) :
  runs p (c :: s) = (c :: d :: r) :: rs -> p d = p c.
Proof.
  simpl. destruct (runs p s) as [|[|e r'] rs'].
  - intros [=].
  - intros [=].
  - destruct (Bool.eqb (p c) (p e)) eqn:E.
    + intros [= -> _ _]. apply eqb_prop in E; congruence.
    + intros [=].
Qed.

Lemma replace_spaces_by_runs (s : jsstring) :
  replace_spaces false s = collapse_by_runs s
  /\ replace_spaces true s =
       match s with
       | c :: _ => if is_space c then tl (collapse_by_runs s)
                   else collapse_by_runs s
       | [] => []
       end.
Proof.
  unfold collapse_by_runs.
  induction s as [|c s [IHf IHt]]; [split; reflexivity|].
  destruct s as [|d s].
  - simpl. destruct (is_space c); split; reflexivity.
  - destruct (runs_cons is_space d s) as [r [rs Hr]].
    remember (d :: s) as s' eqn:Es'.
    simpl. rewrite Hr in *. rewrite IHf, IHt. clear IHf IHt.
    destruct (is_space c) eqn:Ec, (is_space d) eqn:Ed; simpl; unfold collapse_run;
      rewrite ?Ec, ?Ed; simpl; split; reflexivity.
Qed.

Lemma replace_words_by_runs (s : jsstring) :
  replace_words false s = capitalize_by_runs s
  /\ replace_words true s =
       match s with
       | c :: s' => if is_alpha c then c :: tl (capitalize_by_runs s)
                    else capitalize_by_runs s
       | [] => []
       end.
Proof.
  unfold capitalize_by_runs.
  induction s as [|c s [IHf IHt]]; [split; reflexivity|].
  destruct s as [|d s].
  - simpl. destruct (is_alpha c); split; reflexivity.
  - destruct (runs_cons is_alpha d s) as [r [rs Hr]].
    remember (d :: s) as s' eqn:Es'.
    simpl. rewrite Hr in *. rewrite IHf, IHt. clear IHf IHt.
    destruct (is_alpha c) eqn:Ec, (is_alpha d) eqn:Ed; simpl; unfold capitalize_run;
      rewrite ?Ec, ?Ed; simpl; split; reflexivity.
Qed.

(** C9: title-casing turns every hyphen into a space, then every maximal
    run of white space into one space, then the first letter of every
    maximal alphabetic run into its upper case, and leaves the rest as it
    is; "smileys-&-emotion" becomes "Smileys & Emotion" and "face-smiling"
    becomes "Face Smiling". *)
Theorem toTitleCase_by_runs :
  (forall str, toTitleCase str = title_case_by_runs str)
  /\ toTitleCase (js "smileys-&-emotion") = js "Smileys & Emotion"
  /\ toTitleCase (js "face-smiling") = js "Face Smiling".
Proof.
  split; [|split; reflexivity].
  intros str. unfold toTitleCase, title_case_by_runs, replace_hyphens.
  rewrite (proj1 (replace_words_by_runs _)), (proj1 (replace_spaces_by_runs _)).
  reflexivity.
Qed.

Lemma toUpperCase_upper (c : N) :
  is_alpha c = true ->
  is_alpha (toUpperCase c) = true /\ is_lower (toUpperCase c) = false.
Proof.
  unfold is_alpha, toUpperCase, is_lower, is_upper.
  destruct (97 <=? c) eqn:A, (c <=? 122) eqn:B, (65 <=? c) eqn:C,
    (c <=? 90) eqn:D; simpl; try discriminate; intros _;
    rewrite ?N.leb_le, ?N.leb_gt in *; try lia;
    rewrite ?A, ?B, ?C, ?D; simpl;
    repeat match goal with
    | |- context [?a <=? ?b] =>
        let E := fresh in destruct (a <=? b) eqn:E;
        rewrite ?N.leb_le, ?N.leb_gt in E; try lia
    end; simpl; auto.
Qed.

Lemma replace_words_capitalized (s : jsstring) :
  capitalized (replace_words false s) = true.
Proof.
  induction s as [|c s IH]; [reflexivity|].
  simpl. destruct (is_alpha c) eqn:E; simpl.
  - destruct (toUpperCase_upper c E) as [-> ->]; reflexivity.
  - rewrite E; exact IH.
Qed.

Lemma toTitleCase_capitalized (s : jsstring) :
  capitalized (toTitleCase s) = true.
Proof. apply replace_words_capitalized. Qed.

Lemma inherited_not_capitalized (k : jsstring) :
  inherited k = true -> capitalized k = false.
Proof.
  unfold inherited. rewrite existsb_str_eqb.
  assert (H : Forall (fun k => capitalized k = false) object_prototype_keys)
    by (repeat constructor).
  rewrite Forall_forall in H. apply H.
Qed.

(** Nothing is inherited from [Object.prototype] under a title. *)
Lemma toTitleCase_not_inherited (s : jsstring) :
  inherited (toTitleCase s) = false.
Proof.
  destruct (inherited (toTitleCase s)) eqn:E; [|reflexivity].
  apply inherited_not_capitalized in E.
  rewrite toTitleCase_capitalized in E; discriminate.
Qed.

(** Nor under "undefined", which is no title either. *)
Lemma undefined_not_inherited : inherited (js "undefined") = false.
Proof. reflexivity. Qed.

Lemma toTitleCase_not_undefined (s : jsstring) :
  toTitleCase s <> js "undefined".
Proof.
  intros E. pose proof (toTitleCase_capitalized s) as H.
  rewrite E in H; discriminate.
Qed.

(** ** Decoding *)

Lemma fields_nonempty (c : N) (s : jsstring) : fields c s <> [].
Proof.
  destruct s as [|x s]; simpl; [discriminate|].
  destruct (x =? c); [discriminate|].
  destruct (fields c s); discriminate.
Qed.

Lemma split_from_fields (c : N) (s cur : jsstring) :
  split_from [c] 0 cur s
  = (rev cur ++ hd [] (fields c s)) :: tl (fields c s).
Proof.
  revert cur; induction s as [|x s IH]; intros cur.
  - simpl. rewrite app_nil_r; reflexivity.
  - cbn [split_from startsWith fields]. rewrite andb_true_r, (N.eqb_sym c x).
    destruct (x =? c).
    + simpl length. simpl Nat.sub. rewrite IH. simpl. rewrite app_nil_r.
      pose proof (fields_nonempty c s).
      destruct (fields c s); [congruence | reflexivity].
    + rewrite IH. pose proof (fields_nonempty c s).
      destruct (fields c s) as [|f fs]; [congruence|].
      simpl. rewrite <- app_assoc; reflexivity.
Qed.

(** Splitting on a one-unit separator gives the fields. *)
Lemma split_fields (c : N) (s : jsstring) : split [c] s = fields c s.
Proof.
  unfold split. rewrite split_from_fields. simpl.
  pose proof (fields_nonempty c s).
  destruct (fields c s); [congruence | reflexivity].
Qed.

Lemma fields_without (c : N) (s : jsstring) :
  existsb (N.eqb c) s = false -> fields c s = [s].
Proof.
  induction s as [|x s IH]; simpl; [reflexivity|].
  rewrite orb_false_iff, (N.eqb_sym c x). intros [-> H].
  rewrite (IH H); reflexivity.
Qed.

Lemma fields_with (c : N) (s : jsstring) :
  existsb (N.eqb c) s = true -> exists f g gs, fields c s = f :: g :: gs.
Proof.
  induction s as [|x s IH]; simpl; [discriminate|].
  rewrite (N.eqb_sym c x). pose proof (fields_nonempty c s) as Hne.
  destruct (x =? c); simpl.
  - intros _. destruct (fields c s) as [|g gs]; [congruence|]; eauto.
  - intros H. destruct (IH H) as [f [g [gs ->]]]; eauto.
Qed.

Lemma after_last_without (c : N) (s : jsstring) :
  existsb (N.eqb c) s = false -> after_last c s = s.
Proof.
  destruct s as [|x s]; simpl; [reflexivity|].
  rewrite orb_false_iff, (N.eqb_sym c x). intros [-> ->]; reflexivity.
Qed.

Lemma getLast_cons {A} (x y : A) (l : list A) :
  getLast (x :: y :: l) = getLast (y :: l).
Proof. unfold getLast. simpl. rewrite Nat.sub_0_r. reflexivity. Qed.

(** The last field is what follows the last separator. *)
Lemma getLast_fields (c : N) (s : jsstring) :
  getLast (fields c s) = Some (after_last c s).
Proof.
  induction s as [|x s IH]; [reflexivity|].
  simpl. destruct (existsb (N.eqb c) s) eqn:E.
  - destruct (fields_with c s E) as [f [g [gs Hf]]]. rewrite Hf in *.
    destruct (x =? c); rewrite !getLast_cons; rewrite getLast_cons in IH;
      exact IH.
  - rewrite (fields_without c s E). destruct (x =? c); reflexivity.
Qed.

Lemma after_last_app (c : N) (p s : jsstring) :
  existsb (N.eqb c) s = false -> after_last c (p ++ c :: s) = s.
Proof.
  intros H. induction p as [|x p IH]; simpl.
  - rewrite H, N.eqb_refl; reflexivity.
  - rewrite existsb_app. simpl. rewrite N.eqb_refl, orb_true_r. exact IH.
Qed.

Lemma split_from_before_first (sep s cur : jsstring) :
  hd_error (split_from sep 0 cur s) = Some (rev cur ++ before_first sep s).
Proof.
  revert cur; induction s as [|x s IH]; intros cur.
  - simpl. rewrite app_nil_r; reflexivity.
  - cbn [split_from before_first]. destruct (startsWith sep (x :: s)).
    + simpl. rewrite app_nil_r; reflexivity.
    + rewrite IH. simpl. rewrite <- app_assoc; reflexivity.
Qed.

(** The first piece of a split is what precedes the first separator. *)
Lemma split_first (sep s : jsstring) :
  sep <> [] -> nth_error (split sep s) 0 = Some (before_first sep s).
Proof.
  intros H. destruct sep as [|c sep]; [congruence|].
  unfold split.
  pose proof (split_from_before_first (c :: sep) s []) as E.
  destruct (split_from (c :: sep) 0 [] s); simpl in *; [discriminate | exact E].
Qed.

Lemma file_stem_stem_of (url : jsstring) : file_stem url = Ok (stem_of url).
Proof.
  unfold file_stem, stem_of.
  change (js "/") with [47]. rewrite split_fields, getLast_fields.
  rewrite split_first by discriminate. reflexivity.
Qed.

Lemma hex_digit_bounds (c d : N) :
  hex_digit c = Some d ->
  (48 <= c <= 57 \/ 65 <= c <= 70 \/ 97 <= c <= 102) /\ d < 16.
Proof.
  unfold hex_digit.
  destruct (48 <=? c) eqn:A, (c <=? 57) eqn:B, (97 <=? c) eqn:C,
    (c <=? 102) eqn:D, (65 <=? c) eqn:E, (c <=? 70) eqn:F; simpl;
    intros [= <-]; rewrite ?N.leb_le, ?N.leb_gt in *; lia.
Qed.

Lemma hex_digit_not_space (c d : N) :
  hex_digit c = Some d -> is_space c = false.
Proof.
  intros H. apply hex_digit_bounds in H as [H _]. unfold is_space.
  repeat match goal with
  | |- context [?a <=? ?b] =>
      let E := fresh in destruct (a <=? b) eqn:E;
      rewrite ?N.leb_le, ?N.leb_gt in E; try lia
  | |- context [?a =? ?b] =>
      let E := fresh in destruct (a =? b) eqn:E;
      rewrite ?N.eqb_eq, ?N.eqb_neq in E; try lia
  end; reflexivity.
Qed.

Lemma hex_prefix_digits (s : jsstring) (acc n : N) :
  hex_digits acc s = Some n -> hex_prefix (Some acc) s = Some n.
Proof.
  revert acc; induction s as [|c s IH]; intros acc; simpl.
  - auto.
  - destruct (hex_digit c); [apply IH | discriminate].
Qed.

(** On a text of hexadecimal digits [parseInt] reads the whole text. *)
Lemma parseInt16_hex (c : N) (s : jsstring) (n : N) :
  hex_digits 0 (c :: s) = Some n -> parseInt16 (c :: s) = Some (Z.of_N n).
Proof.
  intros H. unfold parseInt16.
  assert (Hc : exists d, hex_digit c = Some d).
  { simpl in H. destruct (hex_digit c); [eauto | discriminate]. }
  destruct Hc as [d Hd].
  cbn [dropWhile]. rewrite (hex_digit_not_space c d Hd).
  pose proof (hex_digit_bounds c d Hd) as [Hb _].
  destruct (c =? 45) eqn:E1; [apply N.eqb_eq in E1; lia|].
  destruct (c =? 43) eqn:E2; [apply N.eqb_eq in E2; lia|].
  assert (Hx : startsWith (js "0x") (c :: s) || startsWith (js "0X") (c :: s)
               = false).
  { cbn [js list_ascii_of_string map startsWith].
    destruct s as [|e s]; [rewrite !andb_false_r; reflexivity|].
    simpl in H. rewrite Hd in H. simpl in H.
    destruct (hex_digit e) as [d'|] eqn:He; [|discriminate].
    pose proof (hex_digit_bounds e d' He) as [He' _].
    change (N_of_ascii "x") with 120. change (N_of_ascii "X") with 88.
    destruct (120 =? e) eqn:E3; [apply N.eqb_eq in E3; lia|].
    destruct (88 =? e) eqn:E4; [apply N.eqb_eq in E4; lia|].
    rewrite !andb_false_r; reflexivity. }
  rewrite Hx. simpl in H |- *. rewrite Hd in *. simpl in H |- *.
  rewrite (hex_prefix_digits _ _ _ H). reflexivity.
Qed.

Lemma fromCodePoint_code_point (text : jsstring) (n : N) :
  code_point text = Some n -> fromCodePoint (parseInt16 text) = Ok (utf16 n).
Proof.
  unfold code_point. destruct text as [|c s]; [discriminate|].
  destruct (hex_digits 0 (c :: s)) as [m|] eqn:H; [|discriminate].
  destruct (m <=? 1114111) eqn:B; [|discriminate]. intros [= <-].
  rewrite (parseInt16_hex _ _ _ H). unfold fromCodePoint.
  apply N.leb_le in B.
  replace ((0 <=? Z.of_N m)%Z && (Z.of_N m <=? 1114111)%Z) with true.
  - rewrite N2Z.id; reflexivity.
  - symmetry; apply andb_true_iff; split; apply Z.leb_le; lia.
Qed.

Lemma mapM_code_points (texts : list jsstring) (cps : list N) :
  all_some (map code_point texts) = Some cps ->
  mapM (fun t => fromCodePoint (parseInt16 t)) texts = Ok (map utf16 cps).
Proof.
  revert cps; induction texts as [|t texts IH]; intros cps; simpl.
  - intros [= <-]; reflexivity.
  - destruct (code_point t) as [n|] eqn:E; [|discriminate].
    destruct (all_some (map code_point texts)) as [ns|]; [|discriminate].
    intros [= <-]. rewrite (fromCodePoint_code_point _ _ E). simpl.
    rewrite (IH ns eq_refl). reflexivity.
Qed.

Lemma join_nil (a : list jsstring) : join [] a = concat a.
Proof.
  induction a as [|x a IH]; [reflexivity|].
  simpl. destruct a; [rewrite app_nil_r; reflexivity|].
  rewrite IH; reflexivity.
Qed.

Lemma decode_of_name (locator : jsstring) (lit : literal) :
  decode_by_name locator = Some lit -> decode locator = Ok lit.
Proof.
  unfold decode_by_name, decode. rewrite file_stem_stem_of.
  destruct (includes (js "/unicode/") locator).
  - destruct (all_some _) as [cps|] eqn:E; [|discriminate]. intros [= <-].
    cbn [bind]. change (js "-") with [45]. rewrite split_fields.
    rewrite (mapM_code_points _ _ E). cbn [bind].
    rewrite join_nil, flat_map_concat_map. reflexivity.
  - intros [= <-]. reflexivity.
Qed.

Lemma decode_by_name_unicode (p file : jsstring) :
  existsb (N.eqb 47) file = false ->
  decode_by_name (p ++ js "/unicode/" ++ file)
  = match all_some (map code_point (fields 45 (before_first (js ".png") file))) with
    | Some cps => Some (Literal (flat_map utf16 cps))
    | None => None
    end.
Proof.
  intros H. unfold decode_by_name, stem_of.
  rewrite includes_app_l by apply includes_prefix.
  replace (p ++ js "/unicode/" ++ file)
    with ((p ++ js "/unicode") ++ 47 :: file)
    by (rewrite <- app_assoc; reflexivity).
  rewrite after_last_app by exact H. reflexivity.
Qed.

(** C8: a locator with the "/unicode/" segment decodes to the code points
    its file name writes, in the order of the file name: the name is what
    follows the last "/", cut before ".png" and at every "-", and each text
    of hexadecimal digits gives its code point; ".../unicode/1f600.png" is
    U+1F600 and ".../unicode/1f1fa-1f1f8.png" is U+1F1FA U+1F1F8. A locator
    without the segment is a PlatformRef of the file name cut before
    ".png". *)
Theorem decode_by_file_name :
  (forall locator lit,
     decode_by_name locator = Some lit -> decode locator = Ok lit)
  /\ (forall p, decode (p ++ js "/unicode/1f600.png")
                = Ok (Literal (utf16 128512)))
  /\ (forall p, decode (p ++ js "/unicode/1f1fa-1f1f8.png")
                = Ok (Literal (utf16 127482 ++ utf16 127480)))
  /\ (forall locator,
        includes (js "/unicode/") locator = false ->
        decode locator = Ok (PlatformRef (stem_of locator))).
Proof.
  repeat split.
  - exact decode_of_name.
  - intros p. apply decode_of_name.
    apply (decode_by_name_unicode p (js "1f600.png")). reflexivity.
  - intros p. apply decode_of_name.
    apply (decode_by_name_unicode p (js "1f1fa-1f1f8.png")). reflexivity.
  - intros locator H. unfold decode. rewrite H, file_stem_stem_of. reflexivity.
Qed.

Lemma decode_by_file_name_witness :
  decode (js "https://github.githubassets.com/images/icons/emoji/unicode/1f44d.png?v8")
  = Ok (Literal (utf16 128077))
  /\ decode (js "https://github.githubassets.com/images/icons/emoji/octocat.png?v8")
     = Ok (PlatformRef (js "octocat")).
Proof.
  split.
  - apply (proj1 decode_by_file_name). vm_compute. reflexivity.
  - rewrite (proj2 (proj2 (proj2 decode_by_file_name)));
      vm_compute; reflexivity.
Defined.

(** ** Objects *)

Section ObjectFacts.
Context {V : Type}.
Implicit Types (o : obj V) (k : jsstring) (v : V).

Lemma obj_get_None k o : obj_get k o = None <-> ~ In k (obj_keys o).
Proof.
  induction o as [|[k' v'] o IH]; simpl; [tauto|].
  destruct (str_eqb k' k) eqn:E.
  - apply str_eqb_eq in E. split; [discriminate | intros H; tauto].
  - apply str_eqb_neq in E. rewrite IH. tauto.
Qed.

Lemma obj_get_In k v o : obj_get k o = Some v -> In (k, v) o.
Proof.
  induction o as [|[k' v'] o IH]; simpl; [discriminate|].
  destruct (str_eqb k' k) eqn:E.
  - apply str_eqb_eq in E. intros [= ->]. left; congruence.
  - auto.
Qed.

Lemma obj_get_key k v o : obj_get k o = Some v -> In k (obj_keys o).
Proof.
  intros H. apply obj_get_In in H. apply (in_map fst) in H. exact H.
Qed.

Lemma In_obj_get k v o :
  NoDup (obj_keys o) -> In (k, v) o -> obj_get k o = Some v.
Proof.
  induction o as [|[k' v'] o IH]; simpl; [tauto|].
  intros Hnd [E|H].
  - inversion E; subst. rewrite str_eqb_refl; reflexivity.
  - inversion Hnd as [|? ? Hk Hnd']; subst.
    destruct (str_eqb k' k) eqn:E.
    + apply str_eqb_eq in E; subst. exfalso; apply Hk.
      apply (in_map fst) in H; exact H.
    + auto.
Qed.

Lemma obj_has_true k o : obj_has k o = true <-> In k (obj_keys o).
Proof.
  unfold obj_has. pose proof (obj_get_None k o) as H.
  destruct (obj_get k o) eqn:E.
  - split; [intros _; eapply obj_get_key; eauto | reflexivity].
  - split; [discriminate | intros Hin; exfalso; apply H; auto].
Qed.

Lemma obj_get_app k o1 o2 :
  obj_get k (o1 ++ o2)
  = match obj_get k o1 with Some v => Some v | None => obj_get k o2 end.
Proof.
  induction o1 as [|[k' v'] o1 IH]; simpl; [reflexivity|].
  destruct (str_eqb k' k); [reflexivity | exact IH].
Qed.

(** The first property of key [k] is where [o[k] = v] writes. *)
Lemma obj_get_split k v o :
  obj_get k o = Some v ->
  exists o1 o2, o = o1 ++ (k, v) :: o2 /\ ~ In k (obj_keys o1).
Proof.
  induction o as [|[k' v'] o IH]; simpl; [discriminate|].
  destruct (str_eqb k' k) eqn:E.
  - apply str_eqb_eq in E; subst. intros [= ->].
    exists [], o; split; [reflexivity | simpl; tauto].
  - intros H. destruct (IH H) as [o1 [o2 [-> Hn]]].
    exists ((k', v') :: o1), o2; split; [reflexivity|].
    apply str_eqb_neq in E. simpl; tauto.
Qed.

Lemma obj_replace_split k v v0 o1 o2 :
  ~ In k (obj_keys o1) ->
  obj_replace k v (o1 ++ (k, v0) :: o2) = o1 ++ (k, v) :: o2.
Proof.
  induction o1 as [|[k' v'] o1 IH]; simpl; intros H.
  - rewrite str_eqb_refl; reflexivity.
  - destruct (str_eqb k' k) eqn:E.
    + apply str_eqb_eq in E; tauto.
    + rewrite IH by tauto; reflexivity.
Qed.

Lemma obj_insert_index_split n k v o :
  exists o1 o2, o = o1 ++ o2 /\ obj_insert_index n k v o = o1 ++ (k, v) :: o2.
Proof.
  induction o as [|[k' v'] o IH]; simpl.
  - exists [], []; auto.
  - destruct (array_index k') as [m|].
    + destruct (m <? n).
      * destruct IH as [o1 [o2 [-> ->]]].
        exists ((k', v') :: o1), o2; auto.
      * exists [], ((k', v') :: o); auto.
    + exists [], ((k', v') :: o); auto.
Qed.

(** A new property comes to stand somewhere among the others. *)
Lemma obj_set_new k v o :
  obj_get k o = None ->
  exists o1 o2, o = o1 ++ o2 /\ obj_set k v o = o1 ++ (k, v) :: o2.
Proof.
  intros H. unfold obj_set, obj_has. rewrite H.
  destruct (array_index k) as [n|].
  - apply obj_insert_index_split.
  - exists o, []; rewrite app_nil_r; auto.
Qed.

(** An old property keeps its place. *)
Lemma obj_set_old k v v0 o :
  obj_get k o = Some v0 ->
  exists o1 o2,
    o = o1 ++ (k, v0) :: o2 /\ ~ In k (obj_keys o1)
    /\ obj_set k v o = o1 ++ (k, v) :: o2.
Proof.
  intros H. unfold obj_set, obj_has. rewrite H.
  destruct (obj_get_split _ _ _ H) as [o1 [o2 [-> Hn]]].
  exists o1, o2; repeat split; auto.
  apply obj_replace_split; exact Hn.
Qed.

Lemma obj_get_middle k k' v o1 o2 :
  ~ In k (obj_keys o1) ->
  obj_get k' (o1 ++ (k, v) :: o2)
  = if str_eqb k k' then Some v else obj_get k' (o1 ++ o2).
Proof.
  intros Hn. rewrite !obj_get_app. simpl.
  destruct (str_eqb k k') eqn:E.
  - apply str_eqb_eq in E; subst.
    apply obj_get_None in Hn. rewrite Hn; reflexivity.
  - reflexivity.
Qed.

Lemma obj_get_set k k' v o :
  obj_get k' (obj_set k v o)
  = if str_eqb k k' then Some v else obj_get k' o.
Proof.
  destruct (obj_get k o) as [v0|] eqn:H.
  - destruct (obj_set_old k v v0 o H) as [o1 [o2 [-> [Hn ->]]]].
    rewrite !obj_get_app. simpl.
    destruct (str_eqb k k') eqn:E; [|reflexivity].
    apply str_eqb_eq in E; subst.
    apply obj_get_None in Hn; rewrite Hn; reflexivity.
  - destruct (obj_set_new k v o H) as [o1 [o2 [-> ->]]].
    rewrite !obj_get_app. simpl.
    destruct (str_eqb k k') eqn:E; [|reflexivity].
    apply str_eqb_eq in E; subst.
    rewrite obj_get_app in H.
    destruct (obj_get k' o1); [discriminate | reflexivity].
Qed.

Lemma obj_get_set_same k v o : obj_get k (obj_set k v o) = Some v.
Proof. rewrite obj_get_set, str_eqb_refl; reflexivity. Qed.

Lemma obj_get_set_other k k' v o :
  k <> k' -> obj_get k' (obj_set k v o) = obj_get k' o.
Proof.
  intros H. rewrite obj_get_set. apply str_eqb_neq in H; rewrite H.
  reflexivity.
Qed.

Lemma obj_keys_set k v o :
  forall k', In k' (obj_keys (obj_set k v o)) <-> k' = k \/ In k' (obj_keys o).
Proof.
  intros k'. rewrite <- !obj_has_true. unfold obj_has.
  rewrite obj_get_set. destruct (str_eqb k k') eqn:E.
  - apply str_eqb_eq in E; subst. tauto.
  - apply str_eqb_neq in E. split; [tauto | intros [?|?]; congruence].
Qed.

Lemma obj_keys_set_old k v v0 o :
  obj_get k o = Some v0 -> obj_keys (obj_set k v o) = obj_keys o.
Proof.
  intros H. destruct (obj_set_old k v v0 o H) as [o1 [o2 [-> [_ ->]]]].
  unfold obj_keys. rewrite !map_app. reflexivity.
Qed.

Lemma obj_set_NoDup k v o :
  NoDup (obj_keys o) -> NoDup (obj_keys (obj_set k v o)).
Proof.
  intros Hnd. destruct (obj_get k o) as [v0|] eqn:H.
  - rewrite (obj_keys_set_old k v v0 o H); exact Hnd.
  - destruct (obj_set_new k v o H) as [o1 [o2 [-> ->]]].
    unfold obj_keys in *. rewrite map_app in *. simpl.
    apply (NoDup_Add (a := k) (l := map fst o1 ++ map fst o2)).
    + apply Add_app.
    + split; [exact Hnd | clear Hnd].
      apply obj_get_None in H. unfold obj_keys in H.
      rewrite map_app in H. exact H.
Qed.

Lemma obj_set_In k v o e :
  In e (obj_set k v o) -> e = (k, v) \/ In e o.
Proof.
  destruct (obj_get k o) as [v0|] eqn:H.
  - destruct (obj_set_old k v v0 o H) as [o1 [o2 [-> [_ ->]]]].
    rewrite !in_app_iff. simpl. intuition auto.
  - destruct (obj_set_new k v o H) as [o1 [o2 [-> ->]]].
    rewrite !in_app_iff. simpl. intuition auto.
Qed.

Lemma obj_delete_In k o e :
  In e (obj_delete k o) <-> In e o /\ fst e <> k.
Proof.
  unfold obj_delete. rewrite filter_In, negb_true_iff, str_eqb_neq. tauto.
Qed.

Lemma obj_keys_delete k o k' :
  In k' (obj_keys (obj_delete k o)) <-> In k' (obj_keys o) /\ k' <> k.
Proof.
  unfold obj_keys. rewrite !in_map_iff. split.
  - intros [e [<- H]]. apply obj_delete_In in H as [H1 H2].
    split; [exists e; auto | exact H2].
  - intros [[e [<- H]] Hn]. exists e; split; [reflexivity|].
    apply obj_delete_In; auto.
Qed.

Lemma obj_delete_NoDup k o :
  NoDup (obj_keys o) -> NoDup (obj_keys (obj_delete k o)).
Proof.
  unfold obj_keys, obj_delete. induction o as [|[k' v'] o IH]; simpl.
  - auto.
  - intros H; inversion H as [|? ? Hk Hnd]; subst.
    destruct (negb (str_eqb k' k)); simpl; [|auto].
    constructor; [|auto].
    intros Hin. apply Hk. apply in_map_iff in Hin as [e [<- He]].
    apply filter_In in He as [He _]. apply in_map; exact He.
Qed.

Lemma obj_delete_absent k o :
  ~ In k (obj_keys o) -> obj_delete k o = o.
Proof.
  unfold obj_delete, obj_keys. induction o as [|[k' v'] o IH]; simpl.
  - reflexivity.
  - intros H. destruct (str_eqb k' k) eqn:E.
    + apply str_eqb_eq in E; tauto.
    + simpl. rewrite IH by tauto; reflexivity.
Qed.

Lemma obj_delete_app k o1 o2 :
  obj_delete k (o1 ++ o2) = obj_delete k o1 ++ obj_delete k o2.
Proof. unfold obj_delete. apply filter_app. Qed.

Lemma obj_delete_middle k v o1 o2 :
  ~ In k (obj_keys o1) -> ~ In k (obj_keys o2) ->
  obj_delete k (o1 ++ (k, v) :: o2) = o1 ++ o2.
Proof.
  intros H1 H2. rewrite obj_delete_app.
  rewrite (obj_delete_absent k o1 H1).
  unfold obj_delete at 1. simpl. rewrite str_eqb_refl. simpl.
  fold (obj_delete k o2). rewrite (obj_delete_absent k o2 H2). reflexivity.
Qed.

(** What an object holds, summed over its properties. *)
Lemma flat_map_set_new {B} (f : jsstring * V -> list B) k v o :
  obj_get k o = None ->
  Permutation (flat_map f (obj_set k v o)) (f (k, v) ++ flat_map f o).
Proof.
  intros H. destruct (obj_set_new k v o H) as [o1 [o2 [-> ->]]].
  rewrite !flat_map_app.
  change (flat_map f ((k, v) :: o2)) with (f (k, v) ++ flat_map f o2).
  apply Permutation_app_swap_app.
Qed.

Lemma flat_map_set_old {B} (f : jsstring * V -> list B) k v v0 o :
  obj_get k o = Some v0 ->
  Permutation (f (k, v0) ++ flat_map f (obj_set k v o))
              (f (k, v) ++ flat_map f o).
Proof.
  intros H. destruct (obj_set_old k v v0 o H) as [o1 [o2 [-> [_ ->]]]].
  rewrite !flat_map_app.
  change (flat_map f ((k, v) :: o2)) with (f (k, v) ++ flat_map f o2).
  change (flat_map f ((k, v0) :: o2)) with (f (k, v0) ++ flat_map f o2).
  transitivity (f (k, v0) ++ f (k, v) ++ flat_map f o1 ++ flat_map f o2).
  - apply Permutation_app_head. apply Permutation_app_swap_app.
  - etransitivity; [apply Permutation_app_swap_app|].
    apply Permutation_app_head. apply Permutation_app_swap_app.
Qed.
End ObjectFacts.

(** ** Loops *)

Lemma for_of_app {S A} (body : S -> A -> result S) (xs ys : list A) (st : S) :
  for_of body (xs ++ ys) st = (st' <- for_of body xs st ;; for_of body ys st').
Proof.
  revert st; induction xs as [|x xs IH]; intros st; simpl; [reflexivity|].
  destruct (body st x); simpl; [apply IH | reflexivity].
Qed.

(** What every run of the body keeps holds after the loop. *)
Lemma for_of_invariant {S A} (P : S -> Prop) (body : S -> A -> result S)
  (xs : list A) :
  (forall s x s', In x xs -> P s -> body s x = Ok s' -> P s') ->
  forall st st', P st -> for_of body xs st = Ok st' -> P st'.
Proof.
  induction xs as [|x xs IH]; intros Hstep st st' HP; simpl.
  - intros [= <-]; exact HP.
  - destruct (body st x) as [s1|] eqn:E; simpl; [|discriminate].
    apply IH.
    + intros s y s' Hy; apply Hstep; right; exact Hy.
    + apply (Hstep st x s1); [left; reflexivity | exact HP | exact E].
Qed.

(** The loop throws what its body throws. *)
Lemma for_of_error {S A} (Q : error -> Prop) (body : S -> A -> result S)
  (xs : list A) :
  (forall s x e, body s x = Err e -> Q e) ->
  forall st e, for_of body xs st = Err e -> Q e.
Proof.
  intros Hb. induction xs as [|x xs IH]; intros st e; simpl; [discriminate|].
  destruct (body st x) as [s1|e1] eqn:E; simpl.
  - apply IH.
  - intros [= <-]. eapply Hb; eauto.
Qed.

Lemma mapM_Forall2 {A B} (f : A -> result B) (l : list A) (l' : list B) :
  mapM f l = Ok l' -> Forall2 (fun x y => f x = Ok y) l l'.
Proof.
  revert l'; induction l as [|x l IH]; intros l'; simpl.
  - intros [= <-]; constructor.
  - destruct (f x) as [y|] eqn:E; simpl; [|discriminate].
    destruct (mapM f l) as [ys|]; simpl; [|discriminate].
    intros [= <-]. constructor; auto.
Qed.

(** ** The identifier map *)

Lemma js_ordered_snoc (ks : list jsstring) (k : jsstring) :
  js_ordered (ks ++ [k]) = true ->
  js_ordered ks = true /\ ~ In k ks
  /\ forall k', In k' ks ->
       match array_index k with
       | Some n => exists m, array_index k' = Some m /\ m < n
       | None => True
       end.
Proof.
  induction ks as [|k0 ks IH]; simpl.
  - intros _. repeat split; tauto.
  - intros H. simpl in H.
    apply andb_true_iff in H as [H H5]. apply andb_true_iff in H as [H1 H3].
    rewrite negb_true_iff, existsb_app, orb_false_iff in H1.
    destruct H1 as [H1 H2].
    rewrite forallb_app, andb_true_iff in H3. destruct H3 as [H3 H4].
    simpl in H2, H4. rewrite orb_false_r in H2. rewrite andb_true_r in H4.
    destruct (IH H5) as [IH1 [IH2 IH3]].
    repeat split.
    + simpl. rewrite H1, H3, IH1; reflexivity.
    + simpl. intros [E|Hin]; [|tauto]. subst. rewrite str_eqb_refl in H2.
      discriminate.
    + intros k' [<-|Hin]; [|apply IH3; exact Hin].
      destruct (array_index k0) as [n0|], (array_index k) as [n|]; auto;
        try discriminate.
      exists n0; split; [reflexivity | apply N.ltb_lt; exact H4].
Qed.

Lemma js_ordered_NoDup (ks : list jsstring) :
  js_ordered ks = true -> NoDup ks.
Proof.
  induction ks as [|k ks IH]; simpl; [constructor|].
  rewrite !andb_true_iff, negb_true_iff. intros [[H1 _] H2].
  constructor; [apply not_existsb_str_eqb; exact H1 | auto].
Qed.

Lemma obj_insert_index_last {V} (n : N) (k : jsstring) (v : V) (o : obj V) :
  (forall k', In k' (obj_keys o) -> exists m, array_index k' = Some m /\ m < n) ->
  obj_insert_index n k v o = o ++ [(k, v)].
Proof.
  induction o as [|[k' v'] o IH]; simpl; intros H; [reflexivity|].
  destruct (H k' (or_introl eq_refl)) as [m [-> Hm]].
  apply N.ltb_lt in Hm; rewrite Hm.
  rewrite IH; [reflexivity | intros; apply H; right; assumption].
Qed.

(** An object is made again of its entries as it was. *)
Lemma fromEntries_wf {V} (entries : obj V) :
  obj_wf entries = true -> fromEntries entries = entries.
Proof.
  unfold fromEntries, obj_wf.
  induction entries as [|[k v] entries IH] using rev_ind; [reflexivity|].
  unfold obj_keys. rewrite map_app. simpl. intros H.
  apply js_ordered_snoc in H as [H1 [H2 H3]].
  rewrite fold_left_app. simpl. rewrite (IH H1).
  unfold obj_set. unfold obj_has.
  apply obj_get_None in H2. rewrite H2.
  destruct (array_index k) as [n|]; [|reflexivity].
  apply obj_insert_index_last. exact H3.
Qed.

Lemma Forall2_keys {V W} (R : V -> W -> Prop) (o : obj V) (o' : obj W) :
  Forall2 (fun a b => fst a = fst b /\ R (snd a) (snd b)) o o' ->
  obj_keys o' = obj_keys o.
Proof.
  induction 1 as [|[k v] [k' v'] o o' [E _] _ IH]; simpl in *; [reflexivity|].
  rewrite IH, E; reflexivity.
Qed.

(** The identifier map has the identifiers of the response, in its order,
    each with what its locator decodes to. *)
Lemma getGithubEmojiIdMap_entries (json : obj jsstring) (idMap : obj literal) :
  obj_wf json = true ->
  getGithubEmojiIdMap json = Ok idMap ->
  Forall2 (fun a b => fst a = fst b /\ decode (snd a) = Ok (snd b)) json idMap.
Proof.
  unfold getGithubEmojiIdMap. intros Hwf.
  destruct (mapM _ json) as [entries|] eqn:E; simpl; [|discriminate].
  intros [= <-]. apply mapM_Forall2 in E.
  assert (F : Forall2 (fun a b => fst a = fst b /\ decode (snd a) = Ok (snd b))
                      json entries).
  { clear Hwf. induction E as [|[k u] [k' l] js es H _ IH]; constructor; auto.
    simpl in *. destruct (decode u); simpl in H; [|discriminate].
    inversion H; subst; auto. }
  rewrite fromEntries_wf; [exact F|].
  unfold obj_wf in *.
  rewrite (Forall2_keys (fun u l => decode u = Ok l) _ _ F). exact Hwf.
Qed.

Lemma ids_with_Forall2 {V W} (sel : V -> option jsstring)
  (sel' : W -> option jsstring) (o : obj V) (o' : obj W) (k : jsstring) :
  Forall2 (fun a b => fst a = fst b /\ sel (snd a) = sel' (snd b)) o o' ->
  ids_with sel k o = ids_with sel' k o'.
Proof.
  unfold ids_with.
  induction 1 as [|[i v] [i' v'] o o' [E1 E2] _ IH]; simpl in *; [reflexivity|].
  rewrite E2. destruct (opt_is (sel' v') k); simpl; rewrite IH; congruence.
Qed.

Lemma keys_by_Forall2 {V W} (sel : V -> option jsstring)
  (sel' : W -> option jsstring) (o : obj V) (o' : obj W) :
  Forall2 (fun a b => fst a = fst b /\ sel (snd a) = sel' (snd b)) o o' ->
  keys_by sel o = keys_by sel' o'.
Proof.
  unfold keys_by.
  induction 1 as [|[i v] [i' v'] o o' [E1 E2] _ IH]; simpl in *; [reflexivity|].
  rewrite E2, IH; reflexivity.
Qed.

Lemma decoded_selectors (json : obj jsstring) (idMap : obj literal) :
  Forall2 (fun a b => fst a = fst b /\ decode (snd a) = Ok (snd b)) json idMap ->
  Forall2 (fun a b => fst a = fst b /\ literal_of (snd a) = lit_key (snd b))
          json idMap
  /\ Forall2 (fun a b => fst a = fst b /\ uri_of (snd a) = uri_key (snd b))
             json idMap.
Proof.
  induction 1 as [|[i u] [i' l] o o' [E1 E2] _ [IH1 IH2]]; simpl in *.
  - split; constructor.
  - split; constructor; auto; simpl; split; auto;
      unfold literal_of, uri_of; rewrite E2; destruct l; reflexivity.
Qed.

(** ** The two partitions *)

Lemma ids_with_snoc {V} (sel : V -> option jsstring) (k id : jsstring) (v : V)
  (o : obj V) :
  ids_with sel k (o ++ [(id, v)])
  = ids_with sel k o ++ (if opt_is (sel v) k then [id] else []).
Proof.
  unfold ids_with. rewrite filter_app, map_app. simpl.
  destruct (opt_is (sel v) k); reflexivity.
Qed.

Lemma keys_by_snoc {V} (sel : V -> option jsstring) (id : jsstring) (v : V)
  (o : obj V) :
  keys_by sel (o ++ [(id, v)])
  = keys_by sel o ++ match sel v with Some k => [k] | None => [] end.
Proof.
  unfold keys_by. rewrite flat_map_app. simpl. rewrite app_nil_r. reflexivity.
Qed.

Lemma nonempty_list_snoc {A} (l : list A) (x : A) :
  nonempty_list (l ++ [x]) = Some (l ++ [x]).
Proof. destruct l; reflexivity. Qed.

Lemma groups_by_skip {V} (sel : V -> option jsstring) (o : obj V)
  (m : obj (list jsstring)) (id : jsstring) (v : V) :
  sel v = None -> groups_by sel o m -> groups_by sel (o ++ [(id, v)]) m.
Proof.
  intros E H k. rewrite ids_with_snoc, E. simpl. rewrite app_nil_r. apply H.
Qed.

(** Pushing an identifier under its key keeps the grouping. *)
Lemma push_id_groups {V} (sel : V -> option jsstring) (o : obj V)
  (m m' : obj (list jsstring)) (k id : jsstring) (v : V) :
  sel v = Some k -> groups_by sel o m -> push_id k id m = Ok m' ->
  groups_by sel (o ++ [(id, v)]) m'.
Proof.
  intros E H Hp k'. rewrite ids_with_snoc, E. simpl.
  unfold push_id, obj_lookup in Hp.
  destruct (obj_get k m) as [ids|] eqn:G.
  - rewrite G in Hp. injection Hp as <-. rewrite obj_get_set.
    destruct (str_eqb k k') eqn:Ek.
    + apply str_eqb_eq in Ek; subst k'.
      rewrite H in G. destruct (ids_with sel k o) eqn:Ei; [discriminate|].
      injection G as <-. reflexivity.
    + rewrite app_nil_r. apply H.
  - destruct (inherited k).
    + rewrite G in Hp; discriminate.
    + rewrite obj_get_set_same in Hp. injection Hp as <-.
      rewrite !obj_get_set.
      destruct (str_eqb k k') eqn:Ek.
      * apply str_eqb_eq in Ek; subst k'.
        rewrite H in G. destruct (ids_with sel k o); [reflexivity | discriminate].
      * rewrite app_nil_r. apply H.
Qed.

Lemma push_id_keys (m m' : obj (list jsstring)) (k id : jsstring) :
  push_id k id m = Ok m' ->
  obj_keys m' = if obj_has k m then obj_keys m else obj_keys (obj_set k [] m).
Proof.
  unfold push_id, obj_lookup, obj_has.
  destruct (obj_get k m) as [ids|] eqn:G.
  - rewrite G. intros [= <-]. eapply obj_keys_set_old; eauto.
  - destruct (inherited k).
    + rewrite G; discriminate.
    + rewrite obj_get_set_same. intros [= <-].
      eapply obj_keys_set_old. apply obj_get_set_same.
Qed.

Lemma first_seen_snoc (l : list jsstring) (k : jsstring) :
  first_seen (l ++ [k])
  = if existsb (str_eqb k) (first_seen l) then first_seen l
    else first_seen l ++ [k].
Proof. unfold first_seen. rewrite fold_left_app. reflexivity. Qed.

Lemma own_property_order_In (seen ks : list jsstring) (k : jsstring) :
  own_property_order seen ks -> In k ks <-> In k (first_seen seen).
Proof.
  intros [idx [-> [Hp _]]]. rewrite in_app_iff.
  rewrite (filter_In (fun k => negb (is_index k))).
  split.
  - intros [H|[H _]]; [|exact H].
    apply (Permutation_in _ Hp) in H. apply filter_In in H; tauto.
  - intros H. destruct (is_index k) eqn:E.
    + left. apply (Permutation_in _ (Permutation_sym Hp)).
      apply filter_In; auto.
    + right; auto.
Qed.

Lemma index_value_of (k : jsstring) (n : N) :
  array_index k = Some n -> index_value k = n /\ is_index k = true.
Proof. unfold index_value, is_index. intros ->; auto. Qed.

(** Where a new array index comes to stand among the keys. *)
Lemma obj_insert_index_keys {V} (n : N) (k : jsstring) (v : V) (o : obj V) :
  array_index k = Some n ->
  forall idx rest,
    obj_keys o = idx ++ rest ->
    Forall (fun i => is_index i = true) idx ->
    Forall (fun r => is_index r = false) rest ->
    StronglySorted (fun a b => index_value a <= index_value b) idx ->
    exists idx',
      obj_keys (obj_insert_index n k v o) = idx' ++ rest
      /\ Permutation idx' (k :: idx)
      /\ StronglySorted (fun a b => index_value a <= index_value b) idx'.
Proof.
  intros Hk.
  induction o as [|[k' v'] o IH]; intros idx rest Hkeys Hidx Hrest Hs.
  - simpl in Hkeys. symmetry in Hkeys. apply app_eq_nil in Hkeys as [-> ->].
    exists [k]; repeat split; auto. repeat constructor.
  - simpl in Hkeys. destruct idx as [|i idx].
    + simpl in Hkeys. subst rest. inversion Hrest as [|? ? Hr _]; subst.
      unfold is_index in Hr. simpl.
      destruct (array_index k'); [discriminate|].
      exists [k]; repeat split; auto. repeat constructor.
    + simpl in Hkeys. injection Hkeys as <- Hkeys.
      inversion Hidx as [|? ? Hi Hidx']; subst.
      inversion Hs as [|? ? Hs' Hle]; subst.
      unfold is_index in Hi. simpl.
      destruct (array_index k') as [m|] eqn:Em; [|discriminate].
      destruct (index_value_of k' m Em) as [Hm _].
      destruct (index_value_of k n Hk) as [Hv _].
      destruct (m <? n) eqn:Lt.
      * apply N.ltb_lt in Lt.
        destruct (IH idx rest Hkeys Hidx' Hrest Hs') as [idx' [E [Hp Hs'']]].
        exists (k' :: idx'); repeat split.
        -- simpl. f_equal. exact E.
        -- etransitivity; [apply perm_skip; exact Hp | apply perm_swap].
        -- constructor; [exact Hs''|].
           rewrite Forall_forall in Hle |- *. intros x Hx.
           apply (Permutation_in _ Hp) in Hx. destruct Hx as [<-|Hx].
           ++ rewrite Hv, Hm. lia.
           ++ apply Hle; exact Hx.
      * apply N.ltb_ge in Lt.
        exists (k :: k' :: idx); repeat split; auto.
        -- simpl. do 2 f_equal. exact Hkeys.
        -- constructor; [exact Hs|]. constructor; [rewrite Hv, Hm; lia|].
           rewrite Forall_forall in Hle |- *. intros x Hx.
           specialize (Hle x Hx). rewrite Hv. rewrite Hm in Hle. lia.
Qed.

Lemma filter_all {A} (p : A -> bool) (l : list A) :
  Forall (fun x => p x = true) l -> filter p l = l.
Proof.
  induction 1 as [|x l H _ IH]; simpl; [reflexivity|]. rewrite H, IH; auto.
Qed.

Lemma own_property_order_parts (seen ks : list jsstring) :
  own_property_order seen ks ->
  exists idx rest,
    ks = idx ++ rest
    /\ rest = filter (fun k => negb (is_index k)) (first_seen seen)
    /\ Permutation idx (filter is_index (first_seen seen))
    /\ Forall (fun i => is_index i = true) idx
    /\ Forall (fun r => is_index r = false) rest
    /\ StronglySorted (fun a b => index_value a <= index_value b) idx.
Proof.
  intros [idx [-> [Hp Hs]]].
  exists idx, (filter (fun k => negb (is_index k)) (first_seen seen)).
  repeat split; auto.
  - rewrite Forall_forall. intros x Hx.
    apply (Permutation_in _ Hp) in Hx. apply filter_In in Hx; tauto.
  - rewrite Forall_forall. intros x Hx. apply filter_In in Hx as [_ Hx].
    apply negb_true_iff in Hx; exact Hx.
Qed.

(** Pushing an identifier under its key keeps the keys in own-property
    order. *)
Lemma push_id_order (seen : list jsstring) (m m' : obj (list jsstring))
  (k id : jsstring) :
  own_property_order seen (obj_keys m) -> push_id k id m = Ok m' ->
  own_property_order (seen ++ [k]) (obj_keys m').
Proof.
  intros Ho Hp. rewrite (push_id_keys _ _ _ _ Hp).
  pose proof (own_property_order_In _ _ k Ho) as Hin.
  unfold own_property_order. rewrite first_seen_snoc.
  destruct (obj_has k m) eqn:Hh.
  - apply obj_has_true in Hh. apply Hin in Hh.
    apply existsb_str_eqb in Hh. rewrite Hh. exact Ho.
  - assert (Hn : ~ In k (obj_keys m)).
    { intros H. apply obj_has_true in H. congruence. }
    assert (Hn' : existsb (str_eqb k) (first_seen seen) = false).
    { apply not_existsb_str_eqb. rewrite <- Hin. exact Hn. }
    rewrite Hn'. rewrite !filter_app. simpl.
    destruct (own_property_order_parts _ _ Ho)
      as [idx [rest [Hk [Hrest [Hperm [Hidx [Hr Hs]]]]]]].
    unfold obj_set. rewrite Hh.
    destruct (array_index k) as [n|] eqn:Ek.
    + destruct (index_value_of k n Ek) as [_ Hi]. rewrite Hi. simpl.
      destruct (obj_insert_index_keys n k [] m Ek idx rest Hk Hidx Hr Hs)
        as [idx' [E [Hp' Hs']]].
      exists idx'. rewrite app_nil_r. subst rest. repeat split; auto.
      etransitivity; [exact Hp'|].
      etransitivity; [apply perm_skip; exact Hperm|].
      apply Permutation_cons_append.
    + assert (Hi : is_index k = false) by (unfold is_index; rewrite Ek; auto).
      rewrite Hi. simpl. exists idx. rewrite app_nil_r.
      unfold obj_keys in *. rewrite map_app, Hk. simpl.
      subst rest. rewrite app_assoc. repeat split; auto.
Qed.

Lemma keyed_snoc {V} (sel : V -> option jsstring) (id : jsstring) (v : V)
  (o : obj V) :
  keyed sel (o ++ [(id, v)])
  = keyed sel o ++ match sel v with Some _ => [id] | None => [] end.
Proof.
  unfold keyed. rewrite filter_app, map_app. simpl.
  destruct (sel v); reflexivity.
Qed.

(** One run of the body of the loop over the entries. *)
Lemma partition_step_partitioned (idMap done : obj literal) (st st' : locals)
  (e : jsstring * literal) :
  partitioned idMap done st -> partition_step st e = Ok st' ->
  partitioned idMap (done ++ [e]) st'.
Proof.
  intros [HA [HB [HO [HC [HS HI]]]]]. destruct e as [id [l|u]]; simpl.
  - destruct (push_id l id (emojiLiteralToGithubEmojiIdsMap st)) as [m|] eqn:E;
      simpl; [|discriminate].
    intros [= <-]. unfold partitioned. simpl.
    rewrite keys_by_snoc, keyed_snoc. simpl. rewrite !app_nil_r.
    refine (conj _ (conj _ (conj HO (conj HC (conj HS HI))))).
    + eapply push_id_groups; eauto. reflexivity.
    + apply groups_by_skip; auto.
  - destruct (push_id u id (githubSpecificEmojiUriToGithubEmojiIdsMap st))
      as [m|] eqn:E; simpl; [|discriminate].
    intros [= <-]. unfold partitioned. simpl.
    rewrite keys_by_snoc, keyed_snoc. simpl.
    refine (conj _ (conj _ (conj _ (conj HC (conj HS _))))).
    + apply groups_by_skip; auto.
    + eapply push_id_groups; eauto. reflexivity.
    + eapply push_id_order; eauto.
    + intros id'. rewrite obj_keys_delete, HI, in_app_iff. simpl.
      split.
      * intros [[H1 H2] H3]. split; [exact H1|].
        intros [?|[?|[]]]; [tauto | congruence].
      * intros [H1 H2]. split; [tauto|]. intros ->; tauto.
Qed.

Lemma partition_loop (idMap : obj literal) (rest done : obj literal)
  (st st' : locals) :
  partitioned idMap done st -> for_of partition_step rest st = Ok st' ->
  partitioned idMap (done ++ rest) st'.
Proof.
  revert done st. induction rest as [|e rest IH]; intros done st HP; simpl.
  - intros [= <-]. rewrite app_nil_r; exact HP.
  - destruct (partition_step st e) as [s1|] eqn:E; simpl; [|discriminate].
    intros H. replace (done ++ e :: rest) with ((done ++ [e]) ++ rest)
      by (rewrite <- app_assoc; reflexivity).
    eapply IH; eauto. eapply partition_step_partitioned; eauto.
Qed.

Lemma keyed_Forall2 {V W} (sel : V -> option jsstring)
  (sel' : W -> option jsstring) (o : obj V) (o' : obj W) :
  Forall2 (fun a b => fst a = fst b /\ sel (snd a) = sel' (snd b)) o o' ->
  keyed sel o = keyed sel' o'.
Proof.
  unfold keyed.
  induction 1 as [|[i v] [i' v'] o o' [E1 E2] _ IH]; simpl in *; [reflexivity|].
  rewrite E2. destruct (sel' v'); simpl; rewrite IH; congruence.
Qed.

Lemma keyed_In {V} (sel : V -> option jsstring) (o : obj V) (id : jsstring) :
  In id (keyed sel o) <-> exists v k, In (id, v) o /\ sel v = Some k.
Proof.
  unfold keyed. rewrite in_map_iff. split.
  - intros [[i v] [<- H]]. apply filter_In in H as [H1 H2]. simpl in *.
    destruct (sel v) as [k|] eqn:E; [|discriminate]. eauto.
  - intros [v [k [H E]]]. exists (id, v); split; [reflexivity|].
    apply filter_In; split; [exact H | simpl; rewrite E; reflexivity].
Qed.

Lemma ids_with_In {V} (sel : V -> option jsstring) (o : obj V)
  (k id : jsstring) :
  In id (ids_with sel k o) <-> exists v, In (id, v) o /\ sel v = Some k.
Proof.
  unfold ids_with. rewrite in_map_iff. split.
  - intros [[i v] [<- H]]. apply filter_In in H as [H1 H2]. simpl in *.
    exists v; split; [exact H1|]. unfold opt_is in H2.
    destruct (sel v); [|discriminate]. apply str_eqb_eq in H2; congruence.
  - intros [v [H E]]. exists (id, v); split; [reflexivity|].
    apply filter_In; split; [exact H|]. simpl. rewrite E. apply str_eqb_refl.
Qed.

Lemma In_obj_keys {V} (o : obj V) (k : jsstring) :
  In k (obj_keys o) <-> exists v, In (k, v) o.
Proof.
  unfold obj_keys. rewrite in_map_iff. split.
  - intros [[k' v] [<- H]]; eauto.
  - intros [v H]; exists (k, v); auto.
Qed.

Lemma NoDup_keys_functional {V} (o : obj V) (k : jsstring) (v v' : V) :
  NoDup (obj_keys o) -> In (k, v) o -> In (k, v') o -> v = v'.
Proof.
  intros Hnd H H'. apply (In_obj_get _ _ _ Hnd) in H, H'. congruence.
Qed.

(** What the first part of the function leaves: the literals and the
    platform locators each grouped, the latter in own-property order,
    nothing categorised, and the identifiers with a literal still in the
    identifier map. *)
Lemma partition_spec (json : obj jsstring) (st : locals) :
  obj_wf json = true -> partition json = Ok st ->
  groups_by literal_of json (emojiLiteralToGithubEmojiIdsMap st)
  /\ groups_by uri_of json (githubSpecificEmojiUriToGithubEmojiIdsMap st)
  /\ own_property_order (keys_by uri_of json)
       (obj_keys (githubSpecificEmojiUriToGithubEmojiIdsMap st))
  /\ categorizedEmojiIds st = []
  /\ categoryStack st = []
  /\ (forall id, In id (obj_keys (githubEmojiIdMap st))
                 <-> In id (keyed literal_of json)).
Proof.
  intros Hwf. unfold partition.
  destruct (getGithubEmojiIdMap json) as [idMap|] eqn:E; simpl; [|discriminate].
  pose proof (getGithubEmojiIdMap_entries _ _ Hwf E) as F.
  destruct (decoded_selectors _ _ F) as [FL FU].
  intros H. apply (partition_loop idMap idMap []) in H.
  - simpl in H. destruct H as [HA [HB [HO [HC [HS HI]]]]].
    refine (conj _ (conj _ (conj _ (conj HC (conj HS _))))).
    + intros k. rewrite (ids_with_Forall2 _ _ _ _ k FL). apply HA.
    + intros k. rewrite (ids_with_Forall2 _ _ _ _ k FU). apply HB.
    + rewrite (keys_by_Forall2 _ _ _ _ FU). exact HO.
    + intros id. rewrite (keyed_Forall2 _ _ _ _ FL). split.
      * intros Hin. apply HI in Hin as [H1 H2]. apply keyed_In.
        apply In_obj_keys in H1 as [v Hv]. destruct v as [l|u].
        -- exists (Literal l), l; auto.
        -- exfalso; apply H2. apply keyed_In. exists (PlatformRef u), u; auto.
      * intros Hin. apply keyed_In in Hin as [v [k [Hv Hk]]].
        assert (Hnd : NoDup (obj_keys idMap)).
        { rewrite (Forall2_keys (fun u l => decode u = Ok l) _ _ F).
          apply js_ordered_NoDup; exact Hwf. }
        apply HI. split; [apply In_obj_keys; eauto|].
        intros Hc. apply keyed_In in Hc as [v' [k' [Hv' Hk']]].
        rewrite (NoDup_keys_functional _ _ _ _ Hnd Hv Hv') in Hk.
        destruct v'; simpl in *; discriminate.
  - unfold partitioned, groups_by, own_property_order; simpl.
    refine (conj _ (conj _ (conj _ (conj eq_refl (conj eq_refl _))))); auto.
    + exists []; split; [reflexivity | split; constructor].
    + intros id; tauto.
Qed.

(** ** The loop over the records *)

Lemma walk_step_partitions (st st' : locals) (r : record) :
  walk_step st r = Ok st' ->
  emojiLiteralToGithubEmojiIdsMap st' = emojiLiteralToGithubEmojiIdsMap st
  /\ githubSpecificEmojiUriToGithubEmojiIdsMap st'
     = githubSpecificEmojiUriToGithubEmojiIdsMap st.
Proof.
  destruct r as [v|v|v|ty v]; simpl.
  - intros [= <-]; auto.
  - destruct (obj_get _ (categorizedEmojiIds st)); [|discriminate].
    intros [= <-]; auto.
  - destruct (obj_lookup _ _); try discriminate; [|intros [= <-]; auto].
    destruct (obj_get _ (categorizedEmojiIds st)); [|discriminate].
    destruct (obj_get _ _); [|discriminate].
    intros [= <-]; auto.
  - discriminate.
Qed.

Lemma walk_loop_partitions (records : list record) (st st' : locals) :
  for_of walk_step records st = Ok st' ->
  emojiLiteralToGithubEmojiIdsMap st' = emojiLiteralToGithubEmojiIdsMap st
  /\ githubSpecificEmojiUriToGithubEmojiIdsMap st'
     = githubSpecificEmojiUriToGithubEmojiIdsMap st.
Proof.
  apply (for_of_invariant
           (fun s => emojiLiteralToGithubEmojiIdsMap s
                     = emojiLiteralToGithubEmojiIdsMap st
                     /\ githubSpecificEmojiUriToGithubEmojiIdsMap s
                        = githubSpecificEmojiUriToGithubEmojiIdsMap st)).
  - intros s x s' _ [H1 H2] H. apply walk_step_partitions in H as [-> ->]; auto.
  - auto.
Qed.

(** The stack is what the records make of it. *)
Lemma walk_step_stack (st st' : locals) (r : record) :
  walk_step st r = Ok st' ->
  categoryStack st' = stack_after (categoryStack st) [r].
Proof.
  destruct r as [v|v|v|ty v]; simpl.
  - intros [= <-]; auto.
  - destruct (obj_get _ (categorizedEmojiIds st)); [|discriminate].
    intros [= <-]; auto.
  - destruct (obj_lookup _ _); try discriminate; [|intros [= <-]; auto].
    destruct (obj_get _ (categorizedEmojiIds st)); [|discriminate].
    destruct (obj_get _ _); [|discriminate].
    intros [= <-]; auto.
  - discriminate.
Qed.

Lemma stack_after_app (stack : list jsstring) (rs rs' : list record) :
  stack_after stack (rs ++ rs') = stack_after (stack_after stack rs) rs'.
Proof.
  revert stack; induction rs as [|r rs IH]; intros stack; [reflexivity|].
  destruct r; simpl; apply IH.
Qed.

Lemma walk_loop_stack (records : list record) (st st' : locals) :
  for_of walk_step records st = Ok st' ->
  categoryStack st' = stack_after (categoryStack st) records.
Proof.
  revert st; induction records as [|r rs IH]; intros st; simpl.
  - intros [= <-]; reflexivity.
  - destruct (walk_step st r) as [s1|] eqn:E; simpl; [|discriminate].
    intros H. rewrite (IH _ H), (walk_step_stack _ _ _ E).
    destruct r; reflexivity.
Qed.

(** The keys stay titles. *)
Lemma walk_step_titled (st st' : locals) (r : record) :
  titled (categorizedEmojiIds st) -> walk_step st r = Ok st' ->
  titled (categorizedEmojiIds st').
Proof.
  intros HT. destruct r as [v|v|v|ty v]; simpl.
  - intros [= <-]. simpl. intros c subs H.
    apply obj_set_In in H as [[= -> ->]|H]; [|apply HT; exact H].
    split; [apply toTitleCase_capitalized | intros s gs []].
  - destruct (obj_get _ (categorizedEmojiIds st)) as [subs0|] eqn:G;
      [|discriminate].
    intros [= <-]. simpl. intros c subs H.
    apply obj_set_In in H as [[= -> ->]|H]; [|apply HT; exact H].
    apply obj_get_In in G. destruct (HT _ _ G) as [Hc Hs].
    split; [exact Hc|]. intros s gs H.
    apply obj_set_In in H as [[= -> ->]|H]; [|eapply Hs; exact H].
    apply toTitleCase_capitalized.
  - destruct (obj_lookup _ _); try discriminate; [|intros [= <-]; auto].
    destruct (obj_get _ (categorizedEmojiIds st)) as [subs0|] eqn:G;
      [|discriminate].
    destruct (obj_get _ subs0) as [l|] eqn:G'; [|discriminate].
    intros [= <-]. simpl. intros c subs H.
    apply obj_set_In in H as [[= -> ->]|H]; [|apply HT; exact H].
    apply obj_get_In in G. destruct (HT _ _ G) as [Hc Hs].
    split; [exact Hc|]. intros s gs H.
    apply obj_set_In in H as [[= -> ->]|H]; [|eapply Hs; exact H].
    apply obj_get_In in G'. eapply Hs; exact G'.
  - discriminate.
Qed.

(** No key comes to stand twice. *)
Lemma walk_step_tax_ok (st st' : locals) (r : record) :
  tax_ok (categorizedEmojiIds st) -> walk_step st r = Ok st' ->
  tax_ok (categorizedEmojiIds st').
Proof.
  intros [HN HS]. destruct r as [v|v|v|ty v]; simpl.
  - intros [= <-]. simpl. split; [apply obj_set_NoDup; exact HN|].
    intros c subs H.
    apply obj_set_In in H as [[= -> ->]|H]; [constructor | eapply HS; exact H].
  - destruct (obj_get _ (categorizedEmojiIds st)) as [subs0|] eqn:G;
      [|discriminate].
    intros [= <-]. simpl. split; [apply obj_set_NoDup; exact HN|].
    intros c subs H.
    apply obj_set_In in H as [[= -> ->]|H]; [|eapply HS; exact H].
    apply obj_set_NoDup. apply obj_get_In in G. eapply HS; exact G.
  - destruct (obj_lookup _ _); try discriminate;
      [|intros [= <-]; split; assumption].
    destruct (obj_get _ (categorizedEmojiIds st)) as [subs0|] eqn:G;
      [|discriminate].
    destruct (obj_get _ subs0) as [l|] eqn:G'; [|discriminate].
    intros [= <-]. simpl. split; [apply obj_set_NoDup; exact HN|].
    intros c subs H.
    apply obj_set_In in H as [[= -> ->]|H]; [|eapply HS; exact H].
    apply obj_set_NoDup. apply obj_get_In in G. eapply HS; exact G.
  - discriminate.
Qed.

(** Only groups of partition (a) are filed. *)
Lemma walk_step_from_partition (st st' : locals) (r : record) :
  from_partition (emojiLiteralToGithubEmojiIdsMap st) (categorizedEmojiIds st) ->
  walk_step st r = Ok st' ->
  from_partition (emojiLiteralToGithubEmojiIdsMap st') (categorizedEmojiIds st').
Proof.
  intros HF Hw. destruct (walk_step_partitions _ _ _ Hw) as [-> _].
  revert Hw. destruct r as [v|v|v|ty v]; simpl.
  - intros [= <-]. simpl. intros c subs s gs g H.
    apply obj_set_In in H as [[= -> ->]|H]; [intros [] | eapply HF; exact H].
  - destruct (obj_get _ (categorizedEmojiIds st)) as [subs0|] eqn:G;
      [|discriminate].
    intros [= <-]. simpl. intros c subs s gs g H.
    apply obj_set_In in H as [[= -> ->]|H]; [|eapply HF; exact H].
    intros H. apply obj_set_In in H as [[= -> ->]|H]; [intros []|].
    apply obj_get_In in G. eapply HF; eauto.
  - unfold obj_lookup.
    destruct (obj_get (normalize v) _) as [ids|] eqn:GA.
    + destruct (obj_get _ (categorizedEmojiIds st)) as [subs0|] eqn:G;
        [|discriminate].
      destruct (obj_get _ subs0) as [l|] eqn:G'; [|discriminate].
      intros [= <-]. simpl. intros c subs s gs g H.
      apply obj_set_In in H as [[= -> ->]|H]; [|eapply HF; exact H].
      apply obj_get_In in G. intros H.
      apply obj_set_In in H as [[= -> ->]|H]; [|eapply HF; eauto].
      rewrite in_app_iff. intros [H|[<-|[]]].
      * apply obj_get_In in G'. eapply HF; eauto.
      * eauto.
    + destruct (inherited _); [discriminate|]. intros [= <-]. exact HF.
  - discriminate.
Qed.

(** The three together, after any number of records. *)
Lemma walk_loop_shape (records : list record) (st st' : locals) :
  titled (categorizedEmojiIds st) -> tax_ok (categorizedEmojiIds st) ->
  from_partition (emojiLiteralToGithubEmojiIdsMap st) (categorizedEmojiIds st) ->
  for_of walk_step records st = Ok st' ->
  titled (categorizedEmojiIds st') /\ tax_ok (categorizedEmojiIds st')
  /\ from_partition (emojiLiteralToGithubEmojiIdsMap st')
                    (categorizedEmojiIds st').
Proof.
  intros H1 H2 H3.
  apply (for_of_invariant
           (fun s => titled (categorizedEmojiIds s)
                     /\ tax_ok (categorizedEmojiIds s)
                     /\ from_partition (emojiLiteralToGithubEmojiIdsMap s)
                                       (categorizedEmojiIds s))); [|auto].
  intros s x s' _ [A [B C]] H.
  split; [eapply walk_step_titled; eauto|].
  split; [eapply walk_step_tax_ok; eauto | eapply walk_step_from_partition; eauto].
Qed.

(** ** Pruning *)

Lemma keys_filter_absent {V} (p : jsstring * V -> bool) (o : obj V)
  (k : jsstring) :
  ~ In k (obj_keys o) -> ~ In k (obj_keys (filter p o)).
Proof.
  intros H Hin. apply H. unfold obj_keys in *.
  apply in_map_iff in Hin as [e [<- He]]. apply filter_In in He as [He _].
  apply in_map; exact He.
Qed.

Lemma NoDup_keys_middle {V} (o1 o2 : obj V) (k : jsstring) (v : V) :
  NoDup (obj_keys (o1 ++ (k, v) :: o2)) ->
  ~ In k (obj_keys o1) /\ ~ In k (obj_keys o2).
Proof.
  unfold obj_keys. rewrite map_app. simpl. intros H.
  apply NoDup_remove_2 in H. rewrite in_app_iff in H. tauto.
Qed.

Lemma prune_subcategories_from (rest done : obj groups) :
  NoDup (obj_keys (done ++ rest)) ->
  for_of prune_subcategory (obj_keys rest) (filter has_groups done ++ rest)
  = Ok (filter has_groups done ++ filter has_groups rest).
Proof.
  revert done. induction rest as [|[k gs] rest IH]; intros done Hnd.
  - reflexivity.
  - destruct (NoDup_keys_middle _ _ _ _ Hnd) as [H1 H2].
    pose proof (keys_filter_absent has_groups done k H1) as H1'.
    cbn [obj_keys map fst for_of]. unfold prune_subcategory at 1.
    rewrite obj_get_middle by exact H1'. rewrite str_eqb_refl.
    assert (Hnd' : NoDup (obj_keys ((done ++ [(k, gs)]) ++ rest)))
      by (rewrite <- app_assoc; exact Hnd).
    specialize (IH _ Hnd'). rewrite filter_app in IH.
    destruct gs as [|g gs]; cbn [bind].
    + rewrite (obj_delete_middle k [] _ rest H1' H2).
      simpl in IH. rewrite app_nil_r in IH. exact IH.
    + rewrite <- !app_assoc in IH. exact IH.
Qed.

(** The inner loop leaves the subcategories that have a group. *)
Lemma prune_subcategories_filter (subs : obj groups) :
  NoDup (obj_keys subs) ->
  for_of prune_subcategory (obj_keys subs) subs = Ok (filter has_groups subs).
Proof. intros H. apply (prune_subcategories_from subs []). exact H. Qed.

Lemma pruned_app (a b : taxonomy) : pruned (a ++ b) = pruned a ++ pruned b.
Proof. unfold pruned. rewrite map_app, filter_app. reflexivity. Qed.

Lemma pruned_keys_absent (t : taxonomy) (k : jsstring) :
  ~ In k (obj_keys t) -> ~ In k (obj_keys (pruned t)).
Proof.
  intros H. unfold pruned. apply keys_filter_absent.
  unfold obj_keys in *. rewrite map_map. exact H.
Qed.

Lemma tax_ok_app_l (a b : taxonomy) : tax_ok (a ++ b) -> forall c subs,
  In (c, subs) (a ++ b) -> NoDup (obj_keys subs).
Proof. intros [_ H]; exact H. Qed.

Lemma prune_from (rest done : taxonomy) :
  tax_ok (done ++ rest) ->
  for_of prune_step (obj_keys rest) (pruned done ++ rest)
  = Ok (pruned done ++ pruned rest).
Proof.
  revert done. induction rest as [|[c subs] rest IH]; intros done Hok.
  - reflexivity.
  - destruct Hok as [Hnd Hsubs].
    destruct (NoDup_keys_middle _ _ _ _ Hnd) as [H1 H2].
    pose proof (pruned_keys_absent done c H1) as H1'.
    cbn [obj_keys map fst for_of]. unfold prune_step at 1.
    rewrite obj_get_middle by exact H1'. rewrite str_eqb_refl.
    rewrite prune_subcategories_filter
      by (apply (Hsubs c); apply in_elt).
    cbn [bind].
    assert (Hset : obj_set c (filter has_groups subs)
                     (pruned done ++ (c, subs) :: rest)
                   = pruned done ++ (c, filter has_groups subs) :: rest).
    { unfold obj_set, obj_has.
      rewrite obj_get_middle by exact H1'. rewrite str_eqb_refl.
      apply obj_replace_split; exact H1'. }
    rewrite Hset.
    assert (Hok' : tax_ok ((done ++ [(c, subs)]) ++ rest))
      by (rewrite <- app_assoc; split; assumption).
    specialize (IH _ Hok'). rewrite pruned_app in IH.
    change (pruned ((c, subs) :: rest)) with (pruned ([(c, subs)] ++ rest)).
    rewrite pruned_app.
    assert (Hp : pruned [(c, subs)]
                 = match filter has_groups subs with
                   | [] => []
                   | _ :: _ => [(c, filter has_groups subs)]
                   end).
    { unfold pruned. simpl. unfold has_groups at 1. simpl.
      destruct (filter has_groups subs); reflexivity. }
    rewrite Hp in *.
    destruct (filter has_groups subs) as [|s ss] eqn:E; cbn [obj_keys map bind].
    + rewrite (obj_delete_middle c [] _ rest H1' H2).
      rewrite <- ?app_assoc in IH. cbn [app] in IH |- *. exact IH.
    + rewrite <- ?app_assoc in IH. cbn [app] in IH |- *. exact IH.
Qed.

(** The pruning leaves the subcategories that have a group and then the
    categories that have a subcategory. *)
Lemma prune_pruned (t : taxonomy) : tax_ok t -> prune t = Ok (pruned t).
Proof. intros H. apply (prune_from t []). exact H. Qed.

Lemma finish_Ok (st : locals) (t : taxonomy) :
  tax_ok (categorizedEmojiIds st) -> finish st = Ok t ->
  obj_keys (githubEmojiIdMap st) = []
  /\ t = add_custom (githubSpecificEmojiUriToGithubEmojiIdsMap st)
                    (pruned (categorizedEmojiIds st)).
Proof.
  intros Hok. unfold finish.
  destruct (obj_keys (githubEmojiIdMap st)); [|discriminate].
  rewrite (prune_pruned _ Hok). simpl. intros [= <-]; auto.
Qed.

(** ** What the loop does to the identifier map *)

Lemma partition_step_empty (st st' : locals) (e : jsstring * literal) :
  partition_step st e = Ok st' ->
  categorizedEmojiIds st' = categorizedEmojiIds st
  /\ categoryStack st' = categoryStack st.
Proof.
  destruct e as [id [l|u]]; simpl.
  - destruct (push_id _ _ _); simpl; [|discriminate]. intros [= <-]; auto.
  - destruct (push_id _ _ _); simpl; [|discriminate]. intros [= <-]; auto.
Qed.

(** The first part of the function categorises nothing. *)
Lemma partition_empty (json : obj jsstring) (st : locals) :
  partition json = Ok st ->
  categorizedEmojiIds st = [] /\ categoryStack st = [].
Proof.
  unfold partition. destruct (getGithubEmojiIdMap json) as [idMap|]; simpl;
    [|discriminate].
  apply (for_of_invariant
           (fun s => categorizedEmojiIds s = [] /\ categoryStack s = [])).
  - intros s x s' _ [H1 H2] H.
    apply partition_step_empty in H as [-> ->]; auto.
  - auto.
Qed.

Lemma delete_all_keys {V} (ids : list jsstring) (m : obj V) (id : jsstring) :
  In id (obj_keys (fold_left (fun m i => obj_delete i m) ids m))
  <-> In id (obj_keys m) /\ ~ In id ids.
Proof.
  revert m; induction ids as [|i ids IH]; intros m; simpl; [tauto|].
  rewrite IH, obj_keys_delete. intuition congruence.
Qed.

(** One record takes from the identifier map the identifiers of its key,
    and no other. *)
Lemma walk_step_ids (json : obj jsstring) (st st' : locals) (r : record) :
  groups_by literal_of json (emojiLiteralToGithubEmojiIdsMap st) ->
  walk_step st r = Ok st' ->
  forall id,
    In id (obj_keys (githubEmojiIdMap st'))
    <-> In id (obj_keys (githubEmojiIdMap st))
        /\ forall k, In k (emoji_keys [r]) -> ~ In id (ids_with literal_of k json).
Proof.
  intros HA. destruct r as [v|v|v|ty v]; simpl.
  - intros [= <-] id. simpl. tauto.
  - destruct (obj_get _ (categorizedEmojiIds st)); [|discriminate].
    intros [= <-] id. simpl. tauto.
  - unfold obj_lookup. rewrite (HA (normalize v)).
    destruct (ids_with literal_of (normalize v) json) as [|i ids] eqn:E; simpl.
    + destruct (inherited _); [discriminate|]. intros [= <-] id.
      split; [|tauto]. intros H; split; [exact H|].
      intros k [<-|[]]. rewrite E. intros [].
    + destruct (obj_get _ (categorizedEmojiIds st)) as [subs|]; [|discriminate].
      destruct (obj_get _ subs); [|discriminate].
      intros [= <-] id. cbn [githubEmojiIdMap set_walk].
      rewrite delete_all_keys, obj_keys_delete. split.
      * intros [[H1 H2] H3]. split; [exact H1|]. intros k [<-|[]].
        rewrite E. intros [Hi|Hi]; [apply H2; symmetry; exact Hi | exact (H3 Hi)].
      * intros [H1 H2]. specialize (H2 _ (or_introl eq_refl)).
        rewrite E in H2.
        split; [split; [exact H1 | intros ->; apply H2; left; reflexivity]|].
        intros Hi; apply H2; right; exact Hi.
  - discriminate.
Qed.

Lemma emoji_keys_cons (r : record) (rs : list record) :
  emoji_keys (r :: rs) = emoji_keys [r] ++ emoji_keys rs.
Proof. unfold emoji_keys. simpl. rewrite app_nil_r. reflexivity. Qed.

(** The identifiers still in the map after the loop are those no record
    had the key of. *)
Lemma walk_loop_ids (json : obj jsstring) (records : list record)
  (st st' : locals) :
  groups_by literal_of json (emojiLiteralToGithubEmojiIdsMap st) ->
  for_of walk_step records st = Ok st' ->
  forall id,
    In id (obj_keys (githubEmojiIdMap st'))
    <-> In id (obj_keys (githubEmojiIdMap st))
        /\ forall k, In k (emoji_keys records) ->
                     ~ In id (ids_with literal_of k json).
Proof.
  revert st. induction records as [|r rs IH]; intros st HA; cbn [for_of].
  - intros [= <-] id. split; [|tauto]. intros H; split; [exact H | intros k []].
  - destruct (walk_step st r) as [s1|] eqn:E; cbn [bind]; [|discriminate].
    intros H id.
    assert (HA1 : groups_by literal_of json (emojiLiteralToGithubEmojiIdsMap s1)).
    { destruct (walk_step_partitions _ _ _ E) as [-> _]; exact HA. }
    rewrite (IH s1 HA1 H id), (walk_step_ids json st s1 r HA E id).
    rewrite (emoji_keys_cons r rs). split.
    + intros [[H1 H2] H3]. split; [exact H1|]. intros k Hk.
      apply in_app_iff in Hk as [Hk|Hk]; auto.
    + intros [H1 H2].
      split; [split; [exact H1|] |]; intros k Hk; apply H2; apply in_app_iff;
        [left | right]; exact Hk.
Qed.

(** ** What is thrown *)

Lemma mapM_error {A B} (Q : error -> Prop) (f : A -> result B) (l : list A) :
  (forall x e, f x = Err e -> Q e) -> forall e, mapM f l = Err e -> Q e.
Proof.
  intros Hf. induction l as [|x l IH]; intros e; simpl; [discriminate|].
  destruct (f x) as [y|e1] eqn:E; simpl.
  - destruct (mapM f l) as [ys|e2]; simpl; [discriminate|].
    intros [= <-]. apply IH; reflexivity.
  - intros [= <-]. eapply Hf; eauto.
Qed.

Lemma fromCodePoint_error (n : option Z) (e : error) :
  fromCodePoint n = Err e -> e <> Uncategorized.
Proof.
  unfold fromCodePoint. destruct n as [z|]; [destruct (_ && _)|];
    intros [= <-]; discriminate.
Qed.

Lemma decode_error (url : jsstring) (e : error) :
  decode url = Err e -> e <> Uncategorized.
Proof.
  unfold decode. rewrite file_stem_stem_of. simpl.
  destruct (includes _ url); [|discriminate].
  destruct (mapM _ _) as [chars|e1] eqn:E; simpl; [discriminate|].
  intros [= <-]. revert E. apply (mapM_error (fun e => e <> Uncategorized)).
  intros x e0. apply fromCodePoint_error.
Qed.

Lemma push_id_error (k id : jsstring) (m : obj (list jsstring)) (e : error) :
  push_id k id m = Err e -> e <> Uncategorized.
Proof.
  unfold push_id. destruct (obj_get k _); intros [= <-]; discriminate.
Qed.

Lemma partition_error (json : obj jsstring) (e : error) :
  partition json = Err e -> e <> Uncategorized.
Proof.
  unfold partition, getGithubEmojiIdMap.
  destruct (mapM _ json) as [entries|e1] eqn:E; simpl.
  - apply (for_of_error (fun e => e <> Uncategorized)).
    intros s [id [l|u]] e0; simpl.
    + destruct (push_id _ _ _) eqn:P; simpl; [discriminate|].
      intros [= <-]. eapply push_id_error; eauto.
    + destruct (push_id _ _ _) eqn:P; simpl; [discriminate|].
      intros [= <-]. eapply push_id_error; eauto.
  - intros [= <-]. revert E. apply (mapM_error (fun e => e <> Uncategorized)). intros [id url] e0. simpl.
    destruct (decode url) eqn:D; simpl; [discriminate|].
    intros [= <-]. eapply decode_error; eauto.
Qed.

Lemma walk_step_error (st : locals) (r : record) (e : error) :
  walk_step st r = Err e -> e <> Uncategorized.
Proof.
  destruct r as [v|v|v|ty v]; simpl.
  - discriminate.
  - destruct (obj_get _ _); [discriminate | intros [= <-]; discriminate].
  - destruct (obj_lookup _ _); try discriminate;
      [|intros [= <-]; discriminate].
    destruct (obj_get _ _) as [subs|]; [|intros [= <-]; discriminate].
    destruct (obj_get _ subs); [discriminate | intros [= <-]; discriminate].
  - intros [= <-]; discriminate.
Qed.

Lemma walk_error (json : obj jsstring) (records : list record) (e : error) :
  walk json records = Err e -> e <> Uncategorized.
Proof.
  unfold walk. destruct (partition json) as [st|e1] eqn:P; simpl.
  - apply (for_of_error (fun e => e <> Uncategorized)). apply walk_step_error.
  - intros [= <-]. eapply partition_error; eauto.
Qed.

(** The state after the loop, whenever it ends. *)
Lemma walk_Ok (json : obj jsstring) (records : list record) (st : locals) :
  walk json records = Ok st ->
  exists st0,
    partition json = Ok st0 /\ for_of walk_step records st0 = Ok st
    /\ titled (categorizedEmojiIds st) /\ tax_ok (categorizedEmojiIds st)
    /\ from_partition (emojiLiteralToGithubEmojiIdsMap st)
                      (categorizedEmojiIds st)
    /\ emojiLiteralToGithubEmojiIdsMap st = emojiLiteralToGithubEmojiIdsMap st0
    /\ githubSpecificEmojiUriToGithubEmojiIdsMap st
       = githubSpecificEmojiUriToGithubEmojiIdsMap st0
    /\ categoryStack st = stack_after [] records.
Proof.
  unfold walk. destruct (partition json) as [st0|] eqn:P; simpl; [|discriminate].
  intros H. exists st0. destruct (partition_empty _ _ P) as [HC HS].
  destruct (walk_loop_shape records st0 st) as [H1 [H2 H3]]; auto.
  - rewrite HC. intros c subs [].
  - rewrite HC. split; [constructor | intros c subs []].
  - rewrite HC. intros c subs s gs g [].
  - destruct (walk_loop_partitions _ _ _ H) as [HA HB].
    rewrite <- HS.
    refine (conj eq_refl (conj H (conj H1 (conj H2 (conj H3 (conj HA (conj HB _))))))).
    apply walk_loop_stack; exact H.
Qed.

Lemma categorize_Ok (json : obj jsstring) (records : list record)
  (t : obj (obj (list (list jsstring)))) :
  categorize json records = Ok t ->
  exists st, walk json records = Ok st /\ finish st = Ok t.
Proof.
  unfold categorize, categorize_from.
  destruct (walk json records) as [st|]; simpl; [|discriminate].
  intros H; exists st; auto.
Qed.

(** ** The stack and the bucket it names *)

(** One run of the body keeps what the stack names. *)
Lemma walk_step_stack_ok (st st' : locals) (r : record) :
  stack_ok st -> walk_step st r = Ok st' -> stack_ok st'.
Proof.
  unfold stack_ok. destruct r as [v|v|v|ty v]; cbn [walk_step].
  - intros _ [= <-]. cbn [set_walk categoryStack categorizedEmojiIds].
    apply obj_get_set_same.
  - destruct (categoryStack st) as [|c [|s [|x stack]]]; intros H.
    + rewrite H. discriminate.
    + cbn [length Nat.ltb Nat.leb app nth_error property_key]. rewrite H.
      intros [= <-]. cbn [set_walk categoryStack categorizedEmojiIds].
      rewrite obj_get_set_same. eexists. eexists. split; [reflexivity|].
      apply obj_get_set_same.
    + destruct H as [subs [gs [Hc Hs]]].
      cbn [length Nat.ltb Nat.leb removelast app nth_error property_key].
      rewrite Hc. intros [= <-]. cbn [set_walk categoryStack categorizedEmojiIds].
      rewrite obj_get_set_same. eexists. eexists. split; [reflexivity|].
      apply obj_get_set_same.
    + destruct H.
  - destruct (obj_lookup _ _) as [ids| |]; [| discriminate | intros H [= <-]; exact H].
    destruct (categoryStack st) as [|c [|s [|x stack]]]; intros H.
    + rewrite H. discriminate.
    + cbn [nth_error property_key]. rewrite H. discriminate.
    + destruct H as [subs [gs [Hc Hs]]]. cbn [nth_error property_key].
      rewrite Hc, Hs. intros [= <-].
      cbn [set_walk categoryStack categorizedEmojiIds].
      rewrite obj_get_set_same. eexists. eexists. split; [reflexivity|].
      apply obj_get_set_same.
    + destruct H.
  - discriminate.
Qed.

Lemma walk_loop_stack_ok (records : list record) (st st' : locals) :
  stack_ok st -> for_of walk_step records st = Ok st' -> stack_ok st'.
Proof.
  apply (for_of_invariant stack_ok). intros s r s' _. apply walk_step_stack_ok.
Qed.

(** A bucket on the stack is where the stack says. *)
Lemma stack_ok_bucket (st : locals) (c s : jsstring)
  (subs : obj (list (list jsstring))) (list : list (list jsstring)) :
  categoryStack st = [c; s] ->
  obj_get c (categorizedEmojiIds st) = Some subs ->
  obj_get s subs = Some list ->
  stack_ok st.
Proof. intros HS HC HL. unfold stack_ok. rewrite HS. eauto. Qed.

(** An emoji record whose key is found, with the bucket there. *)
Lemma matched_step (st : locals) (value c s : jsstring)
  (ids : list jsstring) (subs : obj (list (list jsstring)))
  (list : list (list jsstring)) :
  obj_get (normalize value) (emojiLiteralToGithubEmojiIdsMap st) = Some ids ->
  categoryStack st = [c; s] ->
  obj_get c (categorizedEmojiIds st) = Some subs ->
  obj_get s subs = Some list ->
  walk_step st (Emoji value)
  = Ok (set_walk st
          (fold_left (fun m i => obj_delete i m) ids (githubEmojiIdMap st))
          (obj_set c (obj_set s (list ++ [ids]) subs) (categorizedEmojiIds st))
          [c; s]).
Proof.
  intros HA HS HC HL. cbn [walk_step]. unfold obj_lookup. rewrite HA, HS.
  cbn [nth_error property_key]. rewrite HC, HL. reflexivity.
Qed.

(** An emoji record whose key is found, with no bucket for it. *)
Lemma matched_no_bucket (st : locals) (value : jsstring) (ids : list jsstring) :
  stack_ok st ->
  obj_get (normalize value) (emojiLiteralToGithubEmojiIdsMap st) = Some ids ->
  match categoryStack st with
  | [_; _] => True
  | _ => walk_step st (Emoji value) = Err TypeError
  end.
Proof.
  unfold stack_ok. intros Hs HA.
  destruct (categoryStack st) as [|c [|s [|x stack]]] eqn:ES.
  - cbn [walk_step]. unfold obj_lookup. rewrite HA, ES.
    cbn [nth_error property_key]. rewrite Hs. reflexivity.
  - cbn [walk_step]. unfold obj_lookup. rewrite HA, ES.
    cbn [nth_error property_key]. rewrite Hs. reflexivity.
  - exact I.
  - destruct Hs.
Qed.

(** * The claims *)

(** ** Pruning (C6) *)

Lemma add_custom_In (uris : obj (list jsstring))
  (cats : obj (obj (list (list jsstring)))) (c : jsstring)
  (subs : obj (list (list jsstring))) :
  In (c, subs) (add_custom uris cats) ->
  (uris <> [] /\ c = custom_title /\ subs = [([], map snd uris)])
  \/ In (c, subs) cats.
Proof.
  unfold add_custom. destruct uris as [|u uris]; simpl; [auto|].
  intros H. apply obj_set_In in H as [[= -> ->]|H]; [left | right; exact H].
  repeat split; discriminate.
Qed.

Lemma pruned_In (t : obj (obj (list (list jsstring)))) (c : jsstring)
  (subs : obj (list (list jsstring))) :
  In (c, subs) (pruned t) ->
  subs <> []
  /\ exists subs0, In (c, subs0) t /\ subs = filter has_groups subs0.
Proof.
  unfold pruned. rewrite filter_In, in_map_iff.
  intros [[[c0 subs0] [E H]] Hg]. cbn [fst snd] in E. injection E as -> <-.
  split; [|eauto]. remember (filter has_groups subs0) as f eqn:Ef.
  unfold has_groups in Hg. cbn [snd] in Hg.
  destruct f; [discriminate Hg | discriminate].
Qed.

(** C6: a taxonomy that is returned has no category without a subcategory
    and no subcategory without a group, the category of the
    platform-specific identifiers included. *)
Theorem returned_taxonomy_pruned (json : obj jsstring) (records : list record)
  (t : obj (obj (list (list jsstring)))) :
  categorize json records = Ok t ->
  forall c subs, In (c, subs) t ->
    subs <> [] /\ forall s gs, In (s, gs) subs -> gs <> [].
Proof.
  intros H c subs Hin.
  apply categorize_Ok in H as [st [Hw Hf]].
  apply walk_Ok in Hw as [st0 [_ [_ [_ [Hok _]]]]].
  apply (finish_Ok _ _ Hok) in Hf as [_ ->].
  apply add_custom_In in Hin as [[Hu [-> ->]]|Hin].
  - split; [discriminate|]. intros s gs [[= <- <-]|[]].
    destruct (githubSpecificEmojiUriToGithubEmojiIdsMap st);
      [congruence | discriminate].
  - apply pruned_In in Hin as [Hne [subs0 [_ ->]]].
    split; [exact Hne|]. intros s gs Hs. apply filter_In in Hs as [_ Hs].
    unfold has_groups in Hs. simpl in Hs. destruct gs; [discriminate Hs|].
    discriminate.
Qed.

Lemma returned_taxonomy_pruned_witness :
  categorize example_json example_records = Ok example_taxonomy
  /\ forall c subs, In (c, subs) example_taxonomy ->
       subs <> [] /\ forall s gs, In (s, gs) subs -> gs <> [].
Proof.
  split; [vm_compute; reflexivity|].
  apply (returned_taxonomy_pruned example_json example_records).
  vm_compute; reflexivity.
Defined.

(** ** Malformed streams (C5, C10) *)

Lemma walk_step_no_category (st st' : locals) (r : record) :
  categorizedEmojiIds st = [] -> is_category r = false ->
  walk_step st r = Ok st' -> categorizedEmojiIds st' = [].
Proof.
  intros HC. destruct r as [v|v|v|ty v]; simpl; try discriminate; intros _.
  - rewrite HC. simpl. discriminate.
  - rewrite HC. simpl. destruct (obj_lookup _ _); try discriminate.
    intros [= <-]; exact HC.
Qed.

Lemma walk_loop_no_category (pre : list record) (st st' : locals) :
  categorizedEmojiIds st = [] ->
  forallb (fun r => negb (is_category r)) pre = true ->
  for_of walk_step pre st = Ok st' -> categorizedEmojiIds st' = [].
Proof.
  intros HC Hpre.
  apply (for_of_invariant (fun s => categorizedEmojiIds s = [])); [|exact HC].
  intros s x s' Hx Hs. apply walk_step_no_category; [exact Hs|].
  rewrite forallb_forall in Hpre. apply negb_true_iff. apply Hpre; exact Hx.
Qed.

Lemma categorize_prefix_Err (json : obj jsstring) (pre post : list record)
  (r : record) :
  (forall st0 st, partition json = Ok st0 -> for_of walk_step pre st0 = Ok st ->
                  exists e, walk_step st r = Err e) ->
  exists e, categorize json (pre ++ r :: post) = Err e.
Proof.
  intros H. unfold categorize, categorize_from, walk.
  destruct (partition json) as [st0|e0] eqn:P; simpl; [|eauto].
  rewrite for_of_app.
  destruct (for_of walk_step pre st0) as [st|e1] eqn:W; simpl; [|eauto].
  destruct (H st0 st eq_refl W) as [e ->]. simpl. eauto.
Qed.

(** C5: a stream with a subcategory record before any category record makes
    the categorisation throw: nothing is filed and no taxonomy returned. *)
Theorem subcategory_before_category (json : obj jsstring)
  (pre post : list record) (value : jsstring) :
  forallb (fun r => negb (is_category r)) pre = true ->
  exists e, categorize json (pre ++ Subcategory value :: post) = Err e.
Proof.
  intros Hpre. apply categorize_prefix_Err. intros st0 st P W.
  destruct (partition_empty _ _ P) as [HC _].
  pose proof (walk_loop_no_category pre st0 st HC Hpre W) as HC'.
  simpl. rewrite HC'. simpl. eauto.
Qed.

Lemma subcategory_before_category_witness :
  exists e,
    categorize example_json
      ([Emoji (utf16 9731)]
         ++ Subcategory (js "face-smiling") :: [Category (js "Symbols")])
    = Err e.
Proof.
  apply (subcategory_before_category example_json [Emoji (utf16 9731)]).
  vm_compute. reflexivity.
Defined.

Lemma has_literal_ids (json : obj jsstring) (k : jsstring) :
  has_literal json k = true ->
  exists i ids, ids_with literal_of k json = i :: ids.
Proof.
  unfold has_literal, ids_with. rewrite existsb_exists.
  intros [e [He Hk]].
  assert (H : In (fst e) (map fst (filter (fun e => opt_is (literal_of (snd e)) k) json))).
  { apply in_map. apply filter_In; auto. }
  destruct (map fst _); [destruct H | eauto].
Qed.

Lemma not_has_literal_ids (json : obj jsstring) (k : jsstring) :
  has_literal json k = false -> ids_with literal_of k json = [].
Proof.
  unfold has_literal, ids_with. intros H.
  destruct (filter _ json) as [|e l] eqn:E; [reflexivity|].
  assert (He : In e (filter (fun e => opt_is (literal_of (snd e)) k) json))
    by (rewrite E; left; reflexivity).
  apply filter_In in He as [He1 He2].
  assert (Hc : existsb (fun e => opt_is (literal_of (snd e)) k) json = true)
    by (apply existsb_exists; eauto).
  congruence.
Qed.

Lemma undefined_not_titled (subs : obj (list (list jsstring)))
  (gs : list (list jsstring)) :
  (forall s gs', In (s, gs') subs -> capitalized s = true) ->
  obj_get (js "undefined") subs = Some gs -> False.
Proof.
  intros H G. apply obj_get_In in G. apply H in G. discriminate.
Qed.

(** C10: an emoji record whose key is in partition (a), coming before the
    current category has a subcategory or before any category, makes the
    categorisation throw. *)
Theorem emoji_without_subcategory (json : obj jsstring)
  (pre post : list record) (value : jsstring) :
  obj_wf json = true ->
  (length (stack_after [] pre) < 2)%nat ->
  has_literal json (normalize value) = true ->
  exists e, categorize json (pre ++ Emoji value :: post) = Err e.
Proof.
  intros Hwf Hlen Hlit. apply categorize_prefix_Err. intros st0 st P W.
  assert (Hw : walk json pre = Ok st) by (unfold walk; rewrite P; exact W).
  apply walk_Ok in Hw as [st0' [P' [_ [HT [_ [_ [HA [_ HS]]]]]]]].
  rewrite P in P'. injection P' as <-.
  destruct (partition_spec json st0 Hwf P) as [HG _].
  destruct (has_literal_ids _ _ Hlit) as [i [ids Hi]].
  cbn [walk_step]. unfold obj_lookup.
  rewrite HA, (HG (normalize value)), Hi. cbn [nonempty_list]. rewrite HS.
  assert (H1 : nth_error (stack_after [] pre) 1 = None)
    by (apply nth_error_None; lia).
  rewrite H1. cbn [property_key].
  destruct (obj_get _ (categorizedEmojiIds st)) as [subs|] eqn:G; [|eauto].
  destruct (obj_get (js "undefined") subs) as [l|] eqn:G'; [|eauto].
  exfalso. apply obj_get_In in G. destruct (HT _ _ G) as [_ Hs].
  eapply undefined_not_titled; eauto.
Qed.

Lemma emoji_without_subcategory_witness :
  exists e,
    categorize example_json
      ([Category (js "Symbols")] ++ Emoji (utf16 128175) :: [])
    = Err e.
Proof.
  apply (emoji_without_subcategory example_json [Category (js "Symbols")]).
  - vm_compute. reflexivity.
  - vm_compute. lia.
  - vm_compute. reflexivity.
Defined.

(** ** Coverage (C4) *)

Lemma json_functional (json : obj jsstring) (id url url' : jsstring) :
  obj_wf json = true -> In (id, url) json -> In (id, url') json -> url = url'.
Proof.
  intros Hwf. apply NoDup_keys_functional. apply js_ordered_NoDup. exact Hwf.
Qed.

Lemma all_matched_true (json : obj jsstring) (records : list record) :
  all_matched json records = true <->
  forall id url l, In (id, url) json -> literal_of url = Some l ->
                   In l (emoji_keys records).
Proof.
  unfold all_matched. rewrite forallb_forall. split.
  - intros H id url l Hin Hl. specialize (H _ Hin). simpl in H.
    rewrite Hl in H. apply existsb_str_eqb; exact H.
  - intros H [id url] Hin. simpl.
    destruct (literal_of url) as [l|] eqn:Hl; [|reflexivity].
    apply existsb_str_eqb. eapply H; eauto.
Qed.

Lemma all_matched_false (json : obj jsstring) (records : list record) :
  all_matched json records = false ->
  exists id url l, In (id, url) json /\ literal_of url = Some l
                   /\ ~ In l (emoji_keys records).
Proof.
  unfold all_matched. induction json as [|[id url] json IH]; simpl;
    [discriminate|].
  destruct (literal_of url) as [l|] eqn:Hl.
  - destruct (existsb (str_eqb l) (emoji_keys records)) eqn:E; simpl.
    + intros H. destruct (IH H) as [i [u [k [H1 H2]]]].
      exists i, u, k; split; [right; exact H1 | exact H2].
    + intros _. exists id, url, l. split; [left; reflexivity|].
      split; [exact Hl | apply not_existsb_str_eqb; exact E].
  - intros H. destruct (IH H) as [i [u [k [H1 H2]]]].
    exists i, u, k; split; [right; exact H1 | exact H2].
Qed.

(** The identifiers left in the map after the loop, from the response. *)
Lemma walk_left (json : obj jsstring) (records : list record) (st : locals) :
  obj_wf json = true -> walk json records = Ok st ->
  forall id,
    In id (obj_keys (githubEmojiIdMap st))
    <-> exists url l, In (id, url) json /\ literal_of url = Some l
                      /\ ~ In l (emoji_keys records).
Proof.
  intros Hwf Hw id.
  apply walk_Ok in Hw as [st0 [P [W _]]].
  destruct (partition_spec json st0 Hwf P) as [HG [_ [_ [_ [_ HI]]]]].
  rewrite (walk_loop_ids json records st0 st HG W id), HI, keyed_In.
  split.
  - intros [[url [l [Hin Hl]]] Hk]. exists url, l. repeat split; auto.
    intros Hc. apply (Hk l Hc). apply ids_with_In. eauto.
  - intros [url [l [Hin [Hl Hn]]]]. split; [eauto|].
    intros k Hk Hc. apply ids_with_In in Hc as [url' [Hin' Hl']].
    rewrite (json_functional _ _ _ _ Hwf Hin Hin') in Hl. congruence.
Qed.

(** C4, against the claim: with an identifier left unmatched, what is
    thrown is not always the error of the identifiers left over. A
    subcategory record before any category throws a TypeError in the loop,
    and a locator that does not decode throws a RangeError before it:
    neither run comes to the test after the loop. *)
Lemma earlier_exception_counterexample :
  all_matched unmatched_json [Subcategory (js "x")] = false
  /\ categorize unmatched_json [Subcategory (js "x")] = Err TypeError
  /\ getCategorizeGithubEmojiIds unmatched_json (js "@x") = Err TypeError
  /\ all_matched undecodable_json [] = false
  /\ categorize undecodable_json [] = Err RangeError.
Proof. repeat split; vm_compute; reflexivity. Qed.

(** C4, amended: when some identifier decodes to a literal that is the key
    of no emoji record, no taxonomy is returned; what is thrown is the
    uncategorized-identifiers error when the partitioning and the loop
    over the records end without an exception, and otherwise the
    exception of the partitioning or of the loop, which is another one
    (a RangeError or a TypeError). When every such literal is the key of
    a record, the uncategorized-identifiers error is not thrown. *)
Theorem uncategorized_identifiers (json : obj jsstring)
  (records : list record) :
  obj_wf json = true ->
  (all_matched json records = false ->
     (forall t, categorize json records <> Ok t)
     /\ (forall st, walk json records = Ok st ->
                    categorize json records = Err Uncategorized)
     /\ (forall e, walk json records = Err e ->
                   categorize json records = Err e
                   /\ (e = RangeError \/ e = TypeError
                       \/ exists type, e = UnexpectedType type)))
  /\ (all_matched json records = true ->
        categorize json records <> Err Uncategorized).
Proof.
  intros Hwf. split.
  - intros Hm. apply all_matched_false in Hm as [id [url [l Hm]]].
    assert (Hu : forall st, walk json records = Ok st ->
                            categorize json records = Err Uncategorized).
    { intros st Hw. unfold categorize, categorize_from. rewrite Hw. simpl.
      unfold finish.
      destruct (obj_keys (githubEmojiIdMap st)) as [|i ids] eqn:E;
        [|reflexivity].
      exfalso. assert (Hin : In id (obj_keys (githubEmojiIdMap st))).
      { apply (walk_left json records st Hwf Hw). eauto. }
      rewrite E in Hin. exact Hin. }
    split; [|split; [exact Hu|]].
    + intros t Ht.
      destruct (walk json records) as [st|e] eqn:Hw.
      * rewrite (Hu st eq_refl) in Ht. discriminate.
      * unfold categorize, categorize_from in Ht. rewrite Hw in Ht.
        discriminate.
    + intros e Hw. split.
      * unfold categorize, categorize_from. rewrite Hw. reflexivity.
      * pose proof (walk_error _ _ _ Hw) as He.
        destruct e as [| |type|]; [auto | auto | eauto | congruence].
  - intros Hm Hc. assert (Hm' := proj1 (all_matched_true _ _) Hm).
    unfold categorize, categorize_from in Hc.
    destruct (walk json records) as [st|e] eqn:Hw; simpl in Hc.
    + unfold finish in Hc.
      destruct (obj_keys (githubEmojiIdMap st)) as [|i ids] eqn:E.
      * pose proof Hw as Hw'.
        apply walk_Ok in Hw' as [st0 [_ [_ [_ [Hok _]]]]].
        rewrite (prune_pruned _ Hok) in Hc. discriminate.
      * assert (Hin : In i (obj_keys (githubEmojiIdMap st)))
          by (rewrite E; left; reflexivity).
        apply (walk_left json records st Hwf Hw) in Hin
          as [url [l [Hin [Hl Hn]]]].
        apply Hn. eapply Hm'; eauto.
    + injection Hc as ->. eapply walk_error; eauto.
Qed.

Lemma uncategorized_identifiers_witness :
  categorize example_json (firstn 9 example_records) = Err Uncategorized
  /\ categorize unmatched_json [Subcategory (js "x")] = Err TypeError
  /\ categorize example_json example_records <> Err Uncategorized.
Proof.
  assert (Hwf : obj_wf example_json = true) by (vm_compute; reflexivity).
  assert (Hwf' : obj_wf unmatched_json = true) by (vm_compute; reflexivity).
  assert (Hf : all_matched example_json (firstn 9 example_records) = false)
    by (vm_compute; reflexivity).
  assert (Hf' : all_matched unmatched_json [Subcategory (js "x")] = false)
    by (vm_compute; reflexivity).
  assert (Ht : all_matched example_json example_records = true)
    by (vm_compute; reflexivity).
  split; [|split].
  - eapply (proj1 (proj2 (proj1 (uncategorized_identifiers example_json
                                   (firstn 9 example_records) Hwf) Hf))).
    vm_compute. reflexivity.
  - apply (proj2 (proj2 (proj1 (uncategorized_identifiers unmatched_json
                                  [Subcategory (js "x")] Hwf') Hf'))).
    vm_compute. reflexivity.
  - exact (proj2 (uncategorized_identifiers example_json example_records Hwf)
                 Ht).
Defined.

(** ** The key of partition (a) (C2) *)

Lemma normalize_idempotent (value : jsstring) :
  normalize (normalize value) = normalize value.
Proof.
  unfold normalize. induction value as [|c value IH]; simpl; [reflexivity|].
  destruct (is_selector c) eqn:E; simpl; [exact IH|].
  rewrite E. simpl. rewrite IH. reflexivity.
Qed.

(** C2, against the claim: an identifier whose literal has a variation
    selector is filed in partition (a) under that literal as it is, where
    the key of the reference entry for the same emoji does not find it. *)
Lemma raw_literal_key_counterexample :
  exists st,
    partition selector_json = Ok st
    /\ ids_with literal_of selector_literal selector_json = [js "heart"]
    /\ obj_get selector_literal (emojiLiteralToGithubEmojiIdsMap st)
       = Some [js "heart"]
    /\ obj_get (normalize selector_literal) (emojiLiteralToGithubEmojiIdsMap st)
       = None
    /\ categorize selector_json selector_records = Err Uncategorized.
Proof.
  eexists. split; [vm_compute; reflexivity|].
  repeat split; vm_compute; reflexivity.
Qed.

(** C2, amended: partition (a) is keyed by the literal each identifier
    decodes to, as it is: under each literal stand the identifiers that
    decode to it, in the order of enumeration. Only the record's side is
    normalized: wherever the loop stands, an emoji record is looked up by
    its value without variation selectors and zero-width joiners, and what
    the loop files for it is the list of exactly the identifiers whose
    literal is that key. With no such identifier the record changes
    nothing (or throws, when the key is the name of a property of
    [Object.prototype]); with some, the list goes into the current bucket
    as one group and its identifiers leave the identifier map (or the
    record throws, when no category and subcategory are current). *)
Theorem partition_keyed_by_literal (json : obj jsstring) (st : locals) :
  obj_wf json = true -> partition json = Ok st ->
  (forall k, obj_get k (emojiLiteralToGithubEmojiIdsMap st)
             = nonempty_list (ids_with literal_of k json))
  /\ (forall value,
        obj_lookup (normalize value) (emojiLiteralToGithubEmojiIdsMap st)
        = match ids_with literal_of (normalize value) json with
          | [] => if inherited (normalize value) then Inherited else Undefined
          | ids => Own ids
          end)
  /\ (forall st' value,
        walk_step st' (Emoji value) = walk_step st' (Emoji (normalize value)))
  /\ (forall pre st' value,
        for_of walk_step pre st = Ok st' ->
        match ids_with literal_of (normalize value) json with
        | [] =>
            walk_step st' (Emoji value)
            = if inherited (normalize value) then Err TypeError else Ok st'
        | ids =>
            match categoryStack st' with
            | [c; s] =>
                exists subs list,
                  obj_get c (categorizedEmojiIds st') = Some subs
                  /\ obj_get s subs = Some list
                  /\ walk_step st' (Emoji value)
                     = Ok (set_walk st'
                             (fold_left (fun m i => obj_delete i m) ids
                                        (githubEmojiIdMap st'))
                             (obj_set c (obj_set s (list ++ [ids]) subs)
                                      (categorizedEmojiIds st'))
                             [c; s])
            | _ => walk_step st' (Emoji value) = Err TypeError
            end
        end).
Proof.
  intros Hwf P. destruct (partition_spec json st Hwf P) as [HG _].
  split; [exact HG|]. split; [|split].
  - intros value. unfold obj_lookup. rewrite (HG (normalize value)).
    destruct (ids_with literal_of (normalize value) json); reflexivity.
  - intros st' value. simpl. rewrite normalize_idempotent. reflexivity.
  - intros pre st' value W.
    destruct (walk_loop_partitions _ _ _ W) as [HA _].
    assert (Hs : stack_ok st').
    { apply (walk_loop_stack_ok pre st st'); [|exact W].
      destruct (partition_empty _ _ P) as [HC HS].
      unfold stack_ok. rewrite HS. exact HC. }
    pose proof (HG (normalize value)) as Hk. rewrite <- HA in Hk.
    destruct (ids_with literal_of (normalize value) json) as [|i ids].
    + cbn [nonempty_list] in Hk. cbn [walk_step]. unfold obj_lookup.
      rewrite Hk. destruct (inherited (normalize value)); reflexivity.
    + cbn [nonempty_list] in Hk.
      pose proof (matched_no_bucket st' value (i :: ids) Hs Hk) as Hn.
      unfold stack_ok in Hs.
      destruct (categoryStack st') as [|c [|s [|x stack]]] eqn:ES;
        try exact Hn.
      destruct Hs as [subs [list [HC HL]]]. exists subs, list.
      split; [exact HC|]. split; [exact HL|].
      apply (matched_step st' value c s (i :: ids) subs list Hk ES HC HL).
Qed.

Lemma partition_keyed_by_literal_witness :
  exists st,
    partition repeated_json = Ok st
    /\ obj_get (utf16 10084) (emojiLiteralToGithubEmojiIdsMap st)
       = Some [js "heart"]
    /\ for_of walk_step (firstn 2 repeated_records) st = Ok repeated_state
    /\ walk_step repeated_state (Emoji (utf16 10084 ++ utf16 65039))
       = Ok (set_walk repeated_state []
               [(js "Smileys & Emotion", [(js "Heart", [[js "heart"]])])]
               [js "Smileys & Emotion"; js "Heart"]).
Proof.
  assert (Hwf : obj_wf repeated_json = true) by (vm_compute; reflexivity).
  destruct (partition repeated_json) as [st|e] eqn:P;
    [|vm_compute in P; discriminate P].
  pose proof P as E. vm_compute in E. injection E as E.
  assert (W : for_of walk_step (firstn 2 repeated_records) st
              = Ok repeated_state)
    by (rewrite <- E; vm_compute; reflexivity).
  destruct (partition_keyed_by_literal repeated_json st Hwf P)
    as [H1 [_ [_ H4]]].
  exists st. split; [reflexivity|]. split; [|split; [exact W|]].
  - rewrite H1. vm_compute. reflexivity.
  - specialize (H4 _ _ (utf16 10084 ++ utf16 65039) W).
    assert (Hids : ids_with literal_of (normalize (utf16 10084 ++ utf16 65039))
                     repeated_json = [js "heart"])
      by (vm_compute; reflexivity).
    rewrite Hids in H4. cbn [repeated_state categoryStack] in H4.
    destruct H4 as [subs [list [HC [HL ->]]]].
    vm_compute in HC. injection HC as <-.
    vm_compute in HL. injection HL as <-.
    vm_compute. reflexivity.
Defined.

(** ** A matched group (C3) *)

(** C3, against the claim: the key stays in partition (a), and a second
    record with the same normalized key appends the group again. *)
Lemma group_appended_twice_counterexample :
  categorize repeated_json repeated_records
  = Ok [ (js "Smileys & Emotion",
          [ (js "Heart", [[js "heart"]; [js "heart"]]) ]) ].
Proof. vm_compute. reflexivity. Qed.

(** C3, amended: when the normalized key of an emoji record is in
    partition (a) and the current bucket exists, the whole group is
    appended to that bucket as one unit, its identifiers leave the
    identifier map, and nothing else changes: the other buckets, the stack
    and partition (a), which keeps the key for the rest of the loop. So
    the next emoji record with the same normalized key appends the group
    again, and so does every later one, whatever records come between, to
    the bucket that is current where it stands; where no category and
    subcategory are current, it throws a TypeError instead. *)
Theorem matched_group_appended (st : locals) (value c s : jsstring)
  (ids : list jsstring) (subs : obj (list (list jsstring)))
  (list : list (list jsstring)) :
  obj_get (normalize value) (emojiLiteralToGithubEmojiIdsMap st) = Some ids ->
  categoryStack st = [c; s] ->
  obj_get c (categorizedEmojiIds st) = Some subs ->
  obj_get s subs = Some list ->
  exists st' subs',
    walk_step st (Emoji value) = Ok st'
    /\ emojiLiteralToGithubEmojiIdsMap st' = emojiLiteralToGithubEmojiIdsMap st
    /\ categoryStack st' = [c; s]
    /\ obj_get c (categorizedEmojiIds st') = Some subs'
    /\ obj_get s subs' = Some (list ++ [ids])
    /\ (forall s', s' <> s -> obj_get s' subs' = obj_get s' subs)
    /\ (forall c', c' <> c -> obj_get c' (categorizedEmojiIds st')
                              = obj_get c' (categorizedEmojiIds st))
    /\ (forall id, In id (obj_keys (githubEmojiIdMap st'))
                   <-> In id (obj_keys (githubEmojiIdMap st)) /\ ~ In id ids)
    /\ (forall value',
          normalize value' = normalize value ->
          exists st'' subs'',
            walk_step st' (Emoji value') = Ok st''
            /\ obj_get c (categorizedEmojiIds st'') = Some subs''
            /\ obj_get s subs'' = Some (list ++ [ids] ++ [ids]))
    /\ (forall between later value',
          normalize value' = normalize value ->
          for_of walk_step between st' = Ok later ->
          obj_get (normalize value') (emojiLiteralToGithubEmojiIdsMap later)
          = Some ids
          /\ match categoryStack later with
             | [c'; s'] =>
                 exists subs0 list0 st'' subs'',
                   obj_get c' (categorizedEmojiIds later) = Some subs0
                   /\ obj_get s' subs0 = Some list0
                   /\ walk_step later (Emoji value') = Ok st''
                   /\ categoryStack st'' = [c'; s']
                   /\ obj_get c' (categorizedEmojiIds st'') = Some subs''
                   /\ obj_get s' subs'' = Some (list0 ++ [ids])
             | _ => walk_step later (Emoji value') = Err TypeError
             end).
Proof.
  intros HA HS HC HL.
  eexists. exists (obj_set s (list ++ [ids]) subs).
  split; [apply (matched_step st value c s ids subs list); assumption|].
  cbn [set_walk emojiLiteralToGithubEmojiIdsMap categoryStack
       categorizedEmojiIds githubEmojiIdMap].
  split; [reflexivity|]. split; [reflexivity|].
  split; [apply obj_get_set_same|]. split; [apply obj_get_set_same|].
  split; [intros s' Hs; apply obj_get_set_other; congruence|].
  split; [intros c' Hc; apply obj_get_set_other; congruence|].
  split; [intros id; apply delete_all_keys|]. split.
  - intros value' Hv. eexists. exists (obj_set s ((list ++ [ids]) ++ [ids])
                                        (obj_set s (list ++ [ids]) subs)).
    split.
    + apply matched_step; cbn [set_walk emojiLiteralToGithubEmojiIdsMap
                               categoryStack categorizedEmojiIds].
      * rewrite Hv; exact HA.
      * reflexivity.
      * apply obj_get_set_same.
      * apply obj_get_set_same.
    + cbn [set_walk categorizedEmojiIds].
      split; [apply obj_get_set_same|]. rewrite obj_get_set_same.
      rewrite <- app_assoc. reflexivity.
  - intros between later value' Hv W.
    match type of W with
    | for_of walk_step between ?s1 = _ => set (st1 := s1) in *
    end.
    assert (Hs1 : stack_ok st1).
    { apply (stack_ok_bucket st1 c s (obj_set s (list ++ [ids]) subs)
                             (list ++ [ids])).
      - reflexivity.
      - apply obj_get_set_same.
      - apply obj_get_set_same. }
    pose proof (walk_loop_stack_ok between st1 later Hs1 W) as Hs.
    destruct (walk_loop_partitions _ _ _ W) as [HA' _].
    assert (Hk : obj_get (normalize value')
                   (emojiLiteralToGithubEmojiIdsMap later) = Some ids)
      by (rewrite HA', Hv; exact HA).
    split; [exact Hk|].
    pose proof (matched_no_bucket later value' ids Hs Hk) as Hn.
    unfold stack_ok in Hs.
    destruct (categoryStack later) as [|c' [|s' [|x stack]]] eqn:ES;
      try exact Hn.
    destruct Hs as [subs0 [list0 [HC0 HL0]]].
    exists subs0, list0. eexists. exists (obj_set s' (list0 ++ [ids]) subs0).
    split; [exact HC0|]. split; [exact HL0|].
    split; [apply (matched_step later value' c' s' ids subs0 list0 Hk ES HC0 HL0)|].
    cbn [set_walk categoryStack categorizedEmojiIds].
    split; [reflexivity|].
    split; apply obj_get_set_same.
Qed.

Lemma matched_group_appended_witness :
  walk repeated_json (firstn 2 repeated_records) = Ok repeated_state
  /\ categorize repeated_json left_records = Err TypeError
  /\ exists st' subs',
       walk_step repeated_state (Emoji (utf16 10084 ++ utf16 65039)) = Ok st'
       /\ obj_get (js "Smileys & Emotion") (categorizedEmojiIds st') = Some subs'
       /\ obj_get (js "Heart") subs' = Some ([] ++ [[js "heart"]])
       /\ forall later,
            for_of walk_step [Category (js "Symbols")] st' = Ok later ->
            obj_get (utf16 10084) (emojiLiteralToGithubEmojiIdsMap later)
            = Some [js "heart"]
            /\ walk_step later (Emoji (utf16 10084)) = Err TypeError.
Proof.
  split; [vm_compute; reflexivity|]. split; [vm_compute; reflexivity|].
  assert (HA : obj_get (normalize (utf16 10084 ++ utf16 65039))
                 (emojiLiteralToGithubEmojiIdsMap repeated_state)
               = Some [js "heart"]) by (vm_compute; reflexivity).
  assert (HS : categoryStack repeated_state
               = [js "Smileys & Emotion"; js "Heart"]) by reflexivity.
  assert (HC : obj_get (js "Smileys & Emotion")
                 (categorizedEmojiIds repeated_state)
               = Some [(js "Heart", [])]) by (vm_compute; reflexivity).
  assert (HL : obj_get (js "Heart") [(js "Heart", @nil (list jsstring))]
               = Some []) by (vm_compute; reflexivity).
  destruct (matched_group_appended repeated_state
              (utf16 10084 ++ utf16 65039)
              (js "Smileys & Emotion") (js "Heart") [js "heart"]
              [(js "Heart", [])] [] HA HS HC HL)
    as [st' [subs' [H1 [_ [_ [H4 [H5 [_ [_ [_ [_ H10]]]]]]]]]]].
  exists st', subs'. split; [exact H1|]. split; [exact H4|].
  split; [exact H5|]. intros later W.
  destruct (H10 [Category (js "Symbols")] later (utf16 10084) eq_refl W)
    as [Hk Hm].
  split; [exact Hk|].
  cbn [for_of walk_step bind] in W. injection W as <-.
  exact Hm.
Defined.

(** ** The platform-specific identifiers (C7) *)

Lemma push_id_NoDup (k id : jsstring) (m m' : obj (list jsstring)) :
  NoDup (obj_keys m) -> push_id k id m = Ok m' -> NoDup (obj_keys m').
Proof.
  intros Hnd. unfold push_id.
  destruct (obj_get k _) as [ids|]; [|discriminate].
  intros [= <-]. apply obj_set_NoDup.
  destruct (obj_lookup k m); auto. apply obj_set_NoDup; exact Hnd.
Qed.

Lemma partition_NoDup (json : obj jsstring) (st : locals) :
  partition json = Ok st ->
  NoDup (obj_keys (emojiLiteralToGithubEmojiIdsMap st))
  /\ NoDup (obj_keys (githubSpecificEmojiUriToGithubEmojiIdsMap st)).
Proof.
  unfold partition. destruct (getGithubEmojiIdMap json) as [idMap|]; simpl;
    [|discriminate].
  apply (for_of_invariant
           (fun s => NoDup (obj_keys (emojiLiteralToGithubEmojiIdsMap s))
                     /\ NoDup (obj_keys (githubSpecificEmojiUriToGithubEmojiIdsMap s)))).
  - intros s [id [l|u]] s' _ [H1 H2]; simpl.
    + destruct (push_id _ _ _) as [m|] eqn:E; simpl; [|discriminate].
      intros [= <-]. simpl. split; [|exact H2].
      eapply push_id_NoDup; [|exact E]. exact H1.
    + destruct (push_id _ _ _) as [m|] eqn:E; simpl; [|discriminate].
      intros [= <-]. simpl. split; [exact H1|].
      eapply push_id_NoDup; [|exact E]. exact H2.
  - simpl. split; constructor.
Qed.

(** The values of a grouping are the groups of its keys. *)
Lemma groups_by_values {V} (sel : V -> option jsstring) (o : obj V)
  (m : obj (list jsstring)) :
  NoDup (obj_keys m) -> groups_by sel o m ->
  map snd m = map (fun k => ids_with sel k o) (obj_keys m).
Proof.
  intros Hnd HG. unfold obj_keys. rewrite map_map. apply map_ext_in.
  intros [k v] Hin. simpl. apply (In_obj_get _ _ _ Hnd) in Hin.
  rewrite HG in Hin. destruct (ids_with sel k o); [discriminate|].
  injection Hin as <-. reflexivity.
Qed.

Lemma groups_by_key {V} (sel : V -> option jsstring) (o : obj V)
  (m : obj (list jsstring)) (k : jsstring) :
  groups_by sel o m ->
  In k (obj_keys m) <-> exists id v, In (id, v) o /\ sel v = Some k.
Proof.
  intros HG. rewrite <- obj_has_true. unfold obj_has. rewrite HG. split.
  - destruct (ids_with sel k o) as [|id ids] eqn:E; [discriminate|].
    intros _. assert (H : In id (ids_with sel k o)) by (rewrite E; left; auto).
    apply ids_with_In in H as [v H]. eauto.
  - intros [id [v [H1 H2]]].
    assert (H : In id (ids_with sel k o)) by (apply ids_with_In; eauto).
    destruct (ids_with sel k o); [destruct H | reflexivity].
Qed.

Lemma has_custom_true (json : obj jsstring) :
  has_custom json = true <-> exists id url u, In (id, url) json /\ uri_of url = Some u.
Proof.
  unfold has_custom. rewrite existsb_exists. split.
  - intros [[id url] [H1 H2]]. simpl in H2.
    destruct (uri_of url) as [u|] eqn:E; [eauto | discriminate].
  - intros [id [url [u [H1 H2]]]]. exists (id, url); split; [exact H1|].
    simpl. rewrite H2. reflexivity.
Qed.

Lemma literal_or_uri (url l u : jsstring) :
  literal_of url = Some l -> uri_of url = Some u -> False.
Proof.
  unfold literal_of, uri_of. destruct (decode url) as [[?|?]|]; discriminate.
Qed.

Lemma first_seen_from (l acc : list jsstring) (k : jsstring) :
  In k (fold_left (fun acc k => if existsb (str_eqb k) acc then acc
                                else acc ++ [k]) l acc)
  <-> In k acc \/ In k l.
Proof.
  revert acc. induction l as [|x l IH]; intros acc; simpl; [tauto|].
  rewrite IH. destruct (existsb (str_eqb x) acc) eqn:E.
  - apply existsb_str_eqb in E. split; [tauto|].
    intros [H|[<-|H]]; auto.
  - rewrite in_app_iff. simpl. tauto.
Qed.

Lemma first_seen_In (l : list jsstring) (k : jsstring) :
  In k (first_seen l) <-> In k l.
Proof. unfold first_seen. rewrite first_seen_from. simpl. tauto. Qed.

Lemma filter_none {A} (p : A -> bool) (l : list A) :
  (forall x, In x l -> p x = false) -> filter p l = [].
Proof.
  induction l as [|x l IH]; intros H; simpl; [reflexivity|].
  rewrite (H x (or_introl eq_refl)). apply IH.
  intros y Hy; apply H; right; exact Hy.
Qed.

Lemma own_property_order_no_index (seen ks : list jsstring) :
  forallb (fun k => negb (is_index k)) seen = true ->
  own_property_order seen ks -> ks = first_seen seen.
Proof.
  intros Hn [idx [-> [Hp _]]].
  assert (Hfs : forall k, In k (first_seen seen) -> is_index k = false).
  { intros k Hk. apply (proj1 (first_seen_In _ _)) in Hk.
    rewrite forallb_forall in Hn. apply negb_true_iff, Hn. exact Hk. }
  rewrite (filter_none _ _ Hfs) in Hp.
  apply Permutation_sym, Permutation_nil in Hp. subst idx. simpl.
  apply filter_all. rewrite Forall_forall. intros k Hk.
  rewrite (Hfs k Hk). reflexivity.
Qed.

Lemma walk_step_categories (st st' : locals) (r : record) :
  walk_step st r = Ok st' ->
  forall c, In c (obj_keys (categorizedEmojiIds st')) ->
            In c (obj_keys (categorizedEmojiIds st))
            \/ In c (category_titles [r]).
Proof.
  destruct r as [v|v|v|ty v]; simpl.
  - intros [= <-] c. simpl. rewrite obj_keys_set. intros [->|H]; auto.
  - destruct (obj_get _ (categorizedEmojiIds st)) as [subs|] eqn:G;
      [|discriminate].
    intros [= <-] c. simpl. rewrite obj_keys_set. intros [->|H]; auto.
    left. eapply obj_get_key; eauto.
  - destruct (obj_lookup _ _); try discriminate; [|intros [= <-]; auto].
    destruct (obj_get _ (categorizedEmojiIds st)) as [subs|] eqn:G;
      [|discriminate].
    destruct (obj_get _ subs); [|discriminate].
    intros [= <-] c. simpl. rewrite obj_keys_set. intros [->|H]; auto.
    left. eapply obj_get_key; eauto.
  - discriminate.
Qed.

Lemma walk_loop_categories (records : list record) (st st' : locals) :
  for_of walk_step records st = Ok st' ->
  forall c, In c (obj_keys (categorizedEmojiIds st')) ->
            In c (obj_keys (categorizedEmojiIds st))
            \/ In c (category_titles records).
Proof.
  revert st. induction records as [|r rs IH]; intros st; cbn [for_of].
  - intros [= <-]; auto.
  - destruct (walk_step st r) as [s1|] eqn:E; cbn [bind]; [|discriminate].
    intros H c Hc. apply (IH _ H) in Hc.
    change (r :: rs) with ([r] ++ rs). unfold category_titles.
    rewrite flat_map_app. fold (category_titles [r]) (category_titles rs).
    rewrite in_app_iff. destruct Hc as [Hc|Hc]; [|auto].
    apply (walk_step_categories _ _ _ E) in Hc. tauto.
Qed.

(** C7, against the claim: a grouping key that is a numeral is enumerated
    before the keys observed before it. *)
Lemma first_observed_order_counterexample :
  map (fun k => ids_with uri_of k numeral_json)
      (first_seen (keys_by uri_of numeral_json))
  = [[js "octocat"]; [js "one"]]
  /\ categorize numeral_json []
     = Ok [ (custom_title, [ ([], [[js "one"]; [js "octocat"]]) ]) ].
Proof. split; vm_compute; reflexivity. Qed.

(** C7, amended: when a taxonomy is returned and some identifier is
    platform-specific, the taxonomy has the category "GitHub Custom Emoji"
    with the one subcategory of empty title, whose list is the groups of
    the platform-specific identifiers by grouping key, the identifiers of
    a group in the order of enumeration and the groups in the own-property
    order of their keys: the keys that are array indices first, ascending,
    then the others in the order they were first observed (so in that
    order throughout when no key is an array index). Under the other
    categories stand only identifiers with a literal. With no
    platform-specific identifier the taxonomy is the pruned one of the
    loop, with no such category unless the stream names one. *)
Theorem custom_category (json : obj jsstring) (records : list record)
  (t : obj (obj (list (list jsstring)))) :
  obj_wf json = true -> categorize json records = Ok t ->
  (has_custom json = true ->
     exists ks,
       own_property_order (keys_by uri_of json) ks
       /\ (forallb (fun k => negb (is_index k)) (keys_by uri_of json) = true ->
           ks = first_seen (keys_by uri_of json))
       /\ obj_get custom_title t
          = Some [([], map (fun k => ids_with uri_of k json) ks)])
  /\ (forall c subs s gs g id,
        In (c, subs) t -> c <> custom_title -> In (s, gs) subs -> In g gs ->
        In id g ->
        In id (keyed literal_of json) /\ ~ In id (keyed uri_of json))
  /\ (has_custom json = false ->
        (exists st, walk json records = Ok st
                    /\ t = pruned (categorizedEmojiIds st))
        /\ (~ In custom_title (category_titles records) ->
            obj_get custom_title t = None)).
Proof.
  intros Hwf Hc. apply categorize_Ok in Hc as [st [Hw Hf]].
  pose proof Hw as Hw'.
  apply walk_Ok in Hw' as [st0 [P [W [HT [Hok [HF [HA [HB HS]]]]]]]].
  apply (finish_Ok _ _ Hok) in Hf as [_ ->].
  destruct (partition_spec json st0 Hwf P) as [HGA [HGB [HO [HC0 _]]]].
  destruct (partition_NoDup json st0 P) as [_ HNB].
  rewrite HB in *. rewrite HA in HF.
  split; [|split].
  - intros Hcu. set (B := githubSpecificEmojiUriToGithubEmojiIdsMap st0) in *.
    exists (obj_keys B). split; [exact HO|].
    split; [intros Hn; apply own_property_order_no_index; assumption|].
    assert (Hne : exists k ks, obj_keys B = k :: ks).
    { apply has_custom_true in Hcu as [id [url [u [H1 H2]]]].
      assert (Hin : In u (obj_keys B))
        by (apply (groups_by_key _ _ _ _ HGB); eauto).
      destruct (obj_keys B); [destruct Hin | eauto]. }
    destruct Hne as [k [ks Ek]].
    unfold add_custom. rewrite Ek, obj_get_set_same.
    rewrite (groups_by_values _ _ _ HNB HGB), Ek. reflexivity.
  - intros c subs s gs g id Hin Hne Hs Hg Hid.
    apply add_custom_In in Hin as [[_ [E _]]|Hin]; [congruence|].
    apply pruned_In in Hin as [_ [subs0 [Hin ->]]].
    apply filter_In in Hs as [Hs _].
    destruct (HF _ _ _ _ _ Hin Hs Hg) as [k Hk].
    rewrite HGA in Hk.
    assert (Hid' : In id (ids_with literal_of k json)).
    { destruct (ids_with literal_of k json); [discriminate|].
      injection Hk as <-. exact Hid. }
    apply ids_with_In in Hid' as [url [H1 H2]].
    split; [apply keyed_In; eauto|].
    intros Hcu. apply keyed_In in Hcu as [url' [u [H1' H2']]].
    rewrite (json_functional _ _ _ _ Hwf H1' H1) in H2'.
    eapply literal_or_uri; eauto.
  - intros Hcu.
    assert (E : githubSpecificEmojiUriToGithubEmojiIdsMap st0 = []).
    { remember (githubSpecificEmojiUriToGithubEmojiIdsMap st0) as B eqn:EB.
      destruct B as [|[k v] m]; [reflexivity|]. exfalso.
      destruct (proj1 (groups_by_key _ _ _ k HGB) (or_introl eq_refl))
        as [id [url [H1 H2]]].
      assert (Ht : has_custom json = true) by (apply has_custom_true; eauto).
      congruence. }
    rewrite E. unfold add_custom. simpl. split; [eauto|].
    intros Hn. apply obj_get_None. apply pruned_keys_absent.
    intros Hin. apply (walk_loop_categories _ _ _ W) in Hin as [Hin|Hin].
    + rewrite HC0 in Hin. exact Hin.
    + exact (Hn Hin).
Qed.

Lemma custom_category_witness :
  obj_get custom_title example_taxonomy = Some [([], [[js "octocat"]])].
Proof.
  assert (Hwf : obj_wf example_json = true) by (vm_compute; reflexivity).
  assert (Hc : categorize example_json example_records = Ok example_taxonomy)
    by (vm_compute; reflexivity).
  assert (Hcu : has_custom example_json = true) by (vm_compute; reflexivity).
  assert (Hn : forallb (fun k => negb (is_index k))
                 (keys_by uri_of example_json) = true)
    by (vm_compute; reflexivity).
  destruct (proj1 (custom_category example_json example_records
                     example_taxonomy Hwf Hc) Hcu)
    as [ks [_ [Hks H]]].
  rewrite H, (Hks Hn). vm_compute. reflexivity.
Defined.

(** ** No loss, no duplication (C1) *)

Lemma concat_flat_map_concat {A B} (f : A -> list (list B)) (l : list A) :
  concat (flat_map f l) = flat_map (fun x => concat (f x)) l.
Proof.
  induction l as [|x l IH]; simpl; [reflexivity|].
  rewrite concat_app, IH. reflexivity.
Qed.

Lemma identifiers_flat (t : obj (obj (list (list jsstring)))) :
  identifiers t = flat_map ids_of_category t.
Proof.
  unfold identifiers, groups_of. rewrite concat_flat_map_concat.
  apply flat_map_ext. intros c. unfold ids_of_category.
  apply concat_flat_map_concat.
Qed.

Lemma flat_map_filter_nil {A B} (f : A -> list B) (p : A -> bool)
  (l : list A) :
  (forall x, p x = false -> f x = []) ->
  flat_map f (filter p l) = flat_map f l.
Proof.
  intros H. induction l as [|x l IH]; simpl; [reflexivity|].
  destruct (p x) eqn:E; simpl; rewrite IH; [reflexivity|].
  rewrite (H x E). reflexivity.
Qed.

(** The pruning takes no identifier away. *)
Lemma identifiers_pruned (t : obj (obj (list (list jsstring)))) :
  identifiers (pruned t) = identifiers t.
Proof.
  rewrite !identifiers_flat. unfold pruned.
  rewrite flat_map_filter_nil.
  - rewrite flat_map_concat_map, map_map, <- flat_map_concat_map.
    apply flat_map_ext. intros [c subs]. unfold ids_of_category. simpl.
    apply flat_map_filter_nil. intros [s gs]. unfold has_groups. simpl.
    destruct gs; [reflexivity | discriminate].
  - intros [c subs]. unfold has_groups, ids_of_category. simpl.
    destruct subs; [reflexivity | discriminate].
Qed.

(** A group has each of its identifiers once. *)
Lemma NoDup_ids_with {V} (sel : V -> option jsstring) (k : jsstring)
  (o : obj V) :
  NoDup (obj_keys o) -> NoDup (ids_with sel k o).
Proof.
  unfold ids_with, obj_keys.
  induction o as [|[i v] o IH]; simpl; intros Hnd; [constructor|].
  apply NoDup_cons_iff in Hnd as [Hi Hnd].
  destruct (opt_is (sel v) k); simpl; [|apply IH; exact Hnd].
  apply NoDup_cons; [|apply IH; exact Hnd].
  intros Hin. apply Hi. apply in_map_iff in Hin as [e [<- He]].
  apply filter_In in He as [He _]. apply in_map; exact He.
Qed.

Lemma ids_with_functional {V} (sel : V -> option jsstring) (k k' id : jsstring)
  (o : obj V) :
  NoDup (obj_keys o) ->
  In id (ids_with sel k o) -> In id (ids_with sel k' o) -> k = k'.
Proof.
  intros Hnd H H'. apply ids_with_In in H as [v [H1 H2]].
  apply ids_with_In in H' as [v' [H1' H2']].
  rewrite (NoDup_keys_functional _ _ _ _ Hnd H1 H1') in H2. congruence.
Qed.

(** The groups of distinct keys share no identifier. *)
Lemma NoDup_flat_ids_with {V} (sel : V -> option jsstring) (o : obj V)
  (ks : list jsstring) :
  NoDup (obj_keys o) -> NoDup ks ->
  NoDup (flat_map (fun k => ids_with sel k o) ks).
Proof.
  intros Hnd. induction 1 as [|k ks Hk Hks IH]; simpl; [constructor|].
  apply NoDup_app; [apply NoDup_ids_with; exact Hnd | exact IH|].
  intros id H H'. apply in_flat_map in H' as [k' [Hk' H']].
  rewrite (ids_with_functional _ _ _ _ _ Hnd H H') in Hk. exact (Hk Hk').
Qed.

Lemma Forall2_In_l {A B} (R : A -> B -> Prop) (l : list A) (l' : list B)
  (x : A) :
  Forall2 R l l' -> In x l -> exists y, In y l' /\ R x y.
Proof.
  induction 1 as [|a b l l' H _ IH]; simpl; [intros []|].
  intros [<-|Hin]; [eauto|]. destruct (IH Hin) as [y [H1 H2]]; eauto.
Qed.

(** Once the partitions are made, every locator has decoded. *)
Lemma partition_decoded (json : obj jsstring) (st : locals)
  (id url : jsstring) :
  obj_wf json = true -> partition json = Ok st -> In (id, url) json ->
  (exists l, literal_of url = Some l) \/ (exists u, uri_of url = Some u).
Proof.
  intros Hwf P Hin. unfold partition in P.
  destruct (getGithubEmojiIdMap json) as [idMap|] eqn:E; [|discriminate].
  pose proof (getGithubEmojiIdMap_entries _ _ Hwf E) as F.
  destruct (Forall2_In_l _ _ _ _ F Hin) as [[id' lit] [_ [_ Hd]]].
  simpl in Hd. unfold literal_of, uri_of. rewrite Hd.
  destruct lit; eauto.
Qed.

Lemma stack_head (c title : jsstring) (rest : list jsstring) :
  exists tail,
    (if (1 <? length (c :: rest))%nat then removelast (c :: rest)
     else c :: rest) ++ [title] = c :: tail.
Proof.
  destruct rest as [|r rest]; [exists [title]; reflexivity|].
  exists (removelast (r :: rest) ++ [title]). reflexivity.
Qed.

(** What a bucket gains, the taxonomy gains. *)
Lemma identifiers_set_bucket (cats : obj (obj (list (list jsstring))))
  (c : jsstring) (subs subs' : obj (list (list jsstring)))
  (extra : list jsstring) :
  obj_get c cats = Some subs ->
  Permutation (ids_of_category (c, subs')) (extra ++ ids_of_category (c, subs)) ->
  Permutation (identifiers (obj_set c subs' cats)) (extra ++ identifiers cats).
Proof.
  intros HC HP. rewrite !identifiers_flat.
  pose proof (flat_map_set_old ids_of_category c subs' subs cats HC) as H.
  apply (Permutation_app_inv_l (ids_of_category (c, subs))).
  etransitivity; [exact H|].
  etransitivity; [apply Permutation_app_tail; exact HP|].
  rewrite <- app_assoc.
  etransitivity; [apply Permutation_app_swap_app|]. reflexivity.
Qed.

Lemma bucket_set_new (subs : obj (list (list jsstring))) (c s : jsstring) :
  obj_get s subs = None ->
  Permutation (ids_of_category (c, obj_set s [] subs))
              ([] ++ ids_of_category (c, subs)).
Proof.
  intros H. unfold ids_of_category. simpl.
  apply (flat_map_set_new (fun s => concat (snd s)) s [] subs H).
Qed.

Lemma bucket_set_push (subs : obj (list (list jsstring))) (c s : jsstring)
  (bucket : list (list jsstring)) (ids : list jsstring) :
  obj_get s subs = Some bucket ->
  Permutation (ids_of_category (c, obj_set s (bucket ++ [ids]) subs))
              (ids ++ ids_of_category (c, subs)).
Proof.
  intros H. unfold ids_of_category. cbn [snd].
  pose proof (flat_map_set_old (fun s => concat (snd s)) s (bucket ++ [ids])
                bucket subs H) as HP.
  cbn [snd] in HP. rewrite concat_app in HP. simpl in HP.
  rewrite app_nil_r in HP.
  apply (Permutation_app_inv_l (concat bucket)).
  etransitivity; [exact HP|].
  rewrite <- app_assoc. apply Permutation_app_head.
  reflexivity.
Qed.

Lemma separated_key_fresh (cats : obj (obj (list (list jsstring))))
  (cs reserved : list jsstring) (title : jsstring) :
  incl reserved cs ->
  (forall c, In c (obj_keys cats) -> In c cs /\ ~ In c reserved) ->
  existsb (str_eqb title) cs = false ->
  obj_get title cats = None /\ ~ In title reserved.
Proof.
  intros Hr Hk Hn. apply not_existsb_str_eqb in Hn. split.
  - apply obj_get_None. intros H. apply Hk in H. tauto.
  - intros H. apply Hn. apply Hr; exact H.
Qed.

(** One record of a well-separated stream. *)
Lemma walk_step_separated (json : obj jsstring)
  (reserved cs ss ks : list jsstring) (st st' : locals) (r : record)
  (rs : list record) :
  obj_wf json = true ->
  walk_separated json reserved cs ss ks st ->
  separated (has_literal json) cs ss ks (r :: rs) = true ->
  walk_step st r = Ok st' ->
  exists cs' ss' ks',
    walk_separated json reserved cs' ss' ks' st'
    /\ separated (has_literal json) cs' ss' ks' rs = true.
Proof.
  intros Hwf [HR [HK [HS [HN [HM [HI HG]]]]]] Hsep Hstep.
  pose proof (js_ordered_NoDup _ Hwf) as Hnd.
  destruct r as [v|v|v|ty v]; cbn [separated walk_step] in *.
  - (* a category *)
    apply andb_true_iff in Hsep as [Hfresh Hsep].
    apply negb_true_iff in Hfresh.
    destruct (separated_key_fresh _ _ _ _ HR HK Hfresh) as [Hget Hres].
    injection Hstep as <-.
    exists (toTitleCase v :: cs), [], ks. split; [|exact Hsep].
    assert (HP : Permutation
                   (identifiers (obj_set (toTitleCase v) [] (categorizedEmojiIds st)))
                   (identifiers (categorizedEmojiIds st))).
    { rewrite !identifiers_flat.
      apply (flat_map_set_new ids_of_category _ [] _ Hget). }
    unfold walk_separated. cbn [set_walk categorizedEmojiIds categoryStack
      githubEmojiIdMap emojiLiteralToGithubEmojiIdsMap].
    refine (conj _ (conj _ (conj _ (conj _ (conj _ (conj HI HG)))))).
    + apply incl_tl; exact HR.
    + intros c Hc. apply obj_keys_set in Hc as [->|Hc].
      * split; [left; reflexivity | exact Hres].
      * destruct (HK c Hc); split; [right|]; assumption.
    + exists []. split; [apply obj_get_set_same | intros x []].
    + apply (Permutation_NoDup (Permutation_sym HP)); exact HN.
    + intros id. rewrite <- HM. split; apply Permutation_in;
        [exact HP | exact (Permutation_sym HP)].
  - (* a subcategory *)
    apply andb_true_iff in Hsep as [Hfresh Hsep].
    apply negb_true_iff, not_existsb_str_eqb in Hfresh.
    destruct (categoryStack st) as [|c rest] eqn:Est.
    { rewrite HS in Hstep. simpl in Hstep. discriminate. }
    destruct HS as [subs [Hc Hss]].
    destruct (stack_head c (toTitleCase v) rest) as [tail Etail].
    rewrite Etail in Hstep. cbn [nth_error property_key] in Hstep.
    rewrite Hc in Hstep. injection Hstep as <-.
    exists cs, (toTitleCase v :: ss), ks. split; [|exact Hsep].
    assert (Hget : obj_get (toTitleCase v) subs = None).
    { apply obj_get_None. intros H. apply Hfresh. apply Hss; exact H. }
    assert (HP : Permutation
                   (identifiers (obj_set c (obj_set (toTitleCase v) [] subs)
                                         (categorizedEmojiIds st)))
                   ([] ++ identifiers (categorizedEmojiIds st))).
    { apply identifiers_set_bucket with (subs := subs); [exact Hc|].
      apply bucket_set_new; exact Hget. }
    simpl in HP.
    unfold walk_separated. cbn [set_walk categorizedEmojiIds categoryStack
      githubEmojiIdMap emojiLiteralToGithubEmojiIdsMap].
    refine (conj HR (conj _ (conj _ (conj _ (conj _ (conj HI HG)))))).
    + intros c' Hc'. apply HK. rewrite (obj_keys_set_old _ _ _ _ Hc) in Hc'.
      exact Hc'.
    + exists (obj_set (toTitleCase v) [] subs).
      split; [apply obj_get_set_same|].
      intros x Hx. apply obj_keys_set in Hx as [->|Hx];
        [left; reflexivity | right; apply Hss; exact Hx].
    + apply (Permutation_NoDup (Permutation_sym HP)); exact HN.
    + intros id. rewrite <- HM. split; apply Permutation_in;
        [exact HP | exact (Permutation_sym HP)].
  - (* an emoji *)
    unfold obj_lookup in Hstep. rewrite (HG (normalize v)) in Hstep.
    destruct (has_literal json (normalize v)) eqn:Hlit.
    + apply andb_true_iff in Hsep as [Hfresh Hsep].
      apply negb_true_iff, not_existsb_str_eqb in Hfresh.
      destruct (has_literal_ids _ _ Hlit) as [i [ids Eids]].
      rewrite Eids in Hstep. cbn [nonempty_list] in Hstep.
      destruct (categoryStack st) as [|c rest] eqn:Est.
      { rewrite HS in Hstep. simpl in Hstep. discriminate. }
      destruct HS as [subs [Hc Hss]].
      cbn [nth_error property_key] in Hstep. rewrite Hc in Hstep.
      destruct (obj_get _ subs) as [bucket|] eqn:Hl; [|discriminate].
      injection Hstep as <-. rewrite <- Eids in *.
      set (sub := property_key (nth_error rest 0)) in *.
      exists cs, ss, (normalize v :: ks). split; [|exact Hsep].
      assert (HP : Permutation
                     (identifiers
                        (obj_set c
                           (obj_set sub
                              (bucket ++ [ids_with literal_of (normalize v) json])
                              subs)
                           (categorizedEmojiIds st)))
                     (ids_with literal_of (normalize v) json
                        ++ identifiers (categorizedEmojiIds st))).
      { apply identifiers_set_bucket with (subs := subs); [exact Hc|].
        apply bucket_set_push; exact Hl. }
      unfold walk_separated. cbn [set_walk categorizedEmojiIds categoryStack
        githubEmojiIdMap emojiLiteralToGithubEmojiIdsMap].
      refine (conj HR (conj _ (conj _ (conj _ (conj _ (conj _ HG)))))).
      * intros c' Hc'. apply HK.
        rewrite (obj_keys_set_old _ _ _ _ Hc) in Hc'. exact Hc'.
      * eexists. split; [apply obj_get_set_same|].
        rewrite (obj_keys_set_old _ _ _ _ Hl). exact Hss.
      * apply (Permutation_NoDup (Permutation_sym HP)).
        apply NoDup_app; [apply NoDup_ids_with; exact Hnd | exact HN|].
        intros id H H'. apply HM in H' as [k [Hk H']].
        rewrite (ids_with_functional _ _ _ _ _ Hnd H H') in Hfresh.
        exact (Hfresh Hk).
      * intros id. split.
        -- intros H. apply (Permutation_in _ HP) in H.
           apply in_app_iff in H as [H|H].
           ++ exists (normalize v); split; [left; reflexivity | exact H].
           ++ apply HM in H as [k [Hk H]]. exists k; split; [right|]; assumption.
        -- intros [k [[<-|Hk] H]];
             apply (Permutation_in _ (Permutation_sym HP)); apply in_app_iff.
           ++ left; exact H.
           ++ right. apply HM. eauto.
      * intros id Hid Hn. rewrite delete_all_keys in Hn.
        destruct (in_dec (list_eq_dec N.eq_dec) id
                    (ids_with literal_of (normalize v) json)) as [Hin|Hout].
        -- exists (normalize v); split; [left; reflexivity | exact Hin].
        -- rewrite obj_keys_delete in Hn. rewrite Eids in Hout.
           destruct (HI id Hid) as [k [Hk H]].
           { intros Hkeep. apply Hn. split.
             - split; [exact Hkeep|]. intros ->. apply Hout. left; reflexivity.
             - intros Hx. apply Hout. right; exact Hx. }
           exists k; split; [right|]; assumption.
    + rewrite (not_has_literal_ids _ _ Hlit) in Hstep.
      cbn [nonempty_list] in Hstep.
      destruct (inherited _); [discriminate|]. injection Hstep as <-.
      exists cs, ss, ks. split; [|exact Hsep].
      unfold walk_separated.
      refine (conj HR (conj HK (conj _ (conj HN (conj HM (conj HI HG)))))).
      destruct (categoryStack st); exact HS.
  - discriminate.
Qed.

Lemma walk_loop_separated (json : obj jsstring) (reserved : list jsstring)
  (records : list record) :
  obj_wf json = true ->
  forall cs ss ks st st',
    walk_separated json reserved cs ss ks st ->
    separated (has_literal json) cs ss ks records = true ->
    for_of walk_step records st = Ok st' ->
    exists cs' ss' ks', walk_separated json reserved cs' ss' ks' st'.
Proof.
  intros Hwf. induction records as [|r rs IH]; intros cs ss ks st st' HW Hsep;
    cbn [for_of].
  - intros [= <-]. eauto.
  - destruct (walk_step st r) as [s1|] eqn:E; cbn [bind]; [|discriminate].
    destruct (walk_step_separated _ _ _ _ _ _ _ _ _ Hwf HW Hsep E)
      as [cs' [ss' [ks' [HW' Hsep']]]].
    apply (IH _ _ _ _ _ HW' Hsep').
Qed.

(** C1, against the claim: a subcategory title that comes again empties the
    bucket, and the identifier filed there is in no group of the taxonomy
    returned. *)
Lemma identifier_lost_counterexample :
  exists t,
    categorize repeated_json renamed_records = Ok t
    /\ obj_keys repeated_json = [js "heart"]
    /\ identifiers t = []
    /\ ~ Permutation (identifiers t) (obj_keys repeated_json).
Proof.
  exists []. split; [vm_compute; reflexivity|].
  split; [reflexivity|]. split; [reflexivity|].
  intros H. apply Permutation_nil in H. discriminate H.
Qed.

(** C1, amended: when a taxonomy is returned for a stream in which no
    category title comes twice nor is "GitHub Custom Emoji" while there are
    platform-specific identifiers, no subcategory title comes twice within
    a category, and no two emoji records whose key is in partition (a) have
    the same normalized key, the identifiers of its groups are the
    identifiers of the response, each exactly once. *)
Theorem no_loss_no_duplication (json : obj jsstring) (records : list record)
  (t : obj (obj (list (list jsstring)))) :
  obj_wf json = true -> well_separated json records = true ->
  categorize json records = Ok t ->
  Permutation (identifiers t) (obj_keys json).
Proof.
  intros Hwf Hsep Hc. apply categorize_Ok in Hc as [st [Hw Hf]].
  pose proof Hw as Hw'.
  apply walk_Ok in Hw' as [st0 [P [W [_ [Hok [_ [_ [HB _]]]]]]]].
  apply (finish_Ok _ _ Hok) in Hf as [Hempty ->].
  destruct (partition_spec json st0 Hwf P) as [HGA [HGB [_ [HC0 [HS0 HI0]]]]].
  destruct (partition_NoDup json st0 P) as [_ HNB].
  pose proof (js_ordered_NoDup _ Hwf) as Hnd.
  rewrite HB in *.
  set (reserved := if has_custom json then [custom_title] else []) in *.
  assert (HW0 : walk_separated json reserved reserved [] [] st0).
  { unfold walk_separated. rewrite HC0, HS0.
    refine (conj (incl_refl _) (conj _ (conj eq_refl (conj _ (conj _ (conj _ HGA)))))).
    - intros c [].
    - constructor.
    - intros id. split; [intros [] | intros [k [[] _]]].
    - intros id Hid Hn. exfalso. apply Hn. apply HI0. exact Hid. }
  destruct (walk_loop_separated json reserved records Hwf _ _ _ _ _ HW0 Hsep W)
    as [cs [ss [ks [HR [HK [_ [HN [HM [HI _]]]]]]]]].
  set (B := githubSpecificEmojiUriToGithubEmojiIdsMap st0) in *.
  set (cats := categorizedEmojiIds st) in *.
  (* the identifiers of the taxonomy returned *)
  assert (Hids : Permutation (identifiers (add_custom B (pruned cats)))
                             (concat (map snd B) ++ identifiers cats)).
  { unfold add_custom. destruct (obj_keys B) as [|k0 ks0] eqn:Ek.
    - destruct B; [|discriminate]. simpl. rewrite identifiers_pruned.
      reflexivity.
    - assert (Hcu : has_custom json = true).
      { apply has_custom_true.
        assert (Hin : In k0 (obj_keys B)) by (rewrite Ek; left; reflexivity).
        apply (groups_by_key _ _ _ _ HGB) in Hin as [id [url [H1 H2]]]. eauto. }
      assert (Hget : obj_get custom_title (pruned cats) = None).
      { apply obj_get_None. apply pruned_keys_absent. intros Hin.
        apply HK in Hin as [_ Hin]. apply Hin. unfold reserved.
        rewrite Hcu. left; reflexivity. }
      rewrite identifiers_flat.
      etransitivity;
        [apply (flat_map_set_new ids_of_category _ _ _ Hget)|].
      rewrite <- identifiers_flat, identifiers_pruned.
      unfold ids_of_category. simpl. rewrite !app_nil_r. reflexivity. }
  etransitivity; [exact Hids|].
  rewrite (groups_by_values _ _ _ HNB HGB), <- flat_map_concat_map.
  apply NoDup_Permutation.
  - apply NoDup_app; [apply NoDup_flat_ids_with; assumption | exact HN|].
    intros id H H'. apply in_flat_map in H as [u [_ H]].
    apply HM in H' as [k [_ H']].
    apply ids_with_In in H as [url [H1 H2]].
    apply ids_with_In in H' as [url' [H1' H2']].
    rewrite (json_functional _ _ _ _ Hwf H1 H1') in H2.
    eapply literal_or_uri; eauto.
  - exact Hnd.
  - intros id. rewrite in_app_iff, in_flat_map, HM. split.
    + intros [[u [_ H]]|[k [_ H]]]; apply ids_with_In in H as [url [H _]];
        apply In_obj_keys; eauto.
    + intros Hin. apply In_obj_keys in Hin as [url Hin].
      destruct (partition_decoded json st0 id url Hwf P Hin) as [[l Hl]|[u Hu]].
      * right. apply HI; [apply keyed_In; eauto|].
        rewrite Hempty. intros [].
      * left. exists u. split; [|apply ids_with_In; eauto].
        apply (groups_by_key _ _ _ _ HGB). eauto.
Qed.

Lemma no_loss_no_duplication_witness :
  Permutation (identifiers example_taxonomy) (obj_keys example_json).
Proof.
  apply (no_loss_no_duplication example_json example_records).
  - vm_compute. reflexivity.
  - vm_compute. reflexivity.
  - vm_compute. reflexivity.
Defined.

(** * Further properties of the code *)

(** ** [toTitleCase] *)

Lemma alpha_not_space (c : N) : is_alpha c = true -> is_space c = false.
Proof.
  unfold is_alpha, is_lower, is_upper, is_space. intros H.
  repeat match goal with
  | H : context [?a <=? ?b] |- _ =>
      let E := fresh in destruct (a <=? b) eqn:E;
      rewrite ?N.leb_le, ?N.leb_gt in E
  end; simpl in H; try discriminate H;
  repeat match goal with
  | |- context [?a <=? ?b] =>
      let E := fresh in destruct (a <=? b) eqn:E;
      rewrite ?N.leb_le, ?N.leb_gt in E; try lia
  | |- context [?a =? ?b] =>
      let E := fresh in destruct (a =? b) eqn:E;
      rewrite ?N.eqb_eq, ?N.eqb_neq in E; try lia
  end; reflexivity.
Qed.

Lemma alpha_not_hyphen (c : N) : is_alpha c = true -> (c =? 45) = false.
Proof.
  unfold is_alpha, is_lower, is_upper. intros H. apply N.eqb_neq. intros ->.
  discriminate H.
Qed.

Lemma toUpperCase_fixed (c : N) : is_lower c = false -> toUpperCase c = c.
Proof. unfold toUpperCase. intros ->. reflexivity. Qed.

Lemma replace_words_idempotent (b : bool) (s : jsstring) :
  replace_words b (replace_words b s) = replace_words b s.
Proof.
  revert b. induction s as [|c s IH]; intros b; [reflexivity|].
  simpl. destruct (is_alpha c) eqn:E.
  - destruct (toUpperCase_upper c E) as [Ha Hl].
    destruct b; simpl.
    + rewrite E, IH. reflexivity.
    + rewrite Ha, (toUpperCase_fixed _ Hl), IH. reflexivity.
  - simpl. rewrite E, IH. reflexivity.
Qed.

Lemma replace_spaces_normal (b : bool) (s : jsstring) :
  space_normal b (replace_spaces b s) = true.
Proof.
  revert b. induction s as [|c s IH]; intros b; [reflexivity|].
  simpl. destruct (is_space c) eqn:E.
  - destruct b; [apply IH|]. simpl. rewrite IH. reflexivity.
  - simpl. rewrite E. apply IH.
Qed.

Lemma space_normal_fixed (b : bool) (s : jsstring) :
  space_normal b s = true -> replace_spaces b s = s.
Proof.
  revert b. induction s as [|c s IH]; intros b; [reflexivity|].
  simpl. destruct (is_space c) eqn:E.
  - rewrite !andb_true_iff, negb_true_iff, N.eqb_eq.
    intros [[-> ->] H]. rewrite (IH true H). reflexivity.
  - intros H. rewrite (IH false H). reflexivity.
Qed.

Lemma replace_words_space_normal (w b : bool) (s : jsstring) :
  space_normal b (replace_words w s) = space_normal b s.
Proof.
  revert w b. induction s as [|c s IH]; intros w b; [reflexivity|].
  simpl. destruct (is_alpha c) eqn:E.
  - destruct (toUpperCase_upper c E) as [Ha _].
    assert (Hs : is_space (if w then c else toUpperCase c) = false)
      by (destruct w; apply alpha_not_space; assumption).
    simpl. rewrite Hs, (alpha_not_space c E). apply IH.
  - simpl. destruct (is_space c); rewrite IH; reflexivity.
Qed.

Lemma replace_hyphens_none (s : jsstring) :
  existsb (N.eqb 45) (replace_hyphens s) = false.
Proof.
  unfold replace_hyphens. induction s as [|c s IH]; [reflexivity|].
  cbn [map existsb]. rewrite IH, orb_false_r.
  destruct (c =? 45) eqn:E; [reflexivity|]. rewrite N.eqb_sym. exact E.
Qed.

Lemma replace_spaces_no_hyphen (b : bool) (s : jsstring) :
  existsb (N.eqb 45) s = false ->
  existsb (N.eqb 45) (replace_spaces b s) = false.
Proof.
  revert b. induction s as [|c s IH]; intros b; [reflexivity|].
  cbn [existsb replace_spaces]. rewrite orb_false_iff. intros [Hc Hs].
  destruct (is_space c); [destruct b|]; cbn [existsb];
    rewrite ?Hc, (IH _ Hs); reflexivity.
Qed.

Lemma replace_words_no_hyphen (b : bool) (s : jsstring) :
  existsb (N.eqb 45) s = false ->
  existsb (N.eqb 45) (replace_words b s) = false.
Proof.
  revert b. induction s as [|c s IH]; intros b; [reflexivity|].
  cbn [existsb replace_words]. rewrite orb_false_iff. intros [Hc Hs].
  destruct (is_alpha c) eqn:E; cbn [existsb]; rewrite (IH _ Hs), orb_false_r.
  - destruct (toUpperCase_upper c E) as [Ha _].
    rewrite N.eqb_sym. destruct b; apply alpha_not_hyphen; assumption.
  - exact Hc.
Qed.

Lemma no_hyphen_fixed (s : jsstring) :
  existsb (N.eqb 45) s = false -> replace_hyphens s = s.
Proof.
  unfold replace_hyphens. induction s as [|c s IH]; [reflexivity|].
  cbn [existsb map]. rewrite orb_false_iff, N.eqb_sym. intros [-> H].
  rewrite (IH H). reflexivity.
Qed.

Lemma replace_spaces_length (b : bool) (s : jsstring) :
  (length (replace_spaces b s) <= length s)%nat.
Proof.
  revert b. induction s as [|c s IH]; intros b; [apply le_n|].
  simpl. destruct (is_space c); [destruct b|]; simpl;
    try (apply le_n_S, IH). apply le_S, IH.
Qed.

Lemma replace_words_length (b : bool) (s : jsstring) :
  length (replace_words b s) = length s.
Proof.
  revert b. induction s as [|c s IH]; intros b; [reflexivity|].
  simpl. destruct (is_alpha c); simpl; rewrite IH; reflexivity.
Qed.

(** A title has no hyphen left, its white space is single spaces, and it
    is no longer than the string it comes from. *)
Theorem toTitleCase_shape (str : jsstring) :
  existsb (N.eqb 45) (toTitleCase str) = false
  /\ space_normal false (toTitleCase str) = true
  /\ (length (toTitleCase str) <= length str)%nat.
Proof.
  unfold toTitleCase. split; [|split].
  - apply replace_words_no_hyphen, replace_spaces_no_hyphen,
      replace_hyphens_none.
  - rewrite replace_words_space_normal. apply replace_spaces_normal.
  - rewrite replace_words_length.
    etransitivity; [apply replace_spaces_length|].
    unfold replace_hyphens. rewrite length_map. apply le_n.
Qed.

(** Title-casing a title changes nothing. *)
Theorem toTitleCase_idempotent (str : jsstring) :
  toTitleCase (toTitleCase str) = toTitleCase str.
Proof.
  assert (H1 : replace_hyphens (toTitleCase str) = toTitleCase str).
  { apply no_hyphen_fixed. unfold toTitleCase.
    apply replace_words_no_hyphen, replace_spaces_no_hyphen,
      replace_hyphens_none. }
  assert (H2 : replace_spaces false (toTitleCase str) = toTitleCase str).
  { apply space_normal_fixed. unfold toTitleCase.
    rewrite replace_words_space_normal. apply replace_spaces_normal. }
  unfold toTitleCase at 1. rewrite H1, H2.
  unfold toTitleCase. apply replace_words_idempotent.
Qed.

(** No title is the name of a property of [Object.prototype], and none is
    "undefined": reading [categorizedEmojiIds] at a title, or at a missing
    element of the stack, finds own properties only. *)
Theorem title_is_own_key (str : jsstring) :
  inherited (toTitleCase str) = false
  /\ toTitleCase str <> js "undefined"
  /\ forall k, In k object_prototype_keys -> toTitleCase str <> k.
Proof.
  split; [apply toTitleCase_not_inherited|].
  split; [apply toTitleCase_not_undefined|].
  intros k Hk E. pose proof (toTitleCase_not_inherited str) as H.
  rewrite E in H. unfold inherited in H.
  apply not_existsb_str_eqb in H. exact (H Hk).
Qed.

(** ** Decoding the locators *)

Lemma mapM_Err_In {A B} (f : A -> result B) (l : list A) (e : error) :
  mapM f l = Err e -> exists x, In x l /\ f x = Err e.
Proof.
  induction l as [|x l IH]; simpl; [discriminate|].
  destruct (f x) as [y|e1] eqn:E; simpl.
  - destruct (mapM f l) as [ys|e2]; simpl; [discriminate|].
    intros [= <-]. destruct (IH eq_refl) as [x' [H1 H2]]. eauto.
  - intros [= <-]. eauto.
Qed.

Lemma mapM_In_Err {A B} (f : A -> result B) (l : list A) (x : A) (e : error) :
  In x l -> f x = Err e -> exists e', mapM f l = Err e'.
Proof.
  induction l as [|y l IH]; simpl; [intros []|].
  intros [->|Hin] Hx.
  - rewrite Hx. simpl. eauto.
  - destruct (f y); simpl; [|eauto].
    destruct (IH Hin Hx) as [e' ->]. simpl. eauto.
Qed.

Lemma mapM_all_ok {A B} (f : A -> result B) (l : list A) :
  (forall x, In x l -> is_ok (f x) = true) -> is_ok (mapM f l) = true.
Proof.
  induction l as [|x l IH]; intros H; simpl; [reflexivity|].
  pose proof (H x (or_introl eq_refl)) as Hx.
  destruct (f x); [|discriminate]. simpl.
  assert (Hl : is_ok (mapM f l) = true)
    by (apply IH; intros y Hy; apply H; right; exact Hy).
  destruct (mapM f l); [reflexivity | discriminate].
Qed.

Lemma fromCodePoint_RangeError (n : option Z) (e : error) :
  fromCodePoint n = Err e -> e = RangeError.
Proof.
  unfold fromCodePoint. destruct n as [z|]; [destruct (_ && _)|];
    intros [= <-]; reflexivity.
Qed.

Lemma decode_RangeError (url : jsstring) (e : error) :
  decode url = Err e -> e = RangeError.
Proof.
  unfold decode. rewrite file_stem_stem_of. cbn [bind].
  destruct (includes _ url); [|discriminate].
  destruct (mapM _ _) as [chars|e1] eqn:E; cbn [bind]; [discriminate|].
  intros [= <-]. apply mapM_Err_In in E as [text [_ H]].
  apply (fromCodePoint_RangeError _ _ H).
Qed.

Lemma decode_unread_text (url text : jsstring) :
  includes (js "/unicode/") url = true ->
  In text (fields 45 (stem_of url)) ->
  fromCodePoint (parseInt16 text) = Err RangeError ->
  decode url = Err RangeError.
Proof.
  intros Hinc Hin Herr.
  destruct (decode url) as [l|e] eqn:D;
    [|rewrite (decode_RangeError url e D); reflexivity].
  exfalso. revert D. unfold decode. rewrite file_stem_stem_of, Hinc. cbn [bind].
  change (js "-") with [45]. rewrite split_fields.
  destruct (mapM_In_Err (fun t => fromCodePoint (parseInt16 t)) _ _ _ Hin Herr)
    as [e' ->].
  discriminate.
Qed.

(** What [decode] throws is a RangeError, and only a locator with the
    "/unicode/" segment throws: when one of the texts of its file name is
    not read as a code point. A locator without the segment never throws. *)
Theorem decode_throws (url : jsstring) :
  (forall e, decode url = Err e ->
     e = RangeError /\ includes (js "/unicode/") url = true
     /\ exists text, In text (fields 45 (stem_of url))
                     /\ fromCodePoint (parseInt16 text) = Err RangeError)
  /\ (forall text, includes (js "/unicode/") url = true ->
        In text (fields 45 (stem_of url)) ->
        fromCodePoint (parseInt16 text) = Err RangeError ->
        decode url = Err RangeError).
Proof.
  unfold decode. rewrite file_stem_stem_of. cbn [bind].
  change (js "-") with [45]. rewrite split_fields. split.
  - intros e. destruct (includes _ url); [|discriminate].
    destruct (mapM _ _) as [chars|e1] eqn:E; cbn [bind]; [discriminate|].
    intros [= <-]. apply mapM_Err_In in E as [text [H1 H2]].
    pose proof (fromCodePoint_RangeError _ _ H2) as ->. eauto.
  - intros text -> Hin Herr.
    destruct (mapM_In_Err (fun t => fromCodePoint (parseInt16 t)) _ _ _ Hin Herr)
      as [e' E].
    rewrite E. cbn [bind].
    apply mapM_Err_In in E as [text' [_ H2]].
    rewrite (fromCodePoint_RangeError _ _ H2). reflexivity.
Qed.

(** A file name with an empty text (an empty stem, a hyphen at either end,
    two hyphens in a row) or with a number above U+10FFFF throws. *)
Theorem decode_bad_text (url text : jsstring) :
  includes (js "/unicode/") url = true ->
  In text (fields 45 (stem_of url)) ->
  text = []
  \/ (exists n, text <> [] /\ hex_digits 0 text = Some n /\ 1114111 < n) ->
  decode url = Err RangeError.
Proof.
  intros Hinc Hin Hbad. apply (decode_unread_text url text Hinc Hin).
  destruct Hbad as [->|[n [Hne [Hd Hn]]]]; [reflexivity|].
  destruct text as [|c s]; [congruence|].
  rewrite (parseInt16_hex _ _ _ Hd). unfold fromCodePoint.
  replace (Z.of_N n <=? 1114111)%Z with false;
    [rewrite andb_false_r; reflexivity|].
  symmetry. apply Z.leb_gt. lia.
Qed.

Lemma decode_bad_text_witness :
  decode (js "https://github.githubassets.com/images/icons/emoji/unicode/1f1fa--1f1f8.png?v8")
  = Err RangeError
  /\ decode (js "https://github.githubassets.com/images/icons/emoji/unicode/110000.png?v8")
     = Err RangeError.
Proof.
  split.
  - apply (decode_bad_text _ []); [vm_compute; reflexivity | | left; reflexivity].
    vm_compute. tauto.
  - apply (decode_bad_text _ (js "110000")); [vm_compute; reflexivity | |].
    + vm_compute. tauto.
    + right. exists 1114112. split; [discriminate|].
      split; [vm_compute; reflexivity | reflexivity].
Defined.

(** ** The file stem *)

Lemma after_last_no_sep (c : N) (s : jsstring) :
  existsb (N.eqb c) (after_last c s) = false.
Proof.
  induction s as [|x s IH]; [reflexivity|].
  cbn [after_last]. destruct (existsb (N.eqb c) s) eqn:E; [exact IH|].
  destruct (x =? c) eqn:Ex; [exact E|].
  cbn [existsb]. rewrite E, N.eqb_sym, Ex. reflexivity.
Qed.

Lemma before_first_prefix (sub s : jsstring) :
  exists r, s = before_first sub s ++ r.
Proof.
  induction s as [|x s [r IH]]; [exists []; reflexivity|].
  cbn [before_first]. destruct (startsWith sub (x :: s)).
  - exists (x :: s); reflexivity.
  - exists r. simpl. rewrite <- IH. reflexivity.
Qed.

Lemma startsWith_app_r (p a r : jsstring) :
  startsWith p a = true -> startsWith p (a ++ r) = true.
Proof.
  intros H. apply startsWith_inv in H as [q ->].
  rewrite <- app_assoc. apply startsWith_app.
Qed.

Lemma before_first_free (sub s : jsstring) :
  sub <> [] -> includes sub (before_first sub s) = false.
Proof.
  intros Hne. induction s as [|x s IH].
  - destruct sub; [congruence | reflexivity].
  - cbn [before_first]. destruct (startsWith sub (x :: s)) eqn:E.
    + destruct sub; [congruence | reflexivity].
    + cbn [includes]. rewrite IH, orb_false_r.
      destruct (startsWith sub (x :: before_first sub s)) eqn:E'; [|reflexivity].
      destruct (before_first_prefix sub s) as [r Hr].
      apply (startsWith_app_r _ _ r) in E'. simpl in E'. rewrite <- Hr in E'.
      congruence.
Qed.

Lemma existsb_prefix {A} (p : A -> bool) (a r : list A) :
  existsb p (a ++ r) = false -> existsb p a = false.
Proof. rewrite existsb_app, orb_false_iff. tauto. Qed.

(** The file stem, which is the grouping key of a platform-specific
    identifier, is always found, and has no "/" and no ".png" in it. *)
Theorem file_stem_clean (url : jsstring) :
  exists stem,
    file_stem url = Ok stem
    /\ existsb (N.eqb 47) stem = false
    /\ includes (js ".png") stem = false.
Proof.
  exists (stem_of url). split; [apply file_stem_stem_of|]. unfold stem_of. split.
  - destruct (before_first_prefix (js ".png") (after_last 47 url)) as [r Hr].
    apply (existsb_prefix _ _ r). rewrite <- Hr. apply after_last_no_sep.
  - apply before_first_free. discriminate.
Qed.

Lemma startsWith_long (sub y q : jsstring) :
  (length sub <= length y)%nat -> startsWith sub (y ++ q) = startsWith sub y.
Proof.
  revert y. induction sub as [|c sub IH]; intros y H; [reflexivity|].
  destruct y as [|d y]; [simpl in H; lia|].
  simpl. rewrite IH; [reflexivity | simpl in H; lia].
Qed.

Lemma includes_length (sub f : jsstring) :
  includes sub f = true -> (length sub <= length f)%nat.
Proof.
  induction f as [|x f IH]; cbn [includes]; rewrite orb_true_iff.
  - intros [H|H]; [|discriminate]. apply startsWith_inv in H as [r H].
    rewrite H, length_app. lia.
  - intros [H|H].
    + apply startsWith_inv in H as [r H]. rewrite H, length_app. lia.
    + apply IH in H. simpl. lia.
Qed.

Lemma before_first_suffix (sub file q : jsstring) :
  includes sub file = true ->
  before_first sub (file ++ q) = before_first sub file.
Proof.
  induction file as [|x f IH]; cbn [includes]; rewrite orb_true_iff.
  - intros [H|H]; [|discriminate]. destruct sub; [|discriminate].
    destruct q; reflexivity.
  - intros H. change ((x :: f) ++ q) with (x :: f ++ q). cbn [before_first].
    destruct (startsWith sub (x :: f)) eqn:E.
    + change (x :: f ++ q) with ((x :: f) ++ q).
      rewrite (startsWith_app_r _ _ q E). reflexivity.
    + destruct H as [H|H]; [congruence|].
      change (x :: f ++ q) with ((x :: f) ++ q).
      rewrite startsWith_long, E, (IH H); [reflexivity|].
      apply includes_length in H. simpl. lia.
Qed.

(** What follows the ".png" of the file name, such as "?v8", does not
    count. *)
Theorem file_stem_suffix (p file q : jsstring) :
  existsb (N.eqb 47) file = false -> existsb (N.eqb 47) q = false ->
  includes (js ".png") file = true ->
  file_stem (p ++ 47 :: file ++ q) = file_stem (p ++ 47 :: file).
Proof.
  intros Hf Hq Hpng. rewrite !file_stem_stem_of. unfold stem_of.
  rewrite !after_last_app; [|exact Hf|].
  - rewrite (before_first_suffix _ _ _ Hpng). reflexivity.
  - rewrite existsb_app, Hf, Hq. reflexivity.
Qed.

Lemma file_stem_suffix_witness :
  file_stem (js "https://x/emoji" ++ 47 :: js "octocat.png" ++ js "?v8")
  = file_stem (js "https://x/emoji" ++ 47 :: js "octocat.png").
Proof.
  apply file_stem_suffix; vm_compute; reflexivity.
Defined.

(** ** [getGithubEmojiIdMap] *)

(** The identifier map has the identifiers of the response in the same
    order, each with what its locator decodes to; the function throws just
    when some locator does, a RangeError. *)
Theorem getGithubEmojiIdMap_spec (json : obj jsstring) :
  obj_wf json = true ->
  (forall idMap, getGithubEmojiIdMap json = Ok idMap ->
     obj_keys idMap = obj_keys json
     /\ forall id url, In (id, url) json ->
          exists lit, decode url = Ok lit /\ obj_get id idMap = Some lit)
  /\ (forall e, getGithubEmojiIdMap json = Err e ->
        e = RangeError
        /\ exists id url, In (id, url) json /\ decode url = Err RangeError)
  /\ ((forall id url, In (id, url) json -> is_ok (decode url) = true) ->
      is_ok (getGithubEmojiIdMap json) = true).
Proof.
  intros Hwf. split; [|split].
  - intros idMap H. pose proof (getGithubEmojiIdMap_entries _ _ Hwf H) as F.
    pose proof (Forall2_keys (fun u l => decode u = Ok l) _ _ F) as Hk.
    split; [exact Hk|]. intros id url Hin.
    destruct (Forall2_In_l _ _ _ _ F Hin) as [[id' lit] [H1 [H2 H3]]].
    simpl in H2, H3. subst id'. exists lit. split; [exact H3|].
    apply In_obj_get; [|exact H1]. rewrite Hk. apply js_ordered_NoDup, Hwf.
  - intros e. unfold getGithubEmojiIdMap.
    destruct (mapM _ json) as [entries|e1] eqn:E; cbn [bind]; [discriminate|].
    intros [= <-]. apply mapM_Err_In in E as [[id url] [H1 H2]].
    simpl in H2. destruct (decode url) as [lit|e2] eqn:D; [discriminate|].
    simpl in H2. injection H2 as <-.
    pose proof (decode_RangeError url e2 D) as ->.
    split; [reflexivity | eauto].
  - intros H. unfold getGithubEmojiIdMap.
    assert (Hm : is_ok (mapM (fun e => l <- decode (snd e) ;; Ok (fst e, l)) json)
                 = true).
    { apply mapM_all_ok. intros [id url] Hin. simpl.
      specialize (H id url Hin). destruct (decode url); [reflexivity|].
      discriminate. }
    destruct (mapM _ json); [reflexivity | discriminate].
Qed.

Lemma getGithubEmojiIdMap_spec_witness :
  exists idMap,
    getGithubEmojiIdMap example_json = Ok idMap
    /\ obj_keys idMap = obj_keys example_json.
Proof.
  assert (Hwf : obj_wf example_json = true) by (vm_compute; reflexivity).
  destruct (getGithubEmojiIdMap example_json) as [idMap|e] eqn:E;
    [|vm_compute in E; discriminate E].
  exists idMap. split; [reflexivity|].
  exact (proj1 (proj1 (getGithubEmojiIdMap_spec example_json Hwf) idMap E)).
Defined.

(** ** The normalized key *)

Lemma normalize_app (a b : jsstring) :
  normalize (a ++ b) = normalize a ++ normalize b.
Proof. unfold normalize. apply filter_app. Qed.

(** Normalizing removes every variation selector and zero-width joiner and
    nothing else: it leaves a string without them as it is, a second pass
    changes nothing, and it goes through concatenation. *)
Theorem normalize_spec :
  (forall v, normalize (normalize v) = normalize v)
  /\ (forall v, existsb is_selector (normalize v) = false)
  /\ (forall v, existsb is_selector v = false -> normalize v = v)
  /\ (forall a b, normalize (a ++ b) = normalize a ++ normalize b)
  /\ (forall v, (length (normalize v) <= length v)%nat).
Proof.
  split; [exact normalize_idempotent|]. split; [|split; [|split]].
  - intros v. unfold normalize. induction v as [|c v IH]; [reflexivity|].
    simpl. destruct (is_selector c) eqn:E; simpl; [exact IH|].
    rewrite E. exact IH.
  - intros v. unfold normalize. induction v as [|c v IH]; [reflexivity|].
    simpl. rewrite orb_false_iff. intros [-> H]. simpl. rewrite (IH H).
    reflexivity.
  - exact normalize_app.
  - intros v. unfold normalize. apply filter_length_le.
Qed.

Lemma normalize_utf16 (cp : N) :
  cp <= 1114111 ->
  normalize (utf16 cp) = if is_selector cp then [] else utf16 cp.
Proof.
  intros H. unfold utf16. destruct (cp <=? 65535) eqn:E.
  - unfold normalize. simpl. destruct (is_selector cp); reflexivity.
  - apply N.leb_gt in E.
    assert (Hs : is_selector cp = false).
    { unfold is_selector.
      destruct (65024 <=? cp) eqn:A, (cp <=? 65039) eqn:B, (cp =? 8205) eqn:C;
        rewrite ?N.leb_le, ?N.leb_gt, ?N.eqb_eq, ?N.eqb_neq in *;
        try reflexivity; exfalso; lia. }
    rewrite Hs. unfold normalize.
    assert (Hq : (cp - 65536) / 1024 <= 1023).
    { apply N.lt_succ_r. apply N.Div0.div_lt_upper_bound. lia. }
    assert (Hm : (cp - 65536) mod 1024 < 1024) by (apply N.mod_lt; lia).
    set (q := (cp - 65536) / 1024) in *.
    set (m := (cp - 65536) mod 1024) in *.
    clearbody q m.
    assert (H1 : is_selector (55296 + q) = false).
    { unfold is_selector.
      destruct (65024 <=? 55296 + q) eqn:A, (55296 + q <=? 65039) eqn:B,
        (55296 + q =? 8205) eqn:C;
        rewrite ?N.leb_le, ?N.leb_gt, ?N.eqb_eq, ?N.eqb_neq in *;
        try reflexivity; exfalso; lia. }
    assert (H2 : is_selector (56320 + m) = false).
    { unfold is_selector.
      destruct (65024 <=? 56320 + m) eqn:A, (56320 + m <=? 65039) eqn:B,
        (56320 + m =? 8205) eqn:C;
        rewrite ?N.leb_le, ?N.leb_gt, ?N.eqb_eq, ?N.eqb_neq in *;
        try reflexivity; exfalso; lia. }
    cbn [filter]. rewrite H1, H2. reflexivity.
Qed.

(** On a literal made of code points, which [String.fromCodePoint] writes
    in UTF-16, the replacement by code units removes exactly the code
    points U+FE00 to U+FE0F and U+200D: no half of a surrogate pair goes. *)
Theorem normalize_code_points (cps : list N) :
  Forall (fun cp => cp <= 1114111) cps ->
  normalize (flat_map utf16 cps)
  = flat_map utf16 (filter (fun cp => negb (is_selector cp)) cps).
Proof.
  induction 1 as [|cp cps Hcp _ IH]; [reflexivity|].
  cbn [flat_map filter]. rewrite normalize_app, IH, (normalize_utf16 cp Hcp).
  destruct (is_selector cp); reflexivity.
Qed.

Lemma normalize_code_points_witness :
  normalize (flat_map utf16 [128104; 8205; 10084; 65039; 8205; 128104])
  = flat_map utf16 [128104; 10084; 128104].
Proof.
  rewrite normalize_code_points; [reflexivity|].
  repeat constructor; discriminate.
Defined.

(** ** The reference text *)

Lemma fields_app_sep (c : N) (a b : jsstring) :
  fields c (a ++ c :: b) = fields c a ++ fields c b.
Proof.
  induction a as [|x a IH]; cbn [app fields].
  - rewrite N.eqb_refl. reflexivity.
  - rewrite IH. pose proof (fields_nonempty c a) as Hne.
    destruct (x =? c); [reflexivity|].
    destruct (fields c a); [congruence | reflexivity].
Qed.

Lemma fields_join (c : N) (ls : list jsstring) :
  ls <> [] -> (forall l, In l ls -> existsb (N.eqb c) l = false) ->
  fields c (join [c] ls) = ls.
Proof.
  induction ls as [|x ls IH]; [congruence|]. intros _ H.
  destruct ls as [|y ls].
  - simpl. apply fields_without. apply H. left; reflexivity.
  - change (join [c] (x :: y :: ls)) with (x ++ c :: join [c] (y :: ls)).
    rewrite fields_app_sep, IH.
    + rewrite fields_without; [reflexivity | apply H; left; reflexivity].
    + discriminate.
    + intros l Hl. apply H. right; exact Hl.
Qed.

Lemma parse_lines_app (l1 l2 : list jsstring) :
  parse_lines (l1 ++ l2) = stream_app (parse_lines l1) (parse_lines l2).
Proof.
  induction l1 as [|line l1 IH]; cbn [app parse_lines].
  - unfold stream_app. simpl. destruct (parse_lines l2); reflexivity.
  - destruct (parse_line line) as [[r|]|e].
    + rewrite IH. unfold stream_app.
      destruct (parse_lines l1) as [rs [e1|]]; simpl; [reflexivity|].
      destruct (parse_lines l2); reflexivity.
    + exact IH.
    + reflexivity.
Qed.

(** The records of a text are those of what precedes a line feed followed
    by those of what follows it, in this order; when a line throws, the
    lines after it are not read. *)
Theorem iterator_of_two_texts (a b : jsstring) :
  getUnicodeEmojiCategoryIteratorFromText (a ++ 10 :: b)
  = stream_app (getUnicodeEmojiCategoryIteratorFromText a)
               (getUnicodeEmojiCategoryIteratorFromText b).
Proof.
  unfold getUnicodeEmojiCategoryIteratorFromText.
  rewrite !split_fields, fields_app_sep. apply parse_lines_app.
Qed.

Lemma code_point_chars (text : jsstring) (n : N) :
  code_point text = Some n ->
  text <> [] /\ forall c, In c text -> exists d, hex_digit c = Some d.
Proof.
  unfold code_point. destruct text as [|c0 s0]; [discriminate|].
  destruct (hex_digits 0 (c0 :: s0)) as [m|] eqn:H; [|discriminate].
  intros _. split; [discriminate|].
  revert H. generalize 0. generalize (c0 :: s0). clear.
  induction l as [|x l IH]; intros acc H c; [intros []|].
  simpl in H. destruct (hex_digit x) as [d|] eqn:E; [|discriminate].
  intros [<-|Hin]; [eauto | eapply IH; eauto].
Qed.

Lemma hex_text_without (text : jsstring) (n c : N) :
  code_point text = Some n -> hex_digit c = None ->
  existsb (N.eqb c) text = false.
Proof.
  intros H Hc. apply code_point_chars in H as [_ H].
  apply not_true_is_false. intros E. apply existsb_exists in E as [x [Hx Ex]].
  apply N.eqb_eq in Ex. subst x. destruct (H c Hx) as [d Hd]. congruence.
Qed.

Lemma join_without (c sep : N) (ls : list jsstring) :
  (c =? sep) = false ->
  (forall l, In l ls -> existsb (N.eqb c) l = false) ->
  existsb (N.eqb c) (join [sep] ls) = false.
Proof.
  intros Hsep. induction ls as [|x ls IH]; intros H; [reflexivity|].
  destruct ls as [|y ls]; [apply H; left; reflexivity|].
  change (join [sep] (x :: y :: ls)) with (x ++ sep :: join [sep] (y :: ls)).
  rewrite existsb_app. cbn [existsb].
  rewrite (H x (or_introl eq_refl)), Hsep, IH; [reflexivity|].
  intros l Hl. apply H. right; exact Hl.
Qed.

Lemma all_texts (texts : list jsstring) :
  forallb (fun t => match code_point t with Some _ => true | None => false end)
          texts = true ->
  (forall t, In t texts -> exists n, code_point t = Some n)
  /\ exists cps, all_some (map code_point texts) = Some cps.
Proof.
  intros H. rewrite forallb_forall in H. split.
  - intros t Ht. specialize (H t Ht). destruct (code_point t); [eauto|].
    discriminate.
  - induction texts as [|t texts IH]; [exists []; reflexivity|].
    simpl. pose proof (H t (or_introl eq_refl)) as Ht.
    destruct (code_point t) as [n|]; [|discriminate].
    destruct IH as [cps ->]; [intros x Hx; apply H; right; exact Hx|].
    eauto.
Qed.

Lemma join_head (sep : jsstring) (c : N) (t : jsstring)
  (ts : list jsstring) :
  exists r, join sep ((c :: t) :: ts) = c :: r.
Proof. destruct ts; simpl; eauto. Qed.

(** A line of the format is read as the record it stands for. *)
Lemma parse_line_render (l : source_line) :
  line_ok l = true -> parse_line (render_line l) = Ok (line_record l).
Proof.
  destruct l as [title|title|texts rest|]; cbn [line_ok render_line line_record].
  - intros _. unfold parse_line. rewrite startsWith_app. reflexivity.
  - rewrite andb_true_iff, !negb_true_iff. intros [_ H].
    unfold parse_line.
    assert (E : startsWith (js "@@") (js "@" ++ title) = false).
    { change (js "@@") with (64 :: js "@").
      change (js "@" ++ title) with (64 :: title).
      cbn [startsWith]. rewrite N.eqb_refl. exact H. }
    rewrite E, startsWith_app. reflexivity.
  - rewrite !andb_true_iff, negb_true_iff. intros [[_ Hne] Hall].
    destruct (all_texts texts Hall) as [Htexts [cps Hcps]]. rewrite Hcps.
    destruct texts as [|t texts]; [discriminate|].
    destruct (Htexts t (or_introl eq_refl)) as [n Hn].
    destruct (code_point_chars t n Hn) as [Hnil Hhex].
    destruct t as [|c t]; [congruence|].
    destruct (Hhex c (or_introl eq_refl)) as [d Hd].
    pose proof (hex_digit_bounds c d Hd) as [Hb _].
    destruct (join_head [32] c t texts) as [r Hr].
    unfold parse_line.
    match goal with
    | |- context [join ?a ?b] =>
        set (field := join a b) in *; change (field = c :: r) in Hr
    end.
    assert (Htab : existsb (N.eqb 9) field = false).
    { unfold field. apply join_without; [reflexivity|]. intros x Hx.
      destruct (Htexts x Hx) as [m Hm].
      apply (hex_text_without x m 9 Hm). reflexivity. }
    assert (E1 : startsWith (js "@@") (field ++ 9 :: rest) = false).
    { rewrite Hr. change (js "@@") with (64 :: js "@"). cbn [app startsWith].
      destruct (64 =? c) eqn:E; [apply N.eqb_eq in E; lia | reflexivity]. }
    assert (E2 : startsWith (js "@") (field ++ 9 :: rest) = false).
    { rewrite Hr. change (js "@") with [64]. cbn [app startsWith].
      destruct (64 =? c) eqn:E; [apply N.eqb_eq in E; lia | reflexivity]. }
    rewrite E1, E2.
    assert (E3 : exists x l, field ++ 9 :: rest = x :: l)
      by (rewrite Hr; cbn [app]; eauto).
    destruct E3 as [x0 [l0 E3]].
    rewrite split_fields, fields_app_sep, (fields_without 9 _ Htab).
    rewrite E3. cbn [app nth_error]. unfold field.
    change (js " ") with [32]. rewrite split_fields, fields_join.
    + rewrite (mapM_code_points _ _ Hcps). cbn [bind].
      rewrite join_nil, <- flat_map_concat_map. reflexivity.
    + discriminate.
    + intros x Hx. destruct (Htexts x Hx) as [m Hm].
      apply (hex_text_without x m 32 Hm). reflexivity.
  - reflexivity.
Qed.

Lemma render_line_without_feed (l : source_line) :
  line_ok l = true -> existsb (N.eqb 10) (render_line l) = false.
Proof.
  destruct l as [title|title|texts rest|]; cbn [line_ok render_line].
  - rewrite negb_true_iff. intros H. rewrite existsb_app, H. reflexivity.
  - rewrite andb_true_iff, !negb_true_iff. intros [H _].
    rewrite existsb_app, H. reflexivity.
  - rewrite !andb_true_iff, negb_true_iff. intros [[Hrest _] Hall].
    destruct (all_texts texts Hall) as [Htexts _].
    rewrite existsb_app. cbn [existsb]. rewrite Hrest.
    rewrite join_without; [reflexivity | reflexivity|].
    intros x Hx. destruct (Htexts x Hx) as [m Hm].
    apply (hex_text_without x m 10 Hm). reflexivity.
  - reflexivity.
Qed.

Lemma parse_lines_render (lines : list source_line) :
  forallb line_ok lines = true ->
  parse_lines (map render_line lines)
  = (flat_map (fun l => match line_record l with Some r => [r] | None => [] end)
              lines, None).
Proof.
  induction lines as [|l lines IH]; [reflexivity|].
  cbn [forallb map parse_lines flat_map]. rewrite andb_true_iff.
  intros [Hl Hls]. rewrite (parse_line_render l Hl), (IH Hls).
  destruct (line_record l); reflexivity.
Qed.

(** A text written line by line in the format is read back as the records
    its lines stand for, in order, the blank lines giving none, and no
    exception ends the reading. *)
Theorem iterator_reads_format (lines : list source_line) :
  forallb line_ok lines = true ->
  getUnicodeEmojiCategoryIteratorFromText (join [10] (map render_line lines))
  = (flat_map (fun l => match line_record l with Some r => [r] | None => [] end)
              lines, None).
Proof.
  intros H. unfold getUnicodeEmojiCategoryIteratorFromText.
  rewrite split_fields. destruct lines as [|l lines]; [reflexivity|].
  rewrite fields_join.
  - apply parse_lines_render; exact H.
  - discriminate.
  - intros x Hx. apply in_map_iff in Hx as [l' [<- Hl']].
    apply render_line_without_feed.
    rewrite forallb_forall in H. apply H; exact Hl'.
Qed.

Lemma iterator_reads_format_witness :
  getUnicodeEmojiCategoryIteratorFromText
    (join [10]
       (map render_line
          [ CategoryLine (js "Smileys & Emotion");
            SubcategoryLine (js "face-smiling"); BlankLine;
            EmojiLine [js "1F468"; js "200D"; js "2764"; js "FE0F"]
                      (js "fully-qualified") ]))
  = ([ Category (js "Smileys & Emotion"); Subcategory (js "face-smiling");
       Emoji (flat_map utf16 [128104; 8205; 10084; 65039]) ], None).
Proof.
  rewrite iterator_reads_format; vm_compute; reflexivity.
Defined.

(** A record of another type, or another exception than a RangeError, is
    nothing the loop over the lines gives. *)
Lemma parse_line_yields (line : jsstring) :
  (forall r, parse_line line = Ok (Some r) -> known_record r)
  /\ (forall e, parse_line line = Err e -> e = RangeError).
Proof.
  unfold parse_line.
  destruct (startsWith (js "@@") line);
    [split; [intros r [= <-]; exact I | discriminate]|].
  destruct (startsWith (js "@") line);
    [split; [intros r [= <-]; exact I | discriminate]|].
  destruct line as [|c line]; [split; discriminate|].
  rewrite split_first by discriminate.
  destruct (mapM _ _) as [chars|e1] eqn:E; cbn [bind].
  - split; [intros r [= <-]; exact I | discriminate].
  - split; [discriminate|]. intros e [= <-].
    apply mapM_Err_In in E as [t [_ Ht]].
    eapply fromCodePoint_RangeError; eauto.
Qed.

Lemma parse_lines_yields (lines : list jsstring) :
  (forall r, In r (fst (parse_lines lines)) -> known_record r)
  /\ (forall e, snd (parse_lines lines) = Some e -> e = RangeError).
Proof.
  induction lines as [|line lines [IH1 IH2]]; cbn [parse_lines].
  - split; [intros r [] | discriminate].
  - destruct (parse_line_yields line) as [H1 H2].
    destruct (parse_line line) as [[r|]|e].
    + destruct (parse_lines lines) as [rs e']. cbn [fst snd] in *. split.
      * intros r' [<-|Hin]; [apply H1; reflexivity | apply IH1; exact Hin].
      * exact IH2.
    + split; assumption.
    + cbn [fst snd]. split; [intros r []|]. intros e' [= <-].
      apply H2; reflexivity.
Qed.

(** The iterator yields no record of another type than the three the loop
    has a case for, and throws nothing but a RangeError. *)
Theorem iterator_yields (text : jsstring) :
  (forall r, In r (fst (getUnicodeEmojiCategoryIteratorFromText text)) ->
     match r with Other _ _ => False | _ => True end)
  /\ (forall e, snd (getUnicodeEmojiCategoryIteratorFromText text) = Some e ->
        e = RangeError).
Proof.
  unfold getUnicodeEmojiCategoryIteratorFromText.
  apply parse_lines_yields.
Qed.

(** ** The partitions and the keys of [Object.prototype] *)

Lemma for_of_all_ok {S A} (body : S -> A -> result S) (xs : list A) :
  (forall s x, In x xs -> is_ok (body s x) = true) ->
  forall st, is_ok (for_of body xs st) = true.
Proof.
  induction xs as [|x xs IH]; intros H st; [reflexivity|].
  cbn [for_of]. pose proof (H st x (or_introl eq_refl)) as Hx.
  destruct (body st x); [|discriminate]. cbn [bind].
  apply IH. intros s y Hy. apply H. right; exact Hy.
Qed.

Lemma Forall2_In_r {A B} (R : A -> B -> Prop) (l : list A) (l' : list B)
  (y : B) :
  Forall2 R l l' -> In y l' -> exists x, In x l /\ R x y.
Proof.
  induction 1 as [|a b l l' H _ IH]; simpl; [intros []|].
  intros [<-|Hin]; [eauto|]. destruct (IH Hin) as [x [H1 H2]]; eauto.
Qed.

Lemma push_id_ok (k id : jsstring) (m : obj (list jsstring)) :
  inherited k = false -> is_ok (push_id k id m) = true.
Proof.
  intros H. unfold push_id, obj_lookup.
  destruct (obj_get k m) as [ids|] eqn:G.
  - rewrite G. reflexivity.
  - rewrite H, obj_get_set_same. reflexivity.
Qed.

Lemma push_id_own (k id : jsstring) (m m' : obj (list jsstring)) :
  (forall k', In k' (obj_keys m) -> inherited k' = false) ->
  push_id k id m = Ok m' ->
  forall k', In k' (obj_keys m') -> inherited k' = false.
Proof.
  intros Hown Hp k' Hk'. rewrite (push_id_keys _ _ _ _ Hp) in Hk'.
  destruct (obj_has k m) eqn:Hh; [apply Hown; exact Hk'|].
  apply obj_keys_set in Hk' as [->|Hk']; [|apply Hown; exact Hk'].
  unfold push_id, obj_lookup, obj_has in *.
  destruct (obj_get k m) as [ids|] eqn:G; [discriminate|].
  destruct (inherited k); [|reflexivity]. rewrite G in Hp. discriminate.
Qed.

(** Nothing that is inherited is a key of a partition. *)
Lemma partition_own_keys (json : obj jsstring) (st : locals) :
  partition json = Ok st ->
  (forall k, In k (obj_keys (emojiLiteralToGithubEmojiIdsMap st)) ->
             inherited k = false)
  /\ (forall k, In k (obj_keys (githubSpecificEmojiUriToGithubEmojiIdsMap st)) ->
                inherited k = false).
Proof.
  unfold partition. destruct (getGithubEmojiIdMap json) as [idMap|]; cbn [bind];
    [|discriminate].
  apply (for_of_invariant
           (fun s =>
              (forall k, In k (obj_keys (emojiLiteralToGithubEmojiIdsMap s)) ->
                         inherited k = false)
              /\ (forall k,
                    In k (obj_keys (githubSpecificEmojiUriToGithubEmojiIdsMap s)) ->
                    inherited k = false))).
  - intros s [id [l|u]] s' _ [H1 H2]; cbn [partition_step].
    + destruct (push_id _ _ _) as [m|] eqn:E; cbn [bind]; [|discriminate].
      intros [= <-]. split; [|exact H2]. apply (push_id_own _ _ _ _ H1 E).
    + destruct (push_id _ _ _) as [m|] eqn:E; cbn [bind]; [|discriminate].
      intros [= <-]. split; [exact H1|]. apply (push_id_own _ _ _ _ H2 E).
  - split; intros k [].
Qed.

(** The first part of the function goes through just when every locator
    decodes and no literal or grouping key is the name of a property of
    [Object.prototype], such as "constructor": for such a key the entry
    read is not a list and the call of its [push] throws. *)
Theorem partition_succeeds (json : obj jsstring) :
  obj_wf json = true ->
  (is_ok (partition json) = true
   <-> forall id url, In (id, url) json ->
         exists lit, decode url = Ok lit /\ inherited (literal_key lit) = false).
Proof.
  intros Hwf. split.
  - destruct (partition json) as [st|] eqn:P; [|discriminate]. intros _ id url Hin.
    destruct (partition_spec json st Hwf P) as [HGA [HGB _]].
    destruct (partition_own_keys json st P) as [HA HB].
    destruct (partition_decoded json st id url Hwf P Hin) as [[l Hl]|[u Hu]].
    + exists (Literal l). unfold literal_of in Hl.
      destruct (decode url) as [[l'|u']|] eqn:D; try discriminate.
      injection Hl as ->. split; [reflexivity|]. apply HA.
      apply (groups_by_key _ _ _ _ HGA). exists id, url. split; [exact Hin|].
      unfold literal_of. rewrite D. reflexivity.
    + exists (PlatformRef u). unfold uri_of in Hu.
      destruct (decode url) as [[l'|u']|] eqn:D; try discriminate.
      injection Hu as ->. split; [reflexivity|]. apply HB.
      apply (groups_by_key _ _ _ _ HGB). exists id, url. split; [exact Hin|].
      unfold uri_of. rewrite D. reflexivity.
  - intros H. unfold partition.
    destruct (getGithubEmojiIdMap json) as [idMap|e] eqn:E; cbn [bind].
    + pose proof (getGithubEmojiIdMap_entries _ _ Hwf E) as F.
      apply for_of_all_ok. intros s [id lit] Hin.
      destruct (Forall2_In_r _ _ _ _ F Hin) as [[id' url] [H1 [H2 H3]]].
      simpl in H2, H3. subst id'.
      destruct (H id url H1) as [lit' [Hd Hk]].
      rewrite Hd in H3. injection H3 as ->.
      destruct lit as [l|u]; cbn [partition_step literal_key] in *.
      * pose proof (push_id_ok l id (emojiLiteralToGithubEmojiIdsMap s) Hk) as Hp.
        destruct (push_id _ _ _); [reflexivity | discriminate].
      * pose proof (push_id_ok u id (githubSpecificEmojiUriToGithubEmojiIdsMap s) Hk)
          as Hp.
        destruct (push_id _ _ _); [reflexivity | discriminate].
    + exfalso. unfold getGithubEmojiIdMap in E.
      destruct (mapM _ json) as [entries|e1] eqn:M; cbn [bind] in E;
        [discriminate|].
      apply mapM_Err_In in M as [[id url] [H1 H2]]. simpl in H2.
      destruct (H id url H1) as [lit [Hd _]]. rewrite Hd in H2. discriminate.
Qed.

Lemma partition_succeeds_witness :
  is_ok (partition example_json) = true
  /\ exists lit,
       decode (js "https://github.githubassets.com/images/icons/emoji/octocat.png?v8")
       = Ok lit /\ inherited (literal_key lit) = false.
Proof.
  assert (Hwf : obj_wf example_json = true) by (vm_compute; reflexivity).
  assert (Hok : is_ok (partition example_json) = true)
    by (vm_compute; reflexivity).
  split; [exact Hok|].
  apply (proj1 (partition_succeeds example_json Hwf) Hok (js "octocat")).
  vm_compute. tauto.
Defined.

(** ** Emoji records that match nothing *)

Lemma walk_prefix (json : obj jsstring) (pre : list record) (st0 st : locals) :
  obj_wf json = true -> partition json = Ok st0 ->
  for_of walk_step pre st0 = Ok st ->
  groups_by literal_of json (emojiLiteralToGithubEmojiIdsMap st)
  /\ (forall k, In k (obj_keys (emojiLiteralToGithubEmojiIdsMap st)) ->
                inherited k = false).
Proof.
  intros Hwf P W. destruct (walk_loop_partitions _ _ _ W) as [-> _].
  split; [apply (partition_spec json st0 Hwf P)|].
  apply (partition_own_keys json st0 P).
Qed.

(** An emoji record whose key is in no partition and is no name of a
    property of [Object.prototype] can be left out of the stream: the
    categorisation returns, or throws, the same. *)
Theorem unmatched_record_skipped (json : obj jsstring)
  (pre post : list record) (value : jsstring) :
  obj_wf json = true ->
  has_literal json (normalize value) = false ->
  inherited (normalize value) = false ->
  categorize json (pre ++ Emoji value :: post) = categorize json (pre ++ post).
Proof.
  intros Hwf Hlit Hinh. unfold categorize, categorize_from, walk.
  destruct (partition json) as [st0|e0] eqn:P; cbn [bind]; [|reflexivity].
  rewrite !for_of_app.
  destruct (for_of walk_step pre st0) as [st|e1] eqn:W; cbn [bind];
    [|reflexivity].
  destruct (walk_prefix json pre st0 st Hwf P W) as [HG _].
  cbn [for_of walk_step]. unfold obj_lookup.
  rewrite (HG (normalize value)), (not_has_literal_ids _ _ Hlit), Hinh.
  reflexivity.
Qed.

Lemma unmatched_record_skipped_witness :
  categorize example_json
    (firstn 3 example_records ++ Emoji (utf16 9731) :: skipn 3 example_records)
  = Ok example_taxonomy.
Proof.
  rewrite unmatched_record_skipped; vm_compute; reflexivity.
Defined.

(** An emoji record whose normalized value is the name of a property of
    [Object.prototype] makes the categorisation throw: the [in] test finds
    what is inherited, which is no list of identifiers. *)
Theorem inherited_key_throws (json : obj jsstring)
  (pre post : list record) (value : jsstring) :
  obj_wf json = true -> inherited (normalize value) = true ->
  exists e, categorize json (pre ++ Emoji value :: post) = Err e.
Proof.
  intros Hwf Hinh. apply categorize_prefix_Err. intros st0 st P W.
  destruct (walk_prefix json pre st0 st Hwf P W) as [_ Hown].
  cbn [walk_step]. unfold obj_lookup.
  destruct (obj_get (normalize value) (emojiLiteralToGithubEmojiIdsMap st))
    as [ids|] eqn:G.
  - apply obj_get_key in G. apply Hown in G. congruence.
  - rewrite Hinh. eauto.
Qed.

Lemma inherited_key_throws_witness :
  exists e,
    categorize example_json
      (firstn 2 example_records ++ Emoji (js "constructor") :: [])
    = Err e.
Proof.
  apply inherited_key_throws; vm_compute; reflexivity.
Defined.

(** ** What is thrown *)

Lemma for_of_error_in {S A} (Q : error -> Prop) (body : S -> A -> result S)
  (xs : list A) :
  (forall s x e, In x xs -> body s x = Err e -> Q e) ->
  forall st e, for_of body xs st = Err e -> Q e.
Proof.
  induction xs as [|x xs IH]; intros Hb st e; cbn [for_of]; [discriminate|].
  destruct (body st x) as [s1|e1] eqn:E; cbn [bind].
  - apply IH. intros s y e0 Hy. apply Hb. right; exact Hy.
  - intros [= <-]. apply (Hb st x e1 (or_introl eq_refl) E).
Qed.

Lemma decode_known (url : jsstring) (e : error) :
  decode url = Err e -> known_error e.
Proof.
  unfold decode. rewrite file_stem_stem_of. cbn [bind].
  destruct (includes _ url); [|discriminate].
  destruct (mapM _ _) as [chars|e1] eqn:E; cbn [bind]; [discriminate|].
  intros [= <-]. apply mapM_Err_In in E as [t [_ Ht]].
  left. eapply fromCodePoint_RangeError; eauto.
Qed.

Lemma push_id_known (k id : jsstring) (m : obj (list jsstring)) (e : error) :
  push_id k id m = Err e -> known_error e.
Proof.
  unfold push_id. destruct (obj_get k _); intros [= <-]. right; left; reflexivity.
Qed.

Lemma partition_known (json : obj jsstring) (e : error) :
  partition json = Err e -> known_error e.
Proof.
  unfold partition, getGithubEmojiIdMap.
  destruct (mapM _ json) as [entries|e1] eqn:E; cbn [bind].
  - apply (for_of_error known_error). intros s [id [l|u]] e0; cbn [partition_step].
    + destruct (push_id _ _ _) eqn:Hp; cbn [bind]; [discriminate|].
      intros [= <-]. eapply push_id_known; eauto.
    + destruct (push_id _ _ _) eqn:Hp; cbn [bind]; [discriminate|].
      intros [= <-]. eapply push_id_known; eauto.
  - intros [= <-]. apply mapM_Err_In in E as [[id url] [_ H]]. cbn [snd] in H.
    destruct (decode url) as [l|e2] eqn:D; cbn [bind] in H; [discriminate|].
    injection H as <-. eapply decode_known; eauto.
Qed.

Lemma walk_step_known (st : locals) (r : record) (e : error) :
  known_record r -> walk_step st r = Err e -> known_error e.
Proof.
  destruct r as [v|v|v|ty v]; cbn [walk_step known_record]; intros Hr.
  - discriminate.
  - destruct (obj_get _ _); [discriminate|]. intros [= <-]. right; left; reflexivity.
  - destruct (obj_lookup _ _); [| |discriminate].
    + destruct (obj_get _ _) as [subs|]; [destruct (obj_get _ subs)|];
        try discriminate; intros [= <-]; right; left; reflexivity.
    + intros [= <-]. right; left; reflexivity.
  - destruct Hr.
Qed.

Lemma prune_known (cats : taxonomy) (e : error) :
  prune cats = Err e -> known_error e.
Proof.
  unfold prune. apply (for_of_error known_error). intros s c e0. unfold prune_step.
  destruct (obj_get c s) as [subs|]; [|intros [= <-]; right; left; reflexivity].
  destruct (for_of prune_subcategory _ subs) as [subs'|e1] eqn:E; cbn [bind].
  - destruct (obj_keys subs'); discriminate.
  - intros [= <-]. revert E. apply (for_of_error known_error).
    intros s1 k e2. unfold prune_subcategory.
    destruct (obj_get k s1) as [[|g gs]|]; try discriminate.
    intros [= <-]. right; left; reflexivity.
Qed.

(** Whatever the two responses are, the function throws nothing but a
    RangeError, a TypeError or its own error of the identifiers left over:
    the iterator yields no record of a type the loop has no case for, so
    the error of the default case is never thrown. *)
Theorem thrown_errors (json : obj jsstring) (text : jsstring) (e : error) :
  getCategorizeGithubEmojiIds json text = Err e ->
  e = RangeError \/ e = TypeError \/ e = Uncategorized.
Proof.
  unfold getCategorizeGithubEmojiIds, getUnicodeEmojiCategoryIteratorFromText.
  destruct (parse_lines_yields (split [10] text)) as [Hr He].
  destruct (parse_lines (split [10] text)) as [records thrown].
  cbn [fst snd] in Hr, He. unfold categorize_from, walk.
  destruct (partition json) as [st0|e0] eqn:P; cbn [bind].
  - destruct (for_of walk_step records st0) as [st|e1] eqn:W; cbn [bind].
    + destruct thrown as [e2|].
      * intros [= <-]. left. apply He; reflexivity.
      * unfold finish. destruct (obj_keys (githubEmojiIdMap st)).
        -- destruct (prune _) as [cats|e3] eqn:Hp; cbn [bind]; [discriminate|].
           intros [= <-]. apply (prune_known _ _ Hp).
        -- intros [= <-]. right; right; reflexivity.
    + intros [= <-]. revert W. apply (for_of_error_in known_error).
      intros s r e0 Hin. apply walk_step_known. apply Hr; exact Hin.
  - intros [= <-]. apply (partition_known _ _ P).
Qed.

Lemma thrown_errors_witness :
  Uncategorized = RangeError \/ Uncategorized = TypeError
  \/ Uncategorized = Uncategorized.
Proof.
  apply (thrown_errors example_json []). vm_compute. reflexivity.
Defined.

(** ** The stack and the taxonomy along the loop *)

(** When the loop over the records ends, the stack holds at most the
    current category and the current subcategory, and what it names is
    there: with an empty stack nothing was filed, a category alone on the
    stack has no subcategory yet, and for a category and a subcategory
    the bucket exists. *)
Theorem stack_names_bucket (json : obj jsstring) (records : list record)
  (st : locals) :
  walk json records = Ok st ->
  match categoryStack st with
  | [] => categorizedEmojiIds st = []
  | [c] => obj_get c (categorizedEmojiIds st) = Some []
  | [c; s] =>
      exists subs gs,
        obj_get c (categorizedEmojiIds st) = Some subs
        /\ obj_get s subs = Some gs
  | _ => False
  end.
Proof.
  unfold walk. destruct (partition json) as [st0|] eqn:P; cbn [bind];
    [|discriminate].
  apply (for_of_invariant stack_ok).
  - intros s r s' _. apply walk_step_stack_ok.
  - destruct (partition_empty _ _ P) as [HC HS]. unfold stack_ok.
    rewrite HS. exact HC.
Qed.

Lemma stack_names_bucket_witness :
  exists st,
    walk example_json example_records = Ok st
    /\ match categoryStack st with
       | [] => categorizedEmojiIds st = []
       | [c] => obj_get c (categorizedEmojiIds st) = Some []
       | [c; s] =>
           exists subs gs,
             obj_get c (categorizedEmojiIds st) = Some subs
             /\ obj_get s subs = Some gs
       | _ => False
       end.
Proof.
  destruct (walk example_json example_records) as [st|] eqn:W.
  - exists st. split; [reflexivity|].
    apply (stack_names_bucket example_json example_records st W).
  - vm_compute in W. discriminate W.
Defined.

(** ** Where the groups and the titles of a taxonomy come from *)

(** Every group of a taxonomy that is returned is, whole and in the order
    of enumeration, the identifiers of one literal or of one grouping key
    of the platform-specific ones: no group is empty, split or mixed. *)
Theorem groups_are_whole (json : obj jsstring) (records : list record)
  (t : obj (obj (list (list jsstring)))) :
  obj_wf json = true -> categorize json records = Ok t ->
  forall c subs s gs g,
    In (c, subs) t -> In (s, gs) subs -> In g gs ->
    g <> []
    /\ exists k, g = ids_with literal_of k json \/ g = ids_with uri_of k json.
Proof.
  intros Hwf Hc c subs s gs g Hcat Hsub Hg.
  apply categorize_Ok in Hc as [st [Hw Hf]].
  apply walk_Ok in Hw as [st0 [P [_ [_ [Hok [HF [HA [HB _]]]]]]]].
  apply (finish_Ok _ _ Hok) in Hf as [_ ->].
  destruct (partition_spec json st0 Hwf P) as [HGA [HGB _]].
  destruct (partition_NoDup json st0 P) as [_ HNB].
  rewrite HA in HF. rewrite HB in Hcat.
  assert (Hgroup : forall sel m k,
            groups_by sel json m -> obj_get k m = Some g ->
            g <> [] /\ g = ids_with sel k json).
  { intros sel m k HG Hk. rewrite (HG k) in Hk.
    destruct (ids_with sel k json) as [|i ids]; [discriminate|].
    injection Hk as <-. split; [discriminate | reflexivity]. }
  apply add_custom_In in Hcat as [[_ [-> ->]]|Hcat].
  - destruct Hsub as [[= <- <-]|[]]. apply in_map_iff in Hg as [[k g'] [E Hin]].
    cbn [snd] in E. subst g'. apply (In_obj_get _ _ _ HNB) in Hin.
    destruct (Hgroup uri_of _ k HGB Hin) as [H1 H2]. eauto.
  - apply pruned_In in Hcat as [_ [subs0 [Hcat ->]]].
    apply filter_In in Hsub as [Hsub _].
    destruct (HF c subs0 s gs g Hcat Hsub Hg) as [k Hk].
    destruct (Hgroup literal_of _ k HGA Hk) as [H1 H2]. eauto.
Qed.

Lemma groups_are_whole_witness :
  categorize example_json example_records = Ok example_taxonomy
  /\ forall c subs s gs g,
       In (c, subs) example_taxonomy -> In (s, gs) subs -> In g gs ->
       g <> []
       /\ exists k, g = ids_with literal_of k example_json
                    \/ g = ids_with uri_of k example_json.
Proof.
  split; [vm_compute; reflexivity|].
  apply (groups_are_whole example_json example_records).
  - vm_compute. reflexivity.
  - vm_compute. reflexivity.
Defined.

Lemma category_title_In (records : list record) (v : jsstring) :
  In (Category v) records -> In (toTitleCase v) (category_titles records).
Proof.
  intros H. unfold category_titles. apply in_flat_map.
  exists (Category v). split; [exact H | left; reflexivity].
Qed.

Lemma subcategory_title_In (records : list record) (v : jsstring) :
  In (Subcategory v) records -> In (toTitleCase v) (subcategory_titles records).
Proof.
  intros H. unfold subcategory_titles. apply in_flat_map.
  exists (Subcategory v). split; [exact H | left; reflexivity].
Qed.

Lemma walk_loop_titles (records : list record) (st st' : locals) :
  categorizedEmojiIds st = [] ->
  for_of walk_step records st = Ok st' ->
  forall c subs, In (c, subs) (categorizedEmojiIds st') ->
    In c (category_titles records)
    /\ forall s gs, In (s, gs) subs -> In s (subcategory_titles records).
Proof.
  intros H0. apply (for_of_invariant
    (fun s => forall c subs, In (c, subs) (categorizedEmojiIds s) ->
       In c (category_titles records)
       /\ forall s' gs, In (s', gs) subs -> In s' (subcategory_titles records))).
  - intros s r s' Hr HP. destruct r as [v|v|v|ty v]; cbn [walk_step].
    + intros [= <-] c subs Hin. cbn [set_walk categorizedEmojiIds] in Hin.
      apply obj_set_In in Hin as [[= -> ->]|Hin]; [|apply HP; exact Hin].
      split; [apply category_title_In; exact Hr | intros s' gs []].
    + destruct (obj_get _ (categorizedEmojiIds s)) as [subs0|] eqn:G;
        [|discriminate].
      intros [= <-] c subs Hin. cbn [set_walk categorizedEmojiIds] in Hin.
      apply obj_get_In in G. destruct (HP _ _ G) as [HG1 HG2].
      apply obj_set_In in Hin as [[= -> ->]|Hin]; [|apply HP; exact Hin].
      split; [exact HG1|]. intros s' gs Hs.
      apply obj_set_In in Hs as [[= -> ->]|Hs]; [|apply (HG2 _ _ Hs)].
      apply subcategory_title_In; exact Hr.
    + destruct (obj_lookup _ _) as [ids| |];
        [| discriminate | intros [= <-]; exact HP].
      destruct (obj_get _ (categorizedEmojiIds s)) as [subs0|] eqn:G;
        [|discriminate].
      destruct (obj_get _ subs0) as [l|] eqn:G'; [|discriminate].
      intros [= <-] c subs Hin. cbn [set_walk categorizedEmojiIds] in Hin.
      apply obj_get_In in G. destruct (HP _ _ G) as [HG1 HG2].
      apply obj_get_In in G'.
      apply obj_set_In in Hin as [[= -> ->]|Hin]; [|apply HP; exact Hin].
      split; [exact HG1|]. intros s' gs Hs.
      apply obj_set_In in Hs as [[= -> ->]|Hs]; [|apply (HG2 _ _ Hs)].
      apply (HG2 _ _ G').
    + discriminate.
  - rewrite H0. intros c subs [].
Qed.

(** No title of a taxonomy that is returned is invented: a category is
    that of the platform-specific identifiers, with the one subcategory of
    empty title, or its title is the title of a category record of the
    stream and the titles of its subcategories are titles of subcategory
    records. *)
Theorem titles_from_records (json : obj jsstring) (records : list record)
  (t : obj (obj (list (list jsstring)))) :
  categorize json records = Ok t ->
  forall c subs, In (c, subs) t ->
    (c = custom_title /\ forall s gs, In (s, gs) subs -> s = [])
    \/ (In c (category_titles records)
        /\ forall s gs, In (s, gs) subs -> In s (subcategory_titles records)).
Proof.
  intros Hc c subs Hcat.
  apply categorize_Ok in Hc as [st [Hw Hf]].
  apply walk_Ok in Hw as [st0 [P [W [_ [Hok _]]]]].
  apply (finish_Ok _ _ Hok) in Hf as [_ ->].
  destruct (partition_empty _ _ P) as [HC _].
  apply add_custom_In in Hcat as [[_ [-> ->]]|Hcat].
  - left. split; [reflexivity|]. intros s gs [[= <- _]|[]]. reflexivity.
  - right. apply pruned_In in Hcat as [_ [subs0 [Hcat ->]]].
    destruct (walk_loop_titles records st0 st HC W c subs0 Hcat) as [H1 H2].
    split; [exact H1|]. intros s gs Hs. apply filter_In in Hs as [Hs _].
    apply (H2 _ _ Hs).
Qed.

Lemma titles_from_records_witness :
  categorize example_json example_records = Ok example_taxonomy
  /\ forall c subs, In (c, subs) example_taxonomy ->
       (c = custom_title /\ forall s gs, In (s, gs) subs -> s = [])
       \/ (In c (category_titles example_records)
           /\ forall s gs, In (s, gs) subs ->
                In s (subcategory_titles example_records)).
Proof.
  split; [vm_compute; reflexivity|].
  apply (titles_from_records example_json example_records).
  vm_compute. reflexivity.
Defined.

(** ** With no identifier that has a literal *)

Lemma pruned_nothing (t : taxonomy) :
  (forall c subs s gs, In (c, subs) t -> In (s, gs) subs -> gs = []) ->
  pruned t = [].
Proof.
  unfold pruned. induction t as [|[c subs] t IH]; intros H; [reflexivity|].
  cbn [map filter fst snd].
  assert (E : filter has_groups subs = []).
  { assert (Hs : forall s gs, In (s, gs) subs -> gs = [])
      by (intros s gs; apply (H c subs s gs); left; reflexivity).
    clear - Hs. induction subs as [|[s gs] subs IHs]; [reflexivity|].
    cbn [filter]. unfold has_groups at 1. cbn [snd].
    rewrite (Hs s gs (or_introl eq_refl)). apply IHs.
    intros s' gs' Hin. apply (Hs s' gs'). right; exact Hin. }
  rewrite E. unfold has_groups at 1. cbn [snd]. apply IH.
  intros c' subs' s gs Hin. apply (H c' subs' s gs). right; exact Hin.
Qed.

(** When no identifier decodes to a literal (the response is empty, or
    all its identifiers are platform-specific), the taxonomy returned is
    empty or holds the category of the platform-specific identifiers
    alone, whatever the stream: its categories are all pruned away. *)
Theorem nothing_to_file (json : obj jsstring) (records : list record)
  (t : obj (obj (list (list jsstring)))) :
  obj_wf json = true -> keyed literal_of json = [] ->
  categorize json records = Ok t ->
  (json = [] /\ t = [])
  \/ exists gs, gs <> [] /\ t = [(custom_title, [([], gs)])].
Proof.
  intros Hwf Hk Hc. apply categorize_Ok in Hc as [st [Hw Hf]].
  apply walk_Ok in Hw as [st0 [P [_ [_ [Hok [HF [HA [HB _]]]]]]]].
  apply (finish_Ok _ _ Hok) in Hf as [_ ->].
  destruct (partition_spec json st0 Hwf P) as [HGA [HGB _]].
  rewrite HA in HF. rewrite HB.
  assert (Hnone : forall k, obj_get k (emojiLiteralToGithubEmojiIdsMap st0) = None).
  { intros k. rewrite (HGA k).
    destruct (ids_with literal_of k json) as [|i ids] eqn:E; [reflexivity|].
    assert (Hi : In i (keyed literal_of json)).
    { assert (Hin : In i (ids_with literal_of k json)) by (rewrite E; left; auto).
      apply ids_with_In in Hin as [v [H1 H2]]. apply keyed_In. eauto. }
    rewrite Hk in Hi. destruct Hi. }
  rewrite pruned_nothing.
  2:{ intros c subs s gs H1 H2. destruct gs as [|g gs]; [reflexivity|].
      destruct (HF c subs s (g :: gs) g H1 H2 (or_introl eq_refl)) as [k Hg].
      rewrite Hnone in Hg. discriminate. }
  unfold add_custom.
  destruct (githubSpecificEmojiUriToGithubEmojiIdsMap st0) as [|[u ids] B] eqn:EB.
  - left. split; [|reflexivity]. destruct json as [|[id url] json]; [reflexivity|].
    exfalso. destruct (partition_decoded _ st0 id url Hwf P (or_introl eq_refl))
      as [[l Hl]|[u Hu]].
    + assert (Hi : In id (keyed literal_of ((id, url) :: json)))
        by (apply keyed_In; exists url, l; split; [left; reflexivity | exact Hl]).
      rewrite Hk in Hi. destruct Hi.
    + assert (Hi : In u (obj_keys (@nil (jsstring * list jsstring)))).
      { apply (groups_by_key _ _ _ _ HGB). exists id, url.
        split; [left; reflexivity | exact Hu]. }
      destruct Hi.
  - right. cbn [obj_keys map fst]. eexists. split; [|reflexivity]. discriminate.
Qed.

Lemma nothing_to_file_witness :
  let json :=
    [(js "octocat",
      js "https://github.githubassets.com/images/icons/emoji/octocat.png?v8")] in
  let t : obj (obj (list (list jsstring))) :=
    [(custom_title, [([], [[js "octocat"]])])] in
  (json = [] /\ t = [])
  \/ exists gs, gs <> [] /\ t = [(custom_title, [([], gs)])].
Proof.
  apply (nothing_to_file _ example_records).
  - vm_compute. reflexivity.
  - vm_compute. reflexivity.
  - vm_compute. reflexivity.
Defined.

(** ** The pruning on its own *)

Lemma keys_filter_NoDup {V} (p : jsstring * V -> bool) (o : obj V) :
  NoDup (obj_keys o) -> NoDup (obj_keys (filter p o)).
Proof.
  induction o as [|[k v] o IH]; cbn [obj_keys map filter fst]; intros H.
  - constructor.
  - inversion H as [|? ? Hk Hnd]; subst.
    destruct (p (k, v)); [|apply IH; exact Hnd].
    cbn [map fst]. constructor; [|apply IH; exact Hnd].
    apply (keys_filter_absent p o k Hk).
Qed.

Lemma filter_twice {A} (p : A -> bool) (l : list A) :
  filter p (filter p l) = filter p l.
Proof.
  induction l as [|x l IH]; [reflexivity|]. cbn [filter].
  destruct (p x) eqn:E; [|exact IH]. cbn [filter]. rewrite E, IH. reflexivity.
Qed.

Lemma pruned_tax_ok (t : taxonomy) : tax_ok t -> tax_ok (pruned t).
Proof.
  intros [H1 H2]. split.
  - unfold pruned. apply keys_filter_NoDup. unfold obj_keys in *.
    rewrite map_map. exact H1.
  - intros c subs Hin. apply pruned_In in Hin as [_ [subs0 [Hin ->]]].
    apply keys_filter_NoDup. apply (H2 c subs0 Hin).
Qed.

Lemma pruned_twice (t : taxonomy) : pruned (pruned t) = pruned t.
Proof.
  unfold pruned. induction t as [|[c subs] t IH]; [reflexivity|].
  cbn [map filter fst snd].
  destruct (has_groups (c, filter has_groups subs)) eqn:E; [|exact IH].
  cbn [map filter fst snd]. rewrite filter_twice, E, IH. reflexivity.
Qed.

(** The two loops of the pruning delete while they go over the keys read
    before, and throw nothing: what is left is the taxonomy without the
    subcategories that have no group and then without the categories that
    have no subcategory, the others in their order; pruning once more
    changes nothing. *)
Theorem prune_deletes_empty (t : obj (obj (list (list jsstring)))) :
  tax_ok t ->
  prune t = Ok (pruned t) /\ prune (pruned t) = Ok (pruned t).
Proof.
  intros H. split; [apply prune_pruned; exact H|].
  rewrite (prune_pruned _ (pruned_tax_ok t H)), pruned_twice. reflexivity.
Qed.

Lemma prune_deletes_empty_witness :
  prune unpruned_taxonomy
  = Ok [ (js "Smileys & Emotion", [ (js "Face Affection", [[js "kissing_heart"]]) ]) ].
Proof.
  assert (H : tax_ok unpruned_taxonomy).
  { split.
    - repeat constructor; vm_compute; intuition discriminate.
    - intros c subs [[= <- <-]|[[= <- <-]|[]]];
        repeat constructor; vm_compute; intuition discriminate. }
  rewrite (proj1 (prune_deletes_empty unpruned_taxonomy H)).
  vm_compute. reflexivity.
Defined.

(** ** When a taxonomy is returned *)

Lemma walk_step_ok (json : obj jsstring) (st : locals) (r : record) :
  stack_ok st ->
  groups_by literal_of json (emojiLiteralToGithubEmojiIdsMap st) ->
  is_ok (walk_step st r) = record_ok (has_literal json) (categoryStack st) r.
Proof.
  unfold stack_ok. intros Hs HG.
  destruct r as [v|v|v|ty v]; cbn [walk_step record_ok].
  - reflexivity.
  - destruct (categoryStack st) as [|c [|s [|x stack]]].
    + cbn [length Nat.ltb Nat.leb app nth_error property_key].
      rewrite Hs. reflexivity.
    + cbn [length Nat.ltb Nat.leb app nth_error property_key].
      rewrite Hs. reflexivity.
    + destruct Hs as [subs [gs [Hc _]]].
      cbn [length Nat.ltb Nat.leb removelast app nth_error property_key].
      rewrite Hc. reflexivity.
    + destruct Hs.
  - unfold obj_lookup. rewrite (HG (normalize v)).
    destruct (has_literal json (normalize v)) eqn:Hl.
    + destruct (has_literal_ids _ _ Hl) as [i [ids ->]]. cbn [nonempty_list].
      destruct (categoryStack st) as [|c [|s [|x stack]]].
      * cbn [nth_error property_key]. rewrite Hs. reflexivity.
      * cbn [nth_error property_key]. rewrite Hs. reflexivity.
      * destruct Hs as [subs [gs [Hc Hg]]]. cbn [nth_error property_key].
        rewrite Hc, Hg. reflexivity.
      * destruct Hs.
    + rewrite (not_has_literal_ids _ _ Hl). cbn [nonempty_list].
      destruct (inherited (normalize v)); reflexivity.
  - reflexivity.
Qed.

(** The loop over the records ends without an exception just on the
    streams of [stream_ok]. *)
Lemma walk_loop_ok (json : obj jsstring) (records : list record) :
  forall st,
    stack_ok st ->
    groups_by literal_of json (emojiLiteralToGithubEmojiIdsMap st) ->
    is_ok (for_of walk_step records st)
    = stream_ok (has_literal json) (categoryStack st) records.
Proof.
  induction records as [|r rs IH]; intros st Hs HG; [reflexivity|].
  cbn [for_of stream_ok]. rewrite <- (walk_step_ok json st r Hs HG).
  destruct (walk_step st r) as [st'|e] eqn:E; cbn [bind is_ok andb];
    [|reflexivity].
  rewrite <- (walk_step_stack _ _ _ E). apply IH.
  - apply (walk_step_stack_ok _ _ _ Hs E).
  - destruct (walk_step_partitions _ _ _ E) as [-> _]. exact HG.
Qed.

(** A taxonomy is returned just when three things hold: the partitioning
    goes through; in the stream no subcategory record comes before the
    first category record, every emoji record whose key is a literal of
    the response comes when a category and a subcategory are current,
    and no other emoji record has the name of a property of
    [Object.prototype] for its key; and every literal of the response is
    the key of some emoji record. *)
Theorem categorize_succeeds (json : obj jsstring) (records : list record) :
  obj_wf json = true ->
  (is_ok (categorize json records) = true
   <-> is_ok (partition json) = true
       /\ stream_ok (has_literal json) [] records = true
       /\ all_matched json records = true).
Proof.
  intros Hwf. unfold categorize, categorize_from.
  destruct (walk json records) as [st|e] eqn:Hw; cbn [bind is_ok].
  - pose proof (walk_left json records st Hwf Hw) as Hleft.
    destruct (walk_Ok _ _ _ Hw) as [st0 [P [W [_ [Hok _]]]]].
    destruct (partition_spec json st0 Hwf P) as [HGA _].
    destruct (partition_empty _ _ P) as [HC HS].
    assert (Hs0 : stack_ok st0) by (unfold stack_ok; rewrite HS; exact HC).
    pose proof (walk_loop_ok json records st0 Hs0 HGA) as Hloop.
    rewrite HS, W in Hloop. cbn [is_ok] in Hloop. rewrite P, <- Hloop.
    unfold finish. rewrite (prune_pruned _ Hok). cbn [bind is_ok].
    destruct (all_matched json records) eqn:Hm.
    + destruct (obj_keys (githubEmojiIdMap st)) as [|i ids] eqn:E;
        [cbn [is_ok]; tauto|].
      exfalso.
      destruct (proj1 (Hleft i) (or_introl eq_refl)) as [url [l [H1 [H2 H3]]]].
      apply H3.
      apply (proj1 (all_matched_true _ _) Hm i url l H1 H2).
    + apply all_matched_false in Hm as [id [url [l Hm]]].
      destruct (obj_keys (githubEmojiIdMap st)) as [|i ids] eqn:E.
      * exfalso. apply (proj2 (Hleft id)). eauto.
      * cbn [is_ok]. split; [discriminate | intros [_ [_ H]]; discriminate H].
  - split; [discriminate|]. intros [HP [Hs _]]. exfalso.
    unfold walk in Hw. destruct (partition json) as [st0|] eqn:P;
      [|discriminate HP]. cbn [bind] in Hw.
    destruct (partition_spec json st0 Hwf P) as [HGA _].
    destruct (partition_empty _ _ P) as [HC HS].
    assert (Hs0 : stack_ok st0) by (unfold stack_ok; rewrite HS; exact HC).
    pose proof (walk_loop_ok json records st0 Hs0 HGA) as Hloop.
    rewrite HS, Hw, Hs in Hloop. discriminate Hloop.
Qed.

Lemma categorize_succeeds_witness :
  is_ok (categorize example_json example_records) = true
  /\ is_ok (categorize example_json (firstn 1 example_records ++ skipn 2 example_records))
     = false.
Proof.
  assert (Hwf : obj_wf example_json = true) by (vm_compute; reflexivity).
  split.
  - apply (proj2 (categorize_succeeds example_json example_records Hwf)).
    repeat split; vm_compute; reflexivity.
  - vm_compute. reflexivity.
Defined.

(** ** The order of the categories *)

Lemma obj_set_order {V} (seen : list jsstring) (k : jsstring) (v : V)
  (o : obj V) :
  own_property_order seen (obj_keys o) ->
  own_property_order (seen ++ [k]) (obj_keys (obj_set k v o)).
Proof.
  intros Ho. pose proof (own_property_order_In _ _ k Ho) as Hin.
  destruct (obj_get k o) as [v0|] eqn:G.
  - rewrite (obj_keys_set_old k v v0 o G).
    unfold own_property_order. rewrite first_seen_snoc.
    assert (Hk : In k (first_seen seen))
      by (apply Hin; apply (obj_get_key _ _ _ G)).
    apply existsb_str_eqb in Hk. rewrite Hk. exact Ho.
  - assert (Hn : existsb (str_eqb k) (first_seen seen) = false).
    { apply not_existsb_str_eqb. rewrite <- Hin. apply obj_get_None. exact G. }
    unfold own_property_order. rewrite first_seen_snoc, Hn, !filter_app.
    destruct (own_property_order_parts _ _ Ho)
      as [idx [rest [Hks [Hrest [Hperm [Hidx [Hr Hs]]]]]]].
    unfold obj_set, obj_has. rewrite G.
    destruct (array_index k) as [n|] eqn:Ek.
    + destruct (index_value_of k n Ek) as [_ Hi]. cbn [filter]. rewrite Hi.
      cbn [negb]. rewrite app_nil_r.
      destruct (obj_insert_index_keys n k v o Ek idx rest Hks Hidx Hr Hs)
        as [idx' [E [Hp' Hs']]].
      exists idx'. subst rest. split; [exact E|]. split; [|exact Hs'].
      etransitivity; [exact Hp'|].
      etransitivity; [apply perm_skip; exact Hperm|].
      apply Permutation_cons_append.
    + assert (Hi : is_index k = false) by (unfold is_index; rewrite Ek; auto).
      cbn [filter]. rewrite Hi. cbn [negb]. rewrite app_nil_r.
      exists idx. unfold obj_keys in *. rewrite map_app, Hks. cbn [map fst].
      subst rest. rewrite app_assoc. split; [reflexivity|].
      split; [exact Hperm | exact Hs].
Qed.

Lemma obj_keys_set_append {V} (k : jsstring) (v : V) (o : obj V) :
  obj_get k o = None -> array_index k = None ->
  obj_keys (obj_set k v o) = obj_keys o ++ [k].
Proof.
  intros G Ha. unfold obj_set, obj_has. rewrite G, Ha.
  unfold obj_keys. rewrite map_app. reflexivity.
Qed.

Lemma category_titles_app (a b : list record) :
  category_titles (a ++ b) = category_titles a ++ category_titles b.
Proof. unfold category_titles. apply flat_map_app. Qed.

Lemma walk_loop_order (rs : list record) :
  forall seen st st',
    own_property_order (category_titles seen)
                       (obj_keys (categorizedEmojiIds st)) ->
    for_of walk_step rs st = Ok st' ->
    own_property_order (category_titles (seen ++ rs))
                       (obj_keys (categorizedEmojiIds st')).
Proof.
  induction rs as [|r rs IH]; intros seen st st' Ho; cbn [for_of].
  - intros [= <-]. rewrite app_nil_r. exact Ho.
  - destruct (walk_step st r) as [s1|] eqn:E; cbn [bind]; [|discriminate].
    intros W.
    replace (seen ++ r :: rs) with ((seen ++ [r]) ++ rs)
      by (rewrite <- app_assoc; reflexivity).
    apply (IH (seen ++ [r]) s1 st'); [|exact W].
    rewrite category_titles_app. revert E.
    destruct r as [v|v|v|ty v]; cbn [walk_step].
    + intros [= <-]. cbn [set_walk categorizedEmojiIds].
      change (category_titles [Category v]) with [toTitleCase v].
      apply obj_set_order. exact Ho.
    + destruct (obj_get _ (categorizedEmojiIds st)) as [subs|] eqn:G;
        [|discriminate].
      intros [= <-]. cbn [set_walk categorizedEmojiIds].
      rewrite (obj_keys_set_old _ _ _ _ G).
      change (category_titles [Subcategory v]) with (@nil jsstring).
      rewrite app_nil_r. exact Ho.
    + change (category_titles [Emoji v]) with (@nil jsstring).
      rewrite app_nil_r.
      destruct (obj_lookup _ _) as [ids| |];
        [| discriminate | intros [= <-]; exact Ho].
      destruct (obj_get _ (categorizedEmojiIds st)) as [subs|] eqn:G;
        [|discriminate].
      destruct (obj_get _ subs) as [l|]; [|discriminate].
      intros [= <-]. cbn [set_walk categorizedEmojiIds].
      rewrite (obj_keys_set_old _ _ _ _ G). exact Ho.
    + discriminate.
Qed.

Lemma keys_filter_has {V} (p : jsstring * V -> bool) (o : obj V) :
  NoDup (obj_keys o) ->
  obj_keys (filter p o) = filter (fun k => obj_has k (filter p o)) (obj_keys o).
Proof.
  induction o as [|[k v] o IH]; [reflexivity|].
  cbn [obj_keys map fst filter]. intros H.
  inversion H as [|? ? Hk Hnd]; subst. fold (obj_keys o) in *.
  destruct (p (k, v)) eqn:E.
  - cbn [map fst]. unfold obj_has at 1. cbn [obj_get]. rewrite str_eqb_refl.
    f_equal. fold (obj_keys (filter p o)). rewrite (IH Hnd).
    apply filter_ext_in. intros k' Hk'. unfold obj_has. cbn [obj_get].
    destruct (str_eqb k k') eqn:Ek; [|reflexivity].
    apply str_eqb_eq in Ek. subst k'. contradiction.
  - assert (Hf : obj_has k (filter p o) = false).
    { destruct (obj_has k (filter p o)) eqn:Hh; [|reflexivity].
      apply obj_has_true in Hh. exfalso.
      apply (keys_filter_absent p o k Hk Hh). }
    rewrite Hf. apply (IH Hnd).
Qed.

(** The categories of a taxonomy that is returned stand in the
    own-property order of their titles: the titles that are array indices
    first, ascending, then the others in the order the stream first names
    them (so in that order throughout when no title is an array index);
    the category of the platform-specific identifiers comes last. *)
Theorem categories_in_order (json : obj jsstring) (records : list record)
  (t : obj (obj (list (list jsstring)))) :
  existsb (str_eqb custom_title) (category_titles records) = false ->
  categorize json records = Ok t ->
  exists ks,
    own_property_order (category_titles records) ks
    /\ (forallb (fun k => negb (is_index k)) (category_titles records) = true ->
        ks = first_seen (category_titles records))
    /\ obj_keys t
       = filter (fun k => obj_has k t) ks
         ++ (if obj_has custom_title t then [custom_title] else []).
Proof.
  intros Hcu Hc. apply categorize_Ok in Hc as [st [Hw Hf]].
  apply walk_Ok in Hw as [st0 [P [W [_ [Hok _]]]]].
  apply (finish_Ok _ _ Hok) in Hf as [_ ->].
  destruct (partition_empty _ _ P) as [HC _].
  assert (Ho : own_property_order (category_titles records)
                 (obj_keys (categorizedEmojiIds st))).
  { apply (walk_loop_order records [] st0 st); [|exact W].
    rewrite HC. exists []. split; [reflexivity|].
    split; [apply perm_nil | constructor]. }
  set (cats := categorizedEmojiIds st) in *.
  exists (obj_keys cats). split; [exact Ho|].
  split; [intros Hn; apply (own_property_order_no_index _ _ Hn Ho)|].
  assert (Hks : forall k, In k (obj_keys cats) -> k <> custom_title).
  { intros k Hk ->. apply (own_property_order_In _ _ _ Ho) in Hk.
    apply (proj1 (first_seen_In _ _)) in Hk.
    apply existsb_str_eqb in Hk. congruence. }
  assert (HnP : obj_get custom_title (pruned cats) = None).
  { apply obj_get_None. apply pruned_keys_absent. intros H.
    apply (Hks _ H). reflexivity. }
  assert (HkP : obj_keys (pruned cats)
                = filter (fun k => obj_has k (pruned cats)) (obj_keys cats)).
  { assert (Hmk : obj_keys (map (fun c => (fst c, filter has_groups (snd c))) cats)
                  = obj_keys cats)
      by (unfold obj_keys; rewrite map_map; reflexivity).
    unfold pruned.
    rewrite (keys_filter_has has_groups
               (map (fun c => (fst c, filter has_groups (snd c))) cats)).
    - rewrite Hmk. reflexivity.
    - rewrite Hmk. apply (proj1 Hok). }
  unfold add_custom.
  destruct (obj_keys (githubSpecificEmojiUriToGithubEmojiIdsMap st)) as [|u us].
  - unfold obj_has at 2. rewrite HnP, app_nil_r. exact HkP.
  - generalize [(@nil N, map snd (githubSpecificEmojiUriToGithubEmojiIdsMap st))].
    intros custom.
    assert (H1 : obj_keys (obj_set custom_title custom (pruned cats))
                 = obj_keys (pruned cats) ++ [custom_title]).
    { apply (obj_keys_set_append _ _ _ HnP). vm_compute. reflexivity. }
    assert (H2 : obj_has custom_title (obj_set custom_title custom (pruned cats))
                 = true)
      by (unfold obj_has; rewrite obj_get_set_same; reflexivity).
    assert (H3 : filter (fun k => obj_has k (obj_set custom_title custom (pruned cats)))
                        (obj_keys cats)
                 = obj_keys (pruned cats)).
    { rewrite HkP. apply filter_ext_in. intros k Hk. unfold obj_has.
      rewrite obj_get_set_other; [reflexivity|].
      intros E. apply (Hks k Hk). symmetry. exact E. }
    etransitivity; [exact H1|]. symmetry.
    exact (f_equal2 (@app jsstring) H3
             (f_equal (fun b : bool => if b then [custom_title] else []) H2)).
Qed.

Lemma categories_in_order_witness :
  exists ks,
    own_property_order (category_titles example_records) ks
    /\ (forallb (fun k => negb (is_index k)) (category_titles example_records)
        = true ->
        ks = first_seen (category_titles example_records))
    /\ obj_keys example_taxonomy
       = filter (fun k => obj_has k example_taxonomy) ks
         ++ (if obj_has custom_title example_taxonomy
             then [custom_title] else []).
Proof.
  apply (categories_in_order example_json example_records).
  - vm_compute. reflexivity.
  - vm_compute. reflexivity.
Defined.
